(** * graphdocgen: a GraphQL SDL parser and its Markdown renderer

    A shallow embedding of [graphdocgen.py].  Python [str] values are
    [string]s over ASCII characters (the case conversions [lower] and
    [capitalize] are the ASCII ones), [dict]s are association lists in
    insertion order, and the [GraphQLSchema] objects live in an explicit
    heap so that the aliasing between the parser's current record and the
    registry is visible.  A file is its content, a [string], read in text
    mode: carriage returns are line endings. *)

From Stdlib Require Import String Ascii List Bool Arith ZArith Lia.
Import ListNotations.
Local Open Scope string_scope.

(** ** Python exceptions raised by the program *)

Inductive exn : Type :=
| AssertionError
| UnexpectedToken (token : string)
    (* ValueError(f"Unexpected token: {repr(token)}") *)
| EmptySeparator
    (* ValueError("empty separator"), raised by str.split("") *)
| KeyError (key : string)
| AttributeError
    (* attribute access on None *)
| InvalidReference (address : nat).
    (* an address outside the heap: no Python counterpart, never reached *)

(** ** The [str] operations the program uses *)

Module Str.

Definition nl : ascii := "010"%char.
Definition cr : ascii := "013"%char.
Definition dquote : ascii := "034"%char.
Definition backtick : ascii := "`"%char.

Definition chr (c : ascii) : string := String c EmptyString.

(** [s.replace(old, new)] for a one-character [old]. *)
Fixpoint replace (old : ascii) (new : string) (s : string) : string :=
  match s with
  | EmptyString => EmptyString
  | String c s' =>
      if Ascii.eqb c old then new ++ replace old new s'
      else String c (replace old new s')
  end.

Fixpoint rev (s : string) : string :=
  match s with
  | EmptyString => EmptyString
  | String c s' => rev s' ++ chr c
  end.

Definition startswith (s p : string) : bool := prefix p s.
Definition endswith (s p : string) : bool := prefix (rev p) (rev s).

(** [s.lstrip(c)] and [s.rstrip(c)] for a one-character argument. *)
Fixpoint lstrip (c : ascii) (s : string) : string :=
  match s with
  | EmptyString => EmptyString
  | String c' s' => if Ascii.eqb c' c then lstrip c s' else s
  end.

Definition rstrip (c : ascii) (s : string) : string := rev (lstrip c (rev s)).

Definition lower_char (c : ascii) : ascii :=
  let n := nat_of_ascii c in
  if ((65 <=? n) && (n <=? 90))%nat then ascii_of_nat (n + 32) else c.

Definition upper_char (c : ascii) : ascii :=
  let n := nat_of_ascii c in
  if ((97 <=? n) && (n <=? 122))%nat then ascii_of_nat (n - 32) else c.

Fixpoint lower (s : string) : string :=
  match s with
  | EmptyString => EmptyString
  | String c s' => String (lower_char c) (lower s')
  end.

Definition capitalize (s : string) : string :=
  match s with
  | EmptyString => EmptyString
  | String c s' => String (upper_char c) (lower s')
  end.

(** [s.split(sep)] for a non-empty [sep]: the pieces between the
    non-overlapping occurrences of [sep], scanned from the left.  [skip]
    counts the characters of a matched separator still to be passed over,
    [cur] is the piece being built. *)
Fixpoint split_from (sep : string) (skip : nat) (cur : string) (s : string)
  : list string :=
  match s with
  | EmptyString => [cur]
  | String c s' =>
      match skip with
      | S k => split_from sep k cur s'
      | O =>
          if prefix sep s
          then cur :: split_from sep (String.length sep - 1) EmptyString s'
          else split_from sep 0 (cur ++ chr c) s'
      end
  end.

Definition split (s sep : string) : exn + list string :=
  if sep =? "" then inl EmptySeparator else inr (split_from sep 0 "" s).

(** [sep.join(parts)] *)
Definition join (sep : string) (parts : list string) : string :=
  String.concat sep parts.

End Str.

(** ** Insertion-ordered [dict] with [str] keys *)

Module Dict.
Section WithValues.
Context {V : Type}.

Definition t := list (string * V).

Fixpoint get (k : string) (d : t) : option V :=
  match d with
  | [] => None
  | (k', v) :: d' => if k' =? k then Some v else get k d'
  end.

Definition mem (k : string) (d : t) : bool :=
  match get k d with Some _ => true | None => false end.

(** [d[k] = v]: an existing key keeps its position, a new key goes last. *)
Fixpoint set (k : string) (v : V) (d : t) : t :=
  match d with
  | [] => [(k, v)]
  | (k', v') :: d' =>
      if k' =? k then (k', v) :: d' else (k', v') :: set k v d'
  end.

(** the dictionary left by [d.pop(k)] *)
Definition remove (k : string) (d : t) : t :=
  filter (fun kv => negb (fst kv =? k)) d.

Definition keys (d : t) : list string := map fst d.
Definition values (d : t) : list V := map snd d.
Definition items (d : t) : list (string * V) := d.

(** number of entries stored under [k] *)
Definition count (k : string) (d : t) : nat :=
  List.length (filter (fun kv => fst kv =? k) d).
End WithValues.
Arguments t : clear implicits.
End Dict.

(** [x in s] for a set of strings *)
Definition set_in (x : string) (s : list string) : bool :=
  existsb (String.eqb x) s.

(** [s.add(x)] *)
Definition set_add (x : string) (s : list string) : list string :=
  if set_in x s then s else s ++ [x].

Definition SCALARS : list string := ["Int"; "Float"; "String"; "Boolean"; "ID"].

(** ** [table_to_markdown] *)

Definition row_to_markdown (row : list string) : string :=
  "| " ++ Str.join " | " row ++ " |".

Definition table_to_markdown
    (headers : list string) (rows : list (list string))
    (column_alignments : option (list string)) : string :=
  "| " ++ Str.join " | " headers ++ " |" ++ Str.chr Str.nl ++
  "| " ++ Str.join " | "
            (match column_alignments with
             | Some ((_ :: _) as al) => al
             | _ => repeat "---" (List.length headers)
             end) ++ " |" ++ Str.chr Str.nl ++
  Str.join (Str.chr Str.nl) (map row_to_markdown rows).

(** sequencing of computations that may raise *)
Definition ebind {A B} (c : exn + A) (k : A -> exn + B) : exn + B :=
  match c with
  | inl e => inl e
  | inr a => k a
  end.

Fixpoint emap {A B} (f : A -> exn + B) (l : list A) : exn + list B :=
  match l with
  | [] => inr []
  | a :: l' => ebind (f a) (fun b => ebind (emap f l') (fun bs => inr (b :: bs)))
  end.

(** ** class GraphQLSchema *)

Module GraphQLSchema.

Record t : Type := mk {
  name : string;
  type : string;
  fields : Dict.t string
}.

(** [GraphQLSchema(name, schema_type)] *)
Definition init (name schema_type : string) : t :=
  {| name := name; type := schema_type; fields := [] |}.

Definition set_name (n : string) (self : t) : t :=
  {| name := n; type := type self; fields := fields self |}.

Definition add_field (fname dtype : string) (self : t) : t :=
  {| name := name self; type := type self;
     fields := Dict.set fname dtype (fields self) |}.

(** the bare identifier of a type expression *)
Definition strip_markers (dtype : string) : string :=
  Str.replace "]" "" (Str.replace "[" "" (Str.replace "!" "" dtype)).

Definition get_type_id (self : t) (field_name : string) : exn + string :=
  match Dict.get field_name (fields self) with
  | Some dtype => inr (strip_markers dtype)
  | None => inl (KeyError field_name)
  end.

(** the Markdown of one field's type expression (lines 38-43) *)
Definition dtype_markdown (self : t) (scalars : list string)
    (field dtype : string) : exn + string :=
  ebind (get_type_id self field) (fun type_id =>
  if negb (set_in type_id scalars) then
    ebind (Str.split dtype type_id) (fun pieces =>
    let dtype_md :=
      Str.join ("`[<ins>`" ++ type_id ++ "`</ins>](#" ++ Str.lower type_id ++ ")`")
               pieces in
    let dtype_md :=
      if Str.startswith dtype type_id then Str.lstrip Str.backtick dtype_md
      else "`" ++ dtype_md in
    let dtype_md :=
      if Str.endswith dtype type_id then Str.rstrip Str.backtick dtype_md
      else dtype_md ++ "`" in
    inr dtype_md)
  else inr ("`" ++ dtype ++ "`")).

Definition field_row (self : t) (scalars : list string)
    (item : string * string) : exn + list string :=
  let (field, dtype) := item in
  ebind (dtype_markdown self scalars field dtype) (fun dtype_md =>
  inr ["**`" ++ field ++ "`:** " ++ dtype_md; "-"]).

Definition to_markdown (self : t) (title_prefix : string)
    (scalars : option (list string)) : exn + string :=
  let scalars := match scalars with None => SCALARS | Some s => s end in
  if type self =? "scalar" then
    inr (title_prefix ++ " " ++ name self ++ Str.chr Str.nl ++ Str.chr Str.nl ++
         "Datatype class: *" ++ type self ++ "*")
  else
    ebind
      (if type self =? "enum" then
         inr (["Values"], Some [":-:"],
              map (fun field => ["**`" ++ field ++ "`**"]) (Dict.keys (fields self)))
       else
         ebind (emap (field_row self scalars) (Dict.items (fields self)))
               (fun table => inr (["Field"; "Description"], None, table)))
      (fun '(headers, column_alignments, table) =>
    inr (title_prefix ++ " " ++ name self ++ Str.chr Str.nl ++ Str.chr Str.nl ++
         "Datatype class: *" ++ Str.capitalize (type self) ++ "*" ++
         Str.chr Str.nl ++ Str.chr Str.nl ++
         table_to_markdown headers table column_alignments)).

End GraphQLSchema.

(** ** class GraphQLSchemaParser *)

Module GraphQLSchemaParser.

(** [self.state]: "none", "name" or "fields" *)
Inductive State : Type := St_none | St_name | St_fields.

(** [self.field_state]: "field" or "dtype" *)
Inductive FieldState : Type := Fs_field | Fs_dtype.

(** The parser object.  [heap] holds every [GraphQLSchema] object created
    so far, at the address that [schemas] and [current_schema] refer to it
    by; a new object takes the next free address. *)
Record t : Type := mk {
  heap : list GraphQLSchema.t;
  schemas : Dict.t nat;
  scalars : list string;
  current_schema : option nat;
  state : State;
  current_type : string;
  field_state : FieldState;
  current_token : string;
  current_field : string;
  comment : bool;
  long_comment : bool;
  bracket_level : Z
}.

Definition init : t :=
  {| heap := []; schemas := []; scalars := SCALARS; current_schema := None;
     state := St_none; current_type := ""; field_state := Fs_field;
     current_token := ""; current_field := ""; comment := false;
     long_comment := false; bracket_level := 0 |}.

Definition set_heap (x : list GraphQLSchema.t) (p : t) : t :=
  mk x (schemas p) (scalars p) (current_schema p) (state p) (current_type p)
     (field_state p) (current_token p) (current_field p) (comment p)
     (long_comment p) (bracket_level p).
Definition set_schemas (x : Dict.t nat) (p : t) : t :=
  mk (heap p) x (scalars p) (current_schema p) (state p) (current_type p)
     (field_state p) (current_token p) (current_field p) (comment p)
     (long_comment p) (bracket_level p).
Definition set_scalars (x : list string) (p : t) : t :=
  mk (heap p) (schemas p) x (current_schema p) (state p) (current_type p)
     (field_state p) (current_token p) (current_field p) (comment p)
     (long_comment p) (bracket_level p).
Definition set_current_schema (x : option nat) (p : t) : t :=
  mk (heap p) (schemas p) (scalars p) x (state p) (current_type p)
     (field_state p) (current_token p) (current_field p) (comment p)
     (long_comment p) (bracket_level p).
Definition set_state (x : State) (p : t) : t :=
  mk (heap p) (schemas p) (scalars p) (current_schema p) x (current_type p)
     (field_state p) (current_token p) (current_field p) (comment p)
     (long_comment p) (bracket_level p).
Definition set_current_type (x : string) (p : t) : t :=
  mk (heap p) (schemas p) (scalars p) (current_schema p) (state p) x
     (field_state p) (current_token p) (current_field p) (comment p)
     (long_comment p) (bracket_level p).
Definition set_field_state (x : FieldState) (p : t) : t :=
  mk (heap p) (schemas p) (scalars p) (current_schema p) (state p)
     (current_type p) x (current_token p) (current_field p) (comment p)
     (long_comment p) (bracket_level p).
Definition set_current_token (x : string) (p : t) : t :=
  mk (heap p) (schemas p) (scalars p) (current_schema p) (state p)
     (current_type p) (field_state p) x (current_field p) (comment p)
     (long_comment p) (bracket_level p).
Definition set_current_field (x : string) (p : t) : t :=
  mk (heap p) (schemas p) (scalars p) (current_schema p) (state p)
     (current_type p) (field_state p) (current_token p) x (comment p)
     (long_comment p) (bracket_level p).
Definition set_comment (x : bool) (p : t) : t :=
  mk (heap p) (schemas p) (scalars p) (current_schema p) (state p)
     (current_type p) (field_state p) (current_token p) (current_field p) x
     (long_comment p) (bracket_level p).
Definition set_long_comment (x : bool) (p : t) : t :=
  mk (heap p) (schemas p) (scalars p) (current_schema p) (state p)
     (current_type p) (field_state p) (current_token p) (current_field p)
     (comment p) x (bracket_level p).
Definition set_bracket_level (x : Z) (p : t) : t :=
  mk (heap p) (schemas p) (scalars p) (current_schema p) (state p)
     (current_type p) (field_state p) (current_token p) (current_field p)
     (comment p) (long_comment p) x.

(** *** Methods: state-passing computations that may raise

    A raised exception carries the parser as the exception left it. *)
Inductive Res (A : Type) : Type :=
| Ok (a : A) (p : t)
| Raise (e : exn) (p : t).
Arguments Ok {A} a p.
Arguments Raise {A} e p.

Definition M (A : Type) : Type := t -> Res A.

Definition ret {A} (a : A) : M A := fun p => Ok a p.
Definition raise {A} (e : exn) : M A := fun p => Raise e p.
Definition bind {A B} (c : M A) (k : A -> M B) : M B :=
  fun p => match c p with
           | Ok a p' => k a p'
           | Raise e p' => Raise e p'
           end.
Definition get : M t := fun p => Ok p p.
Definition modify (f : t -> t) : M unit := fun p => Ok tt (f p).
Definition lift {A} (c : exn + A) : M A :=
  fun p => match c with inr a => Ok a p | inl e => Raise e p end.
Definition assert (b : bool) : M unit :=
  if b then ret tt else raise AssertionError.
Definition pass : M unit := ret tt.

Declare Scope parser_scope.
Delimit Scope parser_scope with parser.
Notation "x <- c ;; k" := (bind c (fun x => k))
  (at level 61, c at next level, right associativity) : parser_scope.
Notation "c ;; k" := (bind c (fun _ => k))
  (at level 61, right associativity) : parser_scope.
Local Open Scope parser_scope.

Fixpoint for_each {A} (l : list A) (body : A -> M unit) : M unit :=
  match l with
  | [] => ret tt
  | a :: l' => body a ;; for_each l' body
  end.

Fixpoint map_m {A B} (f : A -> M B) (l : list A) : M (list B) :=
  match l with
  | [] => ret []
  | a :: l' => b <- f a ;; bs <- map_m f l' ;; ret (b :: bs)
  end.

(** *** Objects *)

(** [GraphQLSchema(schema_type=schema_type)]: a new object *)
Definition new_schema (schema_type : string) : M nat :=
  fun p => Ok (List.length (heap p))
              (set_heap (heap p ++ [GraphQLSchema.init "" schema_type]) p).

Definition deref (a : nat) : M GraphQLSchema.t :=
  fun p => match nth_error (heap p) a with
           | Some obj => Ok obj p
           | None => Raise (InvalidReference a) p
           end.

Fixpoint update_nth {A} (n : nat) (f : A -> A) (l : list A) : list A :=
  match l, n with
  | [], _ => []
  | x :: l', O => f x :: l'
  | x :: l', S n' => x :: update_nth n' f l'
  end.

(** a method of the object at [a] that mutates it *)
Definition mutate (a : nat) (f : GraphQLSchema.t -> GraphQLSchema.t) : M unit :=
  _ <- deref a ;; modify (fun p => set_heap (update_nth a f (heap p)) p).

(** attribute access on [self.current_schema] *)
Definition the_current_schema : M nat :=
  self <- get ;;
  match current_schema self with
  | Some a => ret a
  | None => raise AttributeError
  end.

(** *** read_character *)

Definition sentinel : string :=
  String Str.dquote (String Str.dquote (String Str.dquote EmptyString)).

Definition in_chars (c : ascii) (l : list ascii) : bool :=
  existsb (Ascii.eqb c) l.

Definition delimiters : list ascii :=
  [" "; "{"; ":"; "}"; Str.nl; "="]%char.

Definition keywords : list string := ["type"; "input"; "enum"; "scalar"].

Definition is_some {A} (o : option A) : bool :=
  match o with Some _ => true | None => false end.

Definition nonempty (s : string) : bool := negb (s =? "").

(** lines 92-102 *)
Definition dispatch_none (character : ascii) : M unit :=
  assert (in_chars character [" "; Str.nl]%char) ;;
  self <- get ;;
  if current_token self =? "" then pass
  else if set_in (current_token self) keywords then
    modify (set_state St_name) ;;
    modify (set_current_type (current_token self)) ;;
    a <- new_schema (current_token self) ;;
    modify (set_current_schema (Some a))
  else raise (UnexpectedToken (current_token self)).

(** lines 104-117 *)
Definition dispatch_name (character : ascii) : M unit :=
  assert (in_chars character [" "; Str.nl; "{"]%char) ;;
  self <- get ;;
  assert (is_some (current_schema self)) ;;
  a <- the_current_schema ;;
  mutate a (GraphQLSchema.set_name (current_token self)) ;;
  if current_type self =? "scalar" then
    modify (set_state St_none) ;;
    modify (set_current_type "") ;;
    obj <- deref a ;;
    modify (fun p => set_scalars (set_add (GraphQLSchema.name obj) (scalars p)) p) ;;
    modify (fun p => set_schemas (Dict.set (GraphQLSchema.name obj) a (schemas p)) p)
  else
    modify (set_state St_fields) ;;
    modify (set_field_state Fs_field).

(** lines 119-149 *)
Definition dispatch_fields (character : ascii) : M unit :=
  assert (in_chars character [":"; "{"; "}"; Str.nl; " "; "="]%char) ;;
  self <- get ;;
  assert (nonempty (current_type self)) ;;
  if Ascii.eqb character "}" then
    assert (is_some (current_schema self)) ;;
    a <- the_current_schema ;;
    obj <- deref a ;;
    modify (fun p => set_schemas (Dict.set (GraphQLSchema.name obj) a (schemas p)) p) ;;
    modify (set_current_schema None) ;;
    modify (set_state St_none) ;;
    modify (set_current_type "") ;;
    modify (set_field_state Fs_field)
  else if Ascii.eqb character "=" then
    modify (set_comment true)
  else if current_token self =? "" then pass
  else
    assert (in_chars character [" "; ":"; Str.nl; "="]%char) ;;
    match field_state self with
    | Fs_field =>
        if in_chars character [":"; " "; Str.nl]%char then
          if current_type self =? "enum" then
            assert (in_chars character [" "; Str.nl]%char) ;;
            a <- the_current_schema ;;
            mutate a (GraphQLSchema.add_field (current_token self) "")
          else
            assert (in_chars character [" "; ":"; Str.nl]%char) ;;
            modify (set_current_field (current_token self)) ;;
            modify (set_field_state Fs_dtype)
        else pass
    | Fs_dtype =>
        if in_chars character [Str.nl; " "]%char then
          assert (nonempty (current_field self)) ;;
          a <- the_current_schema ;;
          mutate a (GraphQLSchema.add_field (current_field self) (current_token self)) ;;
          modify (set_current_field "") ;;
          modify (set_field_state Fs_field)
        else pass
    end.

Definition read_character (character : ascii) : M unit :=
  (if Ascii.eqb character Str.nl then modify (set_comment false)
   else if Ascii.eqb character "#" then modify (set_comment true)
   else pass) ;;
  self <- get ;;
  if comment self then ret tt
  else if (0 <? bracket_level self)%Z || negb (in_chars character delimiters) then
    modify (set_current_token (current_token self ++ Str.chr character)) ;;
    (if Ascii.eqb character "(" then
       modify (set_bracket_level (bracket_level self + 1))
     else if Ascii.eqb character ")" then
       modify (set_bracket_level (bracket_level self - 1))
     else pass) ;;
    self <- get ;;
    if current_token self =? sentinel then
      modify (set_long_comment (xorb (long_comment self) true)) ;;
      modify (set_current_token "")
    else ret tt
  else if long_comment self then
    modify (set_current_token "")
  else
    match state self with
    | St_none => dispatch_none character
    | St_name => dispatch_name character
    | St_fields => dispatch_fields character
    end ;;
    modify (set_current_token "").

(** *** to_markdown (lines 153-160) *)

Definition pop (key : string) : M nat :=
  self <- get ;;
  match Dict.get key (schemas self) with
  | Some a => modify (set_schemas (Dict.remove key (schemas self))) ;; ret a
  | None => raise (KeyError key)
  end.

(** [obj.to_markdown(scalars=scalars)] for the object at [a] *)
Definition schema_to_markdown (scalars : option (list string)) (a : nat)
  : M string :=
  obj <- deref a ;; lift (GraphQLSchema.to_markdown obj "##" scalars).

Definition int (b : bool) : nat := if b then 1 else 0.

(** [n * l] for a list [l] *)
Fixpoint times {A} (n : nat) (l : list A) : list A :=
  match n with
  | O => []
  | S n' => l ++ times n' l
  end.

Definition to_markdown : M string :=
  query <- pop "Query" ;;
  query_md <- schema_to_markdown None query ;;
  self <- get ;;
  let has_mutation := Dict.mem "Mutation" (schemas self) in
  mutation <- pop "Mutation" ;;
  mutation_md <- schema_to_markdown None mutation ;;
  self <- get ;;
  rest <- map_m (schema_to_markdown (Some (scalars self)))
                (Dict.values (schemas self)) ;;
  ret (Str.join (Str.chr Str.nl ++ Str.chr Str.nl)
         (["# Entrypoint Data Types"; query_md]
            ++ times (int has_mutation) [mutation_md]
            ++ ["# Custom Data Types"]
            ++ rest)).

End GraphQLSchemaParser.

(** ** convert_schema *)

(** What reading a file opened with [open(name, "rt")] yields for its
    content: in text mode every line ending of the content, be it a line
    feed, a carriage return or a carriage return followed by a line feed,
    is read as one line feed.  [after_cr] tells that the character before
    was a carriage return. *)
Fixpoint universal_newlines (after_cr : bool) (content : string) : string :=
  match content with
  | EmptyString => EmptyString
  | String c content' =>
      if Ascii.eqb c Str.cr then String Str.nl (universal_newlines true content')
      else if Ascii.eqb c Str.nl then
        if after_cr then universal_newlines false content'
        else String Str.nl (universal_newlines false content')
      else String c (universal_newlines false content')
  end.

(** The lines that iterating over a file yields, for the text read from it
    (its line endings are line feeds by then): each ends with its newline,
    except possibly the last. *)
Fixpoint file_lines (cur : string) (text : string) : list string :=
  match text with
  | EmptyString => if cur =? "" then [] else [cur]
  | String c text' =>
      if Ascii.eqb c Str.nl then (cur ++ Str.chr c) :: file_lines "" text'
      else file_lines (cur ++ Str.chr c) text'
  end.

Import GraphQLSchemaParser.
Local Open Scope parser_scope.

(** the loop of [convert_schema] that feeds the parser, on a file whose
    content is [text] *)
Definition read_file (text : string) : M unit :=
  for_each (file_lines "" (universal_newlines false text)) (fun line =>
    for_each (list_ascii_of_string line) read_character ;;
    read_character Str.nl).

(** [convert_schema] on a file whose content is [text] *)
Definition convert_schema (text : string) : Res string :=
  (read_file text ;; to_markdown) init.

(** ** Notions the statements below are phrased with *)

(** feeding a sequence of characters to the parser *)
Definition run (l : list ascii) : M unit := for_each l read_character.

(** the parser a computation ends with, raised or not *)
Definition parser_of {A} (r : Res A) : t :=
  match r with
  | Ok _ p => p
  | Raise _ p => p
  end.

(** The characters [convert_schema] feeds for the text read from a file:
    every newline is followed by the injected one, and an unterminated last
    line gets one.  [pending] tells whether the current line already has a
    character. *)
Fixpoint fed (pending : bool) (text : string) : list ascii :=
  match text with
  | EmptyString => if pending then [Str.nl] else []
  | String c text' =>
      if Ascii.eqb c Str.nl then Str.nl :: Str.nl :: fed false text'
      else c :: fed true text'
  end.

(** [read_character c] on [p] gets as far as the state machine (line 92):
    [c] is a delimiter read outside comments and parentheses. *)
Definition dispatches (c : ascii) (p : t) : bool :=
  (Ascii.eqb c Str.nl || negb (comment p))
  && negb (0 <? bracket_level p)%Z
  && in_chars c delimiters
  && negb (long_comment p).

(** the state machine's current record, when it is being parsed *)
Definition partial_record (p : t) : option nat :=
  match state p with
  | St_none => None
  | _ => current_schema p
  end.

(** [c] is consumed on [p] as the closing delimiter of the current record:
    the delimiter that ends the name of a scalar, or the closing brace of a
    body. *)
Definition closes (c : ascii) (p : t) : bool :=
  dispatches c p &&
  match state p with
  | St_none => false
  | St_name => (current_type p =? "scalar") && in_chars c [" "; Str.nl; "{"]%char
  | St_fields => Ascii.eqb c "}"
  end.

(** the name the record closed by [c] is registered under *)
Definition closing_name (c : ascii) (p : t) : option string :=
  match state p, current_schema p with
  | St_name, _ => Some (current_token p)
  | St_fields, Some a => option_map GraphQLSchema.name (nth_error (heap p) a)
  | _, _ => None
  end.

(** the address [a] is the value of some registry entry *)
Definition registered (a : nat) (p : t) : Prop :=
  In a (Dict.values (schemas p)).

(** what a finalized record looks like *)
Definition well_kinded (obj : GraphQLSchema.t) : Prop :=
  (GraphQLSchema.type obj = "scalar" -> GraphQLSchema.fields obj = []) /\
  (GraphQLSchema.type obj = "enum" ->
   forall value s, In (value, s) (GraphQLSchema.fields obj) -> s = "").

(** The invariant of the parser states a run goes through. *)
Record Inv (p : t) : Prop := {
  inv_keys : NoDup (Dict.keys (schemas p));
  inv_values : NoDup (Dict.values (schemas p));
  inv_registry :
    forall k a, In (k, a) (schemas p) ->
      exists obj, nth_error (heap p) a = Some obj /\
                  GraphQLSchema.name obj = k /\ well_kinded obj;
  inv_state :
    match state p with
    | St_none => current_type p = ""
    | St_name =>
        In (current_type p) keywords /\
        exists a, current_schema p = Some a /\ ~ registered a p /\
          nth_error (heap p) a = Some (GraphQLSchema.init "" (current_type p))
    | St_fields =>
        In (current_type p) ["type"; "input"; "enum"] /\
        exists a obj, current_schema p = Some a /\ ~ registered a p /\
          nth_error (heap p) a = Some obj /\
          GraphQLSchema.type obj = current_type p /\
          (current_type p = "enum" ->
             field_state p = Fs_field /\
             forall value s, In (value, s) (GraphQLSchema.fields obj) -> s = "") /\
          (field_state p = Fs_dtype -> current_field p <> "")
    end
}.

(** what parsing leaves for the renderer: the registry with its records, and
    the scalar set; or the exception *)
Definition parsed (r : Res unit)
  : exn + (list (string * option GraphQLSchema.t) * list string) :=
  match r with
  | Ok _ p =>
      inr (map (fun '(k, a) => (k, nth_error (heap p) a)) (schemas p), scalars p)
  | Raise e _ => inl e
  end.

(** A document, as it is read from its file, with its line comments taken
    out: the characters from a [#] up to, and without, the end of the
    line. *)
Fixpoint strip_line_comments (in_comment : bool) (text : string) : string :=
  match text with
  | EmptyString => EmptyString
  | String c text' =>
      if Ascii.eqb c Str.nl then String c (strip_line_comments false text')
      else if in_comment || Ascii.eqb c "#" then strip_line_comments true text'
      else String c (strip_line_comments false text')
  end.

(** A document with its comments taken out, as the specification words it:
    a line comment runs from [#] to the end of the line, a block comment lies
    between two triple-quote sentinels.  [skip] counts the characters of a
    sentinel still to be passed over. *)
Inductive CommentMode : Type := Code | LineComment | BlockComment.

Fixpoint remove_comments (mode : CommentMode) (skip : nat) (text : string)
  : string :=
  match text with
  | EmptyString => EmptyString
  | String c text' =>
      match skip with
      | S k => remove_comments mode k text'
      | O =>
          match mode with
          | Code =>
              if prefix sentinel text then remove_comments BlockComment 2 text'
              else if Ascii.eqb c "#" then remove_comments LineComment 0 text'
              else String c (remove_comments Code 0 text')
          | LineComment =>
              if Ascii.eqb c Str.nl then String c (remove_comments Code 0 text')
              else remove_comments LineComment 0 text'
          | BlockComment =>
              if prefix sentinel text then remove_comments Code 2 text'
              else remove_comments BlockComment 0 text'
          end
      end
  end.

(** the state-machine part of [read_character] *)
Definition dispatch (c : ascii) : M unit :=
  fun p =>
    match state p with
    | St_none => dispatch_none c p
    | St_name => dispatch_name c p
    | St_fields => dispatch_fields c p
    end.

(** the fields of the parser that the state machine owns *)
Definition machine (p : t) :=
  (heap p, schemas p, scalars p, current_schema p, state p, current_type p,
   field_state p, current_field p).

(** the list and non-null markers of a type expression *)
Definition is_marker (c : ascii) : bool := in_chars c ["!"; "["; "]"]%char.

Fixpoint all_chars (f : ascii -> bool) (s : string) : bool :=
  match s with
  | EmptyString => true
  | String c s' => f c && all_chars f s'
  end.

(** a document that parses to a registry with an enum and a scalar *)
Definition colours_document : string :=
  "enum Color { RED GREEN BLUE }" ++ Str.chr Str.nl ++
  "scalar Foo" ++ Str.chr Str.nl ++
  "type Query { c: Color }" ++ Str.chr Str.nl.

(** a document that declares the name [A] twice *)
Definition duplicate_document : string :=
  "type A { x: Int }" ++ Str.chr Str.nl ++
  "type A { y: String ".

(** a document with both entry points, a declared scalar and a custom type *)
Definition entrypoints_document : string :=
  "scalar Foo" ++ Str.chr Str.nl ++
  "type Query { a: Foo }" ++ Str.chr Str.nl ++
  "type Mutation { b: [Foo!]! }" ++ Str.chr Str.nl ++
  "type T { c: Foo }" ++ Str.chr Str.nl.

(** a parser at the start of a line on which a further newline does nothing
    to the registry *)
Definition settled (p : t) : Prop :=
  comment p = false /\
  ((0 < bracket_level p)%Z \/ long_comment p = true \/
   (current_token p = "" /\ state p <> St_name)).

(** What the sentinel test of line 83 sees of the token buffer: nothing, one
    or two double quotes, or some other text. *)
Inductive Buffer : Type := Empty | OneQuote | TwoQuotes | Text.

Definition buffer_of (token : string) : Buffer :=
  if token =? "" then Empty
  else if token =? Str.chr Str.dquote then OneQuote
  else if token =? Str.chr Str.dquote ++ Str.chr Str.dquote then TwoQuotes
  else Text.

(** Where the text of a block comment leaves its reader: inside a line
    comment or not, what the token buffer holds, and the bracket level. *)
Definition CommentScan : Type := (bool * Buffer * Z)%type.

(** One character of the text of a block comment.  A newline ends a line
    comment and a [#] starts one; outside line comments a delimiter at a
    bracket level that is not positive empties the buffer, and any other
    character joins it, a parenthesis moving the bracket level.  [None]: the
    character is the third double quote of a sentinel, which would close the
    comment there. *)
Definition comment_char (c : ascii) (s : CommentScan) : option CommentScan :=
  let '(in_line_comment, buffer, level) := s in
  if negb (Ascii.eqb c Str.nl) && (in_line_comment || Ascii.eqb c "#")
  then Some (true, buffer, level)
  else if negb (0 <? level)%Z && in_chars c delimiters
  then Some (false, Empty, level)
  else if Ascii.eqb c Str.dquote then
    match buffer with
    | Empty => Some (false, OneQuote, level)
    | OneQuote => Some (false, TwoQuotes, level)
    | TwoQuotes => None
    | Text => Some (false, Text, level)
    end
  else if Ascii.eqb c "(" then Some (false, Text, (level + 1)%Z)
  else if Ascii.eqb c ")" then Some (false, Text, (level - 1)%Z)
  else Some (false, Text, level).

Fixpoint comment_scan (content : string) (s : CommentScan) : option CommentScan :=
  match content with
  | EmptyString => Some s
  | String c content' =>
      match comment_char c s with
      | Some s' => comment_scan content' s'
      | None => None
      end
  end.

(** the text of a block comment that the parser passes over: parentheses,
    double quotes and a line comment on its first line *)
Definition quoted_comment_text : string :=
  " see f(a: Int) # type X {" ++ Str.chr Str.nl ++
  "say " ++ Str.chr Str.dquote ++ "hi" ++ Str.chr Str.dquote ++ " ".

(** a block comment whose text touches the closing sentinel, and a
    declaration after it *)
Definition docstring_document : string :=
  sentinel ++ "doc" ++ sentinel ++ Str.chr Str.nl ++
  "scalar Foo" ++ Str.chr Str.nl.

(** comments whose text looks like declarations *)
Definition commented_document : string :=
  "scalar Foo # scalar Bar" ++ Str.chr Str.nl ++
  "# type Baz {".

(** a document whose only declaration is [Query] *)
Definition query_only_document : string :=
  "type Query { a: Int }" ++ Str.chr Str.nl.

(** a document with [Query] and a custom type, and no [Mutation] *)
Definition no_mutation_document : string :=
  "type Query { user: User }" ++ Str.chr Str.nl ++
  "type User { id: ID! }" ++ Str.chr Str.nl.

(** what [convert_schema] returns for [entrypoints_document], line by line *)
Definition entrypoints_markdown : string :=
  Str.join (Str.chr Str.nl)
    [ "# Entrypoint Data Types"; "";
      "## Query"; "";
      "Datatype class: *Type*"; "";
      "| Field | Description |";
      "| --- | --- |";
      "| **`a`:** [<ins>`Foo`</ins>](#foo) | - |"; "";
      "## Mutation"; "";
      "Datatype class: *Type*"; "";
      "| Field | Description |";
      "| --- | --- |";
      "| **`b`:** `[`[<ins>`Foo`</ins>](#foo)`!]!` | - |"; "";
      "# Custom Data Types"; "";
      "## Foo"; "";
      "Datatype class: *scalar*"; "";
      "## T"; "";
      "Datatype class: *Type*"; "";
      "| Field | Description |";
      "| --- | --- |";
      "| **`c`:** `Foo` | - |" ].

(** the Markdown of the record at address [a] of [heap], as
    [schema_to_markdown] computes it *)
Definition render_at (heap : list GraphQLSchema.t)
    (scalars : option (list string)) (a : nat) : exn + string :=
  match nth_error heap a with
  | Some obj => GraphQLSchema.to_markdown obj "##" scalars
  | None => inl (InvalidReference a)
  end.

(** ** Well-formed declarations *)

(** a character of an identifier or of a type expression: not a delimiter,
    and none of [#], the parentheses, the double quote and the carriage
    return (which a file read in text mode never yields) *)
Definition word_char (c : ascii) : bool :=
  negb (in_chars c delimiters) &&
  negb (in_chars c ["#"; "("; ")"; Str.dquote; Str.cr]%char).

Definition word (s : string) : bool := all_chars word_char s.

Definition name_word (s : string) : bool := nonempty s && word s.

(** a top-level declaration of the grammar the parser is written for *)
Inductive Declaration : Type :=
| ScalarDecl (name : string)
| EnumDecl (name : string) (values : list string)
| ObjectDecl (kind : string) (name : string) (fields : list (string * string)).

Definition well_formed (d : Declaration) : bool :=
  match d with
  | ScalarDecl n => word n
  | EnumDecl n values => word n && forallb name_word values
  | ObjectDecl kind n fields =>
      set_in kind ["type"; "input"] && word n &&
      forallb (fun ft => name_word (fst ft) && name_word (snd ft)) fields
  end.

Definition declared_name (d : Declaration) : string :=
  match d with
  | ScalarDecl n => n
  | EnumDecl n _ => n
  | ObjectDecl _ n _ => n
  end.

(** the source text of a declaration, on one line *)
Definition field_text (ft : string * string) : string :=
  fst ft ++ ": " ++ snd ft ++ " ".

Definition value_text (v : string) : string := v ++ " ".

Definition declaration_line (d : Declaration) : string :=
  match d with
  | ScalarDecl n => "scalar " ++ n
  | EnumDecl n values =>
      "enum " ++ n ++ " { " ++ String.concat "" (map value_text values) ++ "}"
  | ObjectDecl kind n fields =>
      kind ++ " " ++ n ++ " { " ++ String.concat "" (map field_text fields) ++ "}"
  end.

Definition declaration_text (d : Declaration) : string :=
  declaration_line d ++ Str.chr Str.nl.

Fixpoint document_text (ds : list Declaration) : string :=
  match ds with
  | [] => EmptyString
  | d :: ds' => declaration_text d ++ document_text ds'
  end.

(** the record a declaration stands for *)
Definition declared_record (d : Declaration) : GraphQLSchema.t :=
  match d with
  | ScalarDecl n => GraphQLSchema.mk n "scalar" []
  | EnumDecl n values =>
      fold_left (fun obj v => GraphQLSchema.add_field v "" obj) values
                (GraphQLSchema.mk n "enum" [])
  | ObjectDecl kind n fields =>
      fold_left (fun obj ft => GraphQLSchema.add_field (fst ft) (snd ft) obj) fields
                (GraphQLSchema.mk n kind [])
  end.

(** the registry a list of declarations stands for, the first of them being
    the object at address [a] *)
Fixpoint declared_registry (a : nat) (ds : list Declaration) (reg : Dict.t nat)
  : Dict.t nat :=
  match ds with
  | [] => reg
  | d :: ds' => declared_registry (S a) ds' (Dict.set (declared_name d) a reg)
  end.

Fixpoint declared_scalars (ds : list Declaration) (scalars : list string)
  : list string :=
  match ds with
  | [] => scalars
  | ScalarDecl n :: ds' => declared_scalars ds' (set_add n scalars)
  | _ :: ds' => declared_scalars ds' scalars
  end.

(** a text without carriage returns, which is read from a file as it is *)
Definition no_cr (s : string) : bool :=
  all_chars (fun c => negb (Ascii.eqb c Str.cr)) s.

(** where the parser is in the text of a block comment *)
Definition scan_of (p : t) : CommentScan :=
  (comment p, buffer_of (current_token p), bracket_level p).

(** a line of text: no newline in it *)
Definition no_newline (s : string) : bool :=
  all_chars (fun c => negb (Ascii.eqb c Str.nl)) s.

(** the parser between two declarations, outside comments and parentheses *)
Definition idle (p : t) : Prop :=
  state p = St_none /\ current_token p = "" /\ comment p = false /\
  long_comment p = false /\ (bracket_level p <= 0)%Z.

(** a schema with one declaration of each kind *)
Definition sample_declarations : list Declaration :=
  [ ScalarDecl "DateTime";
    ObjectDecl "type" "Query" [("user", "User"); ("at", "[DateTime!]!")];
    ObjectDecl "input" "Filter" [("name", "String")];
    EnumDecl "Color" ["RED"; "GREEN"; "BLUE"] ].

(** the scalar set covers the built-in scalars and the declared ones, and
    every record of the registry has one of the four kinds *)
Definition scalars_cover (p : t) : Prop :=
  (forall s, In s SCALARS -> set_in s (scalars p) = true) /\
  forall k a obj,
    In (k, a) (schemas p) -> nth_error (heap p) a = Some obj ->
    In (GraphQLSchema.type obj) keywords /\
    (GraphQLSchema.type obj = "scalar" -> set_in k (scalars p) = true).

(** the scalar set [GraphQLSchema.to_markdown] works with *)
Definition effective_scalars (scalars : option (list string)) : list string :=
  match scalars with
  | None => SCALARS
  | Some s => s
  end.

(** a record with a field whose type expression is only markers *)
Definition markers_only_record : GraphQLSchema.t :=
  GraphQLSchema.add_field "b" "[!]"
    (GraphQLSchema.add_field "a" "Int" (GraphQLSchema.init "T" "type")).

(** a type expression's markers around its cross-link: nothing when there are
    none, else the markers in a fixed-width span of their own *)
Definition marker_span (markers : string) : string :=
  if markers =? "" then "" else "`" ++ markers ++ "`".

(** the cross-link to the section of [ident] *)
Definition cross_link (ident : string) : string :=
  "[<ins>`" ++ ident ++ "`</ins>](#" ++ Str.lower ident ++ ")".

(** [c], read by the state machine on [p], fails one of the assertions on
    the delimiter (lines 93, 105, 135 and 139) *)
Definition rejected (c : ascii) (p : t) : bool :=
  match state p with
  | St_none => negb (in_chars c [" "; Str.nl]%char)
  | St_name => negb (in_chars c [" "; Str.nl; "{"]%char)
  | St_fields =>
      negb (Ascii.eqb c "}") && negb (Ascii.eqb c "=") &&
      nonempty (current_token p) &&
      (negb (in_chars c [" "; ":"; Str.nl; "="]%char) ||
       match field_state p with
       | Fs_field =>
           in_chars c [":"; " "; Str.nl]%char &&
           (current_type p =? "enum") &&
           negb (in_chars c [" "; Str.nl]%char)
       | Fs_dtype => false
       end)
  end.

(** the token of [p] is not a declaration keyword, where one is expected *)
Definition unknown_token (p : t) : bool :=
  match state p with
  | St_none => nonempty (current_token p) && negb (set_in (current_token p) keywords)
  | _ => false
  end.

(** a character of the text between two parentheses: anything but [#] and
    the parentheses themselves *)
Definition argument_char (c : ascii) : bool :=
  negb (in_chars c ["#"; "("; ")"]%char).

(** every field of the declaration has a type expression with a bare
    identifier *)
Definition renderable (d : Declaration) : bool :=
  match d with
  | ObjectDecl _ _ fields =>
      forallb (fun ft => nonempty (GraphQLSchema.strip_markers (snd ft))) fields
  | _ => true
  end.

(** a schema with both entry points *)
Definition complete_declarations : list Declaration :=
  [ ScalarDecl "DateTime";
    ObjectDecl "type" "Query" [("user", "User"); ("at", "[DateTime!]!")];
    ObjectDecl "type" "Mutation" [("rename", "User")];
    ObjectDecl "type" "User" [("id", "ID!"); ("name", "String")];
    EnumDecl "Color" ["RED"; "GREEN"; "BLUE"] ].

(** the table row of a field, given the Markdown of its type expression *)
Definition field_line (field_md : (string * string) * string) : string :=
  "| **`" ++ fst (fst field_md) ++ "`:** " ++ snd field_md ++ " | - |".

(** * Proofs *)

Arguments in_chars : simpl never.
Arguments set_in : simpl never.
Arguments String.eqb : simpl never.

Ltac unfold_m :=
  cbv beta iota delta [bind ret raise get modify lift assert pass
    the_current_schema mutate deref new_schema] in *.

Lemma run_cons c l p :
  run (c :: l) p =
  match read_character c p with
  | Ok _ p' => run l p'
  | Raise e p' => Raise e p'
  end.
Proof. reflexivity. Qed.

Lemma run_app l1 l2 p :
  run (l1 ++ l2) p =
  match run l1 p with
  | Ok _ p' => run l2 p'
  | Raise e p' => Raise e p'
  end.
Proof.
  revert p; induction l1 as [|c l1 IH]; intros p; [reflexivity|].
  rewrite <- app_comm_cons, !run_cons.
  destruct (read_character c p); [apply IH | reflexivity].
Qed.

Lemma read_character_dispatch c p :
  dispatches c p = true ->
  read_character c p =
  (dispatch c ;; modify (set_current_token "")) (set_comment false p).
Proof.
  unfold dispatches, read_character, dispatch. intros H.
  apply andb_prop in H as [H Hlong]. apply andb_prop in H as [H Hdel].
  apply andb_prop in H as [Hc Hbl].
  destruct p as [hp sc scal cs st ct fs tok cf cm lc bl]; simpl in *.
  apply negb_true_iff in Hlong, Hbl. subst lc.
  destruct (Ascii.eqb c Str.nl) eqn:Enl.
  - unfold_m; simpl. rewrite Hbl, Hdel. simpl. destruct st; reflexivity.
  - simpl in Hc. apply negb_true_iff in Hc. subst cm.
    destruct (Ascii.eqb c "#") eqn:Eh.
    + apply Ascii.eqb_eq in Eh. subst c. discriminate Hdel.
    + unfold_m; simpl. rewrite Hbl, Hdel. simpl. destruct st; reflexivity.
Qed.

Lemma read_character_skip c p :
  dispatches c p = false ->
  exists p', read_character c p = Ok tt p' /\ machine p' = machine p.
Proof.
  unfold dispatches, read_character. intros H.
  destruct p as [hp sc scal cs st ct fs tok cf cm lc bl]; simpl in *.
  unfold_m; simpl.
  destruct (Ascii.eqb c Str.nl) eqn:Enl; simpl in *.
  - destruct (0 <? bl)%Z; simpl in *.
    + destruct (Ascii.eqb c "("), (Ascii.eqb c ")"); simpl;
        match goal with |- context [if ?b then _ else _] => destruct b end;
        eexists; split; reflexivity.
    + destruct (in_chars c delimiters); simpl in *.
      * destruct lc; [|discriminate]. eexists; split; reflexivity.
      * destruct (Ascii.eqb c "("), (Ascii.eqb c ")"); simpl;
        match goal with |- context [if ?b then _ else _] => destruct b end;
        eexists; split; reflexivity.
  - destruct (Ascii.eqb c "#") eqn:Eh; simpl.
    + eexists; split; reflexivity.
    + destruct cm; simpl in *; [eexists; split; reflexivity|].
      destruct (0 <? bl)%Z; simpl in *.
      * destruct (Ascii.eqb c "("), (Ascii.eqb c ")"); simpl;
        match goal with |- context [if ?b then _ else _] => destruct b end;
        eexists; split; reflexivity.
      * destruct (in_chars c delimiters); simpl in *.
        -- destruct lc; [|discriminate]. eexists; split; reflexivity.
        -- destruct (Ascii.eqb c "("), (Ascii.eqb c ")"); simpl;
           match goal with |- context [if ?b then _ else _] => destruct b end;
           eexists; split; reflexivity.
Qed.

(** ** Lists used as a heap *)

Lemma nth_error_update_nth_eq {A} (f : A -> A) l a x :
  nth_error l a = Some x -> nth_error (update_nth a f l) a = Some (f x).
Proof.
  revert a; induction l as [|y l IH]; intros [|a] H; simpl in *;
    try discriminate; [congruence | auto].
Qed.

Lemma nth_error_update_nth_neq {A} (f : A -> A) l a b :
  a <> b -> nth_error (update_nth a f l) b = nth_error l b.
Proof.
  revert a b; induction l as [|y l IH]; intros [|a] [|b] H; simpl;
    try reflexivity; [congruence | apply IH; congruence].
Qed.

Lemma nth_error_app_old {A} (l l' : list A) a x :
  nth_error l a = Some x -> nth_error (l ++ l') a = Some x.
Proof.
  intros H. rewrite nth_error_app1; [assumption|].
  apply nth_error_Some. congruence.
Qed.

Lemma nth_error_app_new {A} (l : list A) x :
  nth_error (l ++ [x]) (List.length l) = Some x.
Proof.
  rewrite nth_error_app2, Nat.sub_diag by lia. reflexivity.
Qed.

(** ** Dictionaries *)

Section DictFacts.
Context {V : Type}.
Implicit Types (d : Dict.t V) (k : string) (v : V).

Lemma dict_in_set k v d k' v' :
  In (k', v') (Dict.set k v d) -> (k' = k /\ v' = v) \/ In (k', v') d.
Proof.
  induction d as [|[k0 v0] d IH]; simpl.
  - intros [H|[]]. left. inversion H; auto.
  - destruct (k0 =? k) eqn:E; simpl.
    + apply String.eqb_eq in E. subst k0.
      intros [H|H]; [left; inversion H; auto | right; right; exact H].
    + intros [H|H]; [right; left; exact H|].
      destruct (IH H) as [?|?]; [left | right; right]; assumption.
Qed.

Lemma dict_get_set_same k v d : Dict.get k (Dict.set k v d) = Some v.
Proof.
  induction d as [|[k0 v0] d IH]; simpl.
  - rewrite String.eqb_refl. reflexivity.
  - destruct (k0 =? k) eqn:E; simpl; rewrite E; [reflexivity | exact IH].
Qed.

Lemma dict_get_in k v d : Dict.get k d = Some v -> In (k, v) d.
Proof.
  induction d as [|[k0 v0] d IH]; simpl; [discriminate|].
  destruct (k0 =? k) eqn:E.
  - apply String.eqb_eq in E. intros H. left. congruence.
  - intros H. right. auto.
Qed.

Lemma dict_get_none_keys k d : Dict.get k d = None -> ~ In k (Dict.keys d).
Proof.
  induction d as [|[k0 v0] d IH]; simpl; [tauto|].
  destruct (k0 =? k) eqn:E; [discriminate|].
  apply String.eqb_neq in E. intros H [H'|H']; [congruence | exact (IH H H')].
Qed.

Lemma dict_keys_set k v d :
  Dict.keys (Dict.set k v d) =
  if Dict.mem k d then Dict.keys d else (Dict.keys d ++ [k])%list.
Proof.
  unfold Dict.mem.
  induction d as [|[k0 v0] d IH]; simpl; [reflexivity|].
  destruct (k0 =? k) eqn:E; simpl; [reflexivity|].
  rewrite IH. destruct (Dict.get k d); reflexivity.
Qed.

Lemma dict_keys_set_nodup k v d :
  NoDup (Dict.keys d) -> NoDup (Dict.keys (Dict.set k v d)).
Proof.
  intros H. rewrite dict_keys_set. unfold Dict.mem.
  destruct (Dict.get k d) eqn:E; [exact H|].
  apply dict_get_none_keys in E.
  apply NoDup_app; [exact H | repeat constructor; simpl; tauto |].
  intros x Hx [<-|[]]. exact (E Hx).
Qed.

Lemma dict_values_set_in k v d x :
  In x (Dict.values (Dict.set k v d)) -> x = v \/ In x (Dict.values d).
Proof.
  unfold Dict.values. intros H. apply in_map_iff in H as [[k' v'] [<- H]].
  apply dict_in_set in H as [[_ ->]|H]; [left; reflexivity|].
  right. apply in_map_iff. exists (k', v'). auto.
Qed.

Lemma dict_values_set_nodup k v d :
  NoDup (Dict.values d) -> ~ In v (Dict.values d) ->
  NoDup (Dict.values (Dict.set k v d)).
Proof.
  induction d as [|[k0 v0] d IH]; simpl; intros Hnd Hv.
  - repeat constructor. simpl. tauto.
  - inversion Hnd as [|? ? Hn0 Hnd']; subst.
    destruct (k0 =? k) eqn:E; simpl.
    + constructor; [tauto | assumption].
    + constructor.
      * intros Hin. apply dict_values_set_in in Hin as [->|Hin]; tauto.
      * apply IH; tauto.
Qed.

Lemma dict_count_set k v d :
  NoDup (Dict.keys d) -> Dict.count k (Dict.set k v d) = 1.
Proof.
  unfold Dict.count.
  induction d as [|[k0 v0] d IH]; simpl; intros Hnd.
  - rewrite String.eqb_refl. reflexivity.
  - inversion Hnd as [|? ? Hn0 Hnd']; subst.
    destruct (k0 =? k) eqn:E; simpl; rewrite E; simpl; [|auto].
    apply String.eqb_eq in E. subst k0. f_equal.
    clear IH Hnd Hnd'. induction d as [|[k1 v1] d IH]; simpl in *; [reflexivity|].
    destruct (k1 =? k) eqn:E1.
    + apply String.eqb_eq in E1. tauto.
    + apply IH. tauto.
Qed.

Lemma dict_get_remove k d : Dict.get k (Dict.remove k d) = None.
Proof.
  unfold Dict.remove.
  induction d as [|[k0 v0] d IH]; simpl; [reflexivity|].
  destruct (k0 =? k) eqn:E; simpl; [exact IH|]. rewrite E. exact IH.
Qed.

Lemma dict_in_values k v d : In (k, v) d -> In v (Dict.values d).
Proof. intros H. apply in_map_iff. exists (k, v). auto. Qed.

Lemma dict_in_keys k v d : In (k, v) d -> In k (Dict.keys d).
Proof. intros H. apply in_map_iff. exists (k, v). auto. Qed.
End DictFacts.

Lemma set_in_In x s : set_in x s = true <-> In x s.
Proof.
  unfold set_in. rewrite existsb_exists. split.
  - intros [y [Hy E]]. apply String.eqb_eq in E. congruence.
  - intros H. exists x. split; [exact H | apply String.eqb_refl].
Qed.

(** ** The invariant is kept by every step *)

Lemma Inv_machine p p' : machine p' = machine p -> Inv p -> Inv p'.
Proof.
  destruct p, p'; unfold machine; simpl; intros H; inversion H; subst.
  intros [Hk Hv Hr Hs]; constructor; simpl in *; assumption.
Qed.

Lemma Inv_init : Inv init.
Proof.
  constructor; simpl; try constructor; try reflexivity. intros k a [].
Qed.

Lemma registered_valid p a :
  Inv p -> registered a p -> exists obj, nth_error (heap p) a = Some obj.
Proof.
  intros HI H. apply in_map_iff in H as [[k b] [Hb H]]. simpl in Hb. subst b.
  destruct (inv_registry p HI k a H) as [obj [Ho _]]. eauto.
Qed.

Lemma Inv_dispatch_none c p p' :
  state p = St_none -> Inv p -> dispatch_none c p = Ok tt p' -> Inv p'.
Proof.
  intros Hst HI. unfold dispatch_none.
  destruct p as [hp sc scal cs st ct fs tok cf cm lc bl]; simpl in *. subst st.
  unfold_m; simpl.
  destruct (in_chars c [" "%char; Str.nl]); simpl; [|discriminate].
  destruct (tok =? "") eqn:Etok; simpl.
  - intros H; inversion H; subst. exact HI.
  - destruct (set_in tok keywords) eqn:Ekw; simpl; [|discriminate].
    intros H; inversion H; subst; clear H.
    destruct HI as [Hk Hv Hr Hs]; simpl in *.
    constructor; simpl; try assumption.
    + intros k a Hin. destruct (Hr k a Hin) as [obj [Ho Hw]].
      exists obj. split; [apply nth_error_app_old; exact Ho | exact Hw].
    + split; [exact (proj1 (set_in_In tok keywords) Ekw)|].
      exists (List.length hp). repeat split.
      * intros Hreg. apply in_map_iff in Hreg as [[k b] [Hb Hin]].
        simpl in Hb. subst b. destruct (Hr k _ Hin) as [obj [Ho _]].
        assert (List.length hp < List.length hp) by (apply nth_error_Some; congruence).
        lia.
      * apply nth_error_app_new.
Qed.

Lemma Inv_dispatch_name c p p' :
  state p = St_name -> Inv p -> dispatch_name c p = Ok tt p' -> Inv p'.
Proof.
  intros Hst HI. unfold dispatch_name.
  destruct p as [hp sc scal cs st ct fs tok cf cm lc bl]; simpl in *. subst st.
  destruct HI as [Hk Hv Hr Hs]; simpl in *.
  destruct Hs as [Hkw [a [Hcs [Hfresh Ha]]]]. subst cs.
  unfold_m; simpl.
  destruct (in_chars c [" "%char; Str.nl; "{"%char]); simpl; [|discriminate].
  rewrite Ha; simpl.
  destruct (ct =? "scalar") eqn:Ect; simpl.
  - rewrite (nth_error_update_nth_eq _ _ _ _ Ha); simpl.
    intros H; inversion H; subst; clear H.
    apply String.eqb_eq in Ect. subst ct.
    constructor; simpl.
    + apply dict_keys_set_nodup; exact Hk.
    + apply dict_values_set_nodup; assumption.
    + intros k b Hin. apply dict_in_set in Hin as [[-> ->]|Hin].
      * eexists. split; [apply nth_error_update_nth_eq; exact Ha|].
        split; [reflexivity|]. split; simpl; [reflexivity | discriminate].
      * destruct (Hr k b Hin) as [obj [Ho Hw]]. exists obj. split; [|exact Hw].
        rewrite nth_error_update_nth_neq; [exact Ho|].
        intros ->. apply Hfresh. eapply dict_in_values; exact Hin.
    + reflexivity.
  - intros H; inversion H; subst; clear H.
    apply String.eqb_neq in Ect.
    constructor; simpl; try assumption.
    + intros k b Hin. destruct (Hr k b Hin) as [obj [Ho Hw]]. exists obj.
      split; [|exact Hw]. rewrite nth_error_update_nth_neq; [exact Ho|].
      intros ->. apply Hfresh. eapply dict_in_values; exact Hin.
    + split.
      * simpl in Hkw. simpl. intuition congruence.
      * eexists a, _. split; [reflexivity|]. split; [exact Hfresh|].
        split; [apply nth_error_update_nth_eq; exact Ha|].
        simpl. split; [reflexivity|]. split; [|discriminate].
        intros _. split; [reflexivity | intros ? ? []].
Qed.

Lemma Inv_dispatch_fields c p p' :
  state p = St_fields -> Inv p -> dispatch_fields c p = Ok tt p' -> Inv p'.
Proof.
  intros Hst HI. unfold dispatch_fields.
  destruct p as [hp sc scal cs st ct fs tok cf cm lc bl]; simpl in *. subst st.
  destruct HI as [Hk Hv Hr Hs]; simpl in *.
  destruct Hs as [Hkw [a [obj [Hcs [Hfresh [Ha [Hty [Henum Hdt]]]]]]]]. subst cs.
  assert (Hold : forall f k b, In (k, b) sc ->
            exists o, nth_error (update_nth a f hp) b = Some o /\
                      GraphQLSchema.name o = k /\ well_kinded o).
  { intros f k b Hin. destruct (Hr k b Hin) as [o [Ho Hw]]. exists o.
    split; [|exact Hw]. rewrite nth_error_update_nth_neq; [exact Ho|].
    intros ->. apply Hfresh. eapply dict_in_values; exact Hin. }
  unfold_m; simpl.
  destruct (in_chars c [":"%char; "{"%char; "}"%char; Str.nl; " "%char; "="%char]);
    simpl; [|discriminate].
  destruct (nonempty ct); simpl; [|discriminate].
  destruct (Ascii.eqb c "}"); simpl.
  { rewrite Ha; simpl. intros H; injection H as <-.
    constructor; simpl.
    - apply dict_keys_set_nodup; exact Hk.
    - apply dict_values_set_nodup; assumption.
    - intros k b Hin. apply dict_in_set in Hin as [[-> ->]|Hin]; [|auto].
      exists obj. split; [exact Ha|]. split; [reflexivity|].
      split.
      + intros Hsc. rewrite <- Hty, Hsc in Hkw. simpl in Hkw.
        intuition discriminate.
      + intros Hen. apply Henum. congruence.
    - reflexivity. }
  destruct (Ascii.eqb c "="); simpl.
  { intros H; injection H as <-.
    constructor; simpl; try assumption.
    split; [exact Hkw|]. exists a, obj. auto 10. }
  destruct (tok =? "") eqn:Etok; simpl.
  { intros H; injection H as <-.
    constructor; simpl; try assumption.
    split; [exact Hkw|]. exists a, obj. auto 10. }
  apply String.eqb_neq in Etok.
  destruct (in_chars c [" "%char; ":"%char; Str.nl; "="%char]); simpl; [|discriminate].
  destruct fs; simpl.
  - destruct (in_chars c [":"%char; " "%char; Str.nl]); simpl.
    + destruct (ct =? "enum") eqn:Een; simpl.
      * destruct (in_chars c [" "%char; Str.nl]); simpl; [|discriminate].
        rewrite Ha; simpl. intros H; injection H as <-.
        apply String.eqb_eq in Een.
        constructor; simpl; try assumption; [apply Hold|].
        split; [exact Hkw|]. eexists a, _. split; [reflexivity|].
        split; [exact Hfresh|].
        split; [apply nth_error_update_nth_eq; exact Ha|].
        split; [exact Hty|]. split; [|discriminate].
        intros _. split; [reflexivity|].
        simpl. intros value s Hin. apply dict_in_set in Hin as [[_ ->]|Hin];
          [reflexivity|]. destruct (Henum Een) as [_ Hall]. eapply Hall; exact Hin.
      * destruct (in_chars c [" "%char; ":"%char; Str.nl]); simpl; [|discriminate].
        intros H; injection H as <-.
        apply String.eqb_neq in Een.
        constructor; simpl; try assumption.
        split; [exact Hkw|]. exists a, obj. repeat split; try assumption;
          try (intros; contradiction). intros _; exact Etok.
    + intros H; injection H as <-.
      constructor; simpl; try assumption.
      split; [exact Hkw|]. exists a, obj. auto 10.
  - assert (Hne : ct <> "enum").
    { intros He. destruct (Henum He) as [Hf _]. discriminate Hf. }
    destruct (in_chars c [Str.nl; " "%char]); simpl.
    + destruct (nonempty cf); simpl; [|discriminate].
      rewrite Ha; simpl. intros H; injection H as <-.
      constructor; simpl; try assumption; [apply Hold|].
      split; [exact Hkw|]. eexists a, _. split; [reflexivity|].
      split; [exact Hfresh|].
      split; [apply nth_error_update_nth_eq; exact Ha|].
      split; [exact Hty|]. split; [intros; contradiction | discriminate].
    + intros H; injection H as <-.
      constructor; simpl; try assumption.
      split; [exact Hkw|]. exists a, obj. auto 10.
Qed.

Lemma Inv_dispatch c p p' : Inv p -> dispatch c p = Ok tt p' -> Inv p'.
Proof.
  unfold dispatch. intros HI. destruct (state p) eqn:Hst.
  - apply Inv_dispatch_none; assumption.
  - apply Inv_dispatch_name; assumption.
  - apply Inv_dispatch_fields; assumption.
Qed.

Lemma Inv_step c p p' : Inv p -> read_character c p = Ok tt p' -> Inv p'.
Proof.
  intros HI. destruct (dispatches c p) eqn:Hd.
  - rewrite (read_character_dispatch _ _ Hd). unfold bind, modify.
    destruct (dispatch c (set_comment false p)) as [[] q|e q] eqn:E; [|discriminate].
    intros H; injection H as <-.
    apply (Inv_machine q); [destruct q; reflexivity|].
    eapply Inv_dispatch; [|exact E].
    apply (Inv_machine p); [destruct p; reflexivity | exact HI].
  - destruct (read_character_skip _ _ Hd) as [q [-> Hm]].
    intros H; inversion H; subst. eapply Inv_machine; eassumption.
Qed.

Lemma Inv_run l p p' : Inv p -> run l p = Ok tt p' -> Inv p'.
Proof.
  revert p; induction l as [|c l IH]; intros p HI.
  - intros H; inversion H; subst. exact HI.
  - rewrite run_cons. destruct (read_character c p) as [[] q|e q] eqn:E; [|discriminate].
    apply IH. eapply Inv_step; eassumption.
Qed.

(** ** What one step does to the registry *)

Ltac case_ifs :=
  repeat (match goal with
          | |- context [if ?b then _ else _] => destruct b eqn:?
          end; simpl).

Lemma step_closing c p :
  Inv p -> closes c p = true ->
  exists a n p',
    current_schema p = Some a /\ ~ registered a p /\
    closing_name c p = Some n /\
    read_character c p = Ok tt p' /\
    schemas p' = Dict.set n a (schemas p) /\
    (exists obj, nth_error (heap p') a = Some obj /\ GraphQLSchema.name obj = n) /\
    (forall b, b <> a -> nth_error (heap p') b = nth_error (heap p) b).
Proof.
  intros HI Hc. unfold closes in Hc. apply andb_prop in Hc as [Hd Hc].
  rewrite (read_character_dispatch _ _ Hd). clear Hd.
  unfold closing_name, dispatch.
  destruct p as [hp sc scal cs st ct fs tok cf cm lc bl]; simpl in *.
  destruct HI as [Hk Hv Hr Hs]; simpl in *.
  destruct st; [discriminate| |].
  - apply andb_prop in Hc as [Hct Hin].
    destruct Hs as [Hkw [a [Hcs [Hfresh Ha]]]]. subst cs.
    exists a, tok. unfold dispatch_name. unfold_m; simpl.
    rewrite Hin; simpl. rewrite Ha; simpl. rewrite Hct; simpl.
    rewrite (nth_error_update_nth_eq _ _ _ _ Ha); simpl.
    eexists. repeat split; try reflexivity; try assumption.
    + simpl. eexists. split; [apply nth_error_update_nth_eq; exact Ha | reflexivity].
    + simpl. intros b Hb. apply nth_error_update_nth_neq. congruence.
  - destruct Hs as [Hkw [a [obj [Hcs [Hfresh [Ha [Hty [Henum Hdt]]]]]]]]. subst cs.
    apply Ascii.eqb_eq in Hc. subst c.
    exists a, (GraphQLSchema.name obj). unfold dispatch_fields. unfold_m; simpl.
    assert (Hne : nonempty ct = true).
    { unfold nonempty. apply negb_true_iff, String.eqb_neq. intros ->.
      simpl in Hkw. intuition discriminate. }
    rewrite Hne; simpl. eexists. rewrite !Ha; simpl.
    repeat split; try reflexivity; try assumption.
    simpl. eauto.
Qed.

Lemma step_not_closing c p :
  Inv p -> closes c p = false ->
  schemas (parser_of (read_character c p)) = schemas p.
Proof.
  intros HI Hc. unfold closes in Hc.
  destruct (dispatches c p) eqn:Hd.
  2:{ destruct (read_character_skip _ _ Hd) as [q [-> Hm]]. simpl.
      unfold machine in Hm. congruence. }
  rewrite (read_character_dispatch _ _ Hd). clear Hd. simpl in Hc.
  unfold dispatch.
  destruct p as [hp sc scal cs st ct fs tok cf cm lc bl]; simpl in *.
  destruct HI as [Hk Hv Hr Hs]; simpl in *.
  destruct st.
  - unfold dispatch_none. unfold_m; simpl. case_ifs; reflexivity.
  - destruct Hs as [Hkw [a [Hcs [Hfresh Ha]]]]. subst cs.
    unfold dispatch_name. unfold_m; simpl.
    destruct (in_chars c [" "%char; Str.nl; "{"%char]); simpl; [|reflexivity].
    rewrite Ha; simpl. rewrite andb_true_r in Hc. rewrite Hc; simpl. reflexivity.
  - destruct Hs as [Hkw [a [obj [Hcs [Hfresh [Ha [Hty [Henum Hdt]]]]]]]]. subst cs.
    unfold dispatch_fields. unfold_m; simpl. rewrite Hc; simpl.
    destruct fs; case_ifs; rewrite ?Ha; simpl; reflexivity.
Qed.

Lemma step_heap_frame c p b :
  Inv p -> registered b p ->
  nth_error (heap (parser_of (read_character c p))) b = nth_error (heap p) b.
Proof.
  intros HI Hb.
  destruct (dispatches c p) eqn:Hd.
  2:{ destruct (read_character_skip _ _ Hd) as [q [-> Hm]]. simpl.
      unfold machine in Hm. congruence. }
  destruct (registered_valid _ _ HI Hb) as [o Ho].
  rewrite (read_character_dispatch _ _ Hd). clear Hd.
  unfold dispatch.
  destruct p as [hp sc scal cs st ct fs tok cf cm lc bl]; simpl in *.
  destruct HI as [Hk Hv Hr Hs]; simpl in *.
  destruct st.
  - unfold dispatch_none. unfold_m; simpl. case_ifs; try reflexivity.
    rewrite Ho. apply nth_error_app_old. exact Ho.
  - destruct Hs as [Hkw [a [Hcs [Hfresh Ha]]]]. subst cs.
    assert (Hab : a <> b) by (intros ->; exact (Hfresh Hb)).
    unfold dispatch_name. unfold_m; simpl.
    destruct (in_chars c [" "%char; Str.nl; "{"%char]); simpl; [|reflexivity].
    rewrite Ha; simpl.
    destruct (ct =? "scalar"); simpl;
      rewrite ?(nth_error_update_nth_eq _ _ _ _ Ha); simpl;
      apply nth_error_update_nth_neq; exact Hab.
  - destruct Hs as [Hkw [a [obj [Hcs [Hfresh [Ha [Hty [Henum Hdt]]]]]]]]. subst cs.
    assert (Hab : a <> b) by (intros ->; exact (Hfresh Hb)).
    unfold dispatch_fields. unfold_m; simpl.
    destruct fs; case_ifs; rewrite ?Ha; simpl; try reflexivity;
      apply nth_error_update_nth_neq; exact Hab.
Qed.

(** ** Claims about the parser *)

Lemma dict_values_set_replaced {V} k (v v0 : V) d :
  NoDup (Dict.keys d) -> NoDup (Dict.values d) ->
  Dict.get k d = Some v0 -> v <> v0 ->
  ~ In v0 (Dict.values (Dict.set k v d)).
Proof.
  induction d as [|[k1 v1] d IH]; simpl; [discriminate|].
  intros Hk Hv Hg Hne.
  inversion Hk as [|? ? Hk1 Hk']; inversion Hv as [|? ? Hv1 Hv']; subst.
  destruct (k1 =? k) eqn:E; simpl.
  - injection Hg as ->. intros [H|H]; [congruence | exact (Hv1 H)].
  - intros [H|H].
    + subst v1. apply Hv1. eapply dict_in_values, dict_get_in; exact Hg.
    + exact (IH Hk' Hv' Hg Hne H).
Qed.

(** C7: in the registry a run leaves, a scalar record has no fields and
    every value of an enum record is associated with the empty string. *)
Theorem registry_records_well_kinded (l : list ascii) (p : t) :
  run l init = Ok tt p ->
  forall k a, In (k, a) (schemas p) ->
    exists obj,
      nth_error (heap p) a = Some obj /\
      (GraphQLSchema.type obj = "scalar" -> GraphQLSchema.fields obj = []) /\
      (GraphQLSchema.type obj = "enum" ->
       forall value s, In (value, s) (GraphQLSchema.fields obj) -> s = "").
Proof.
  intros Hrun k a Hin.
  pose proof (Inv_run _ _ _ Inv_init Hrun) as HI.
  destruct (inv_registry p HI k a Hin) as [obj [Ho [_ [Hs He]]]].
  exists obj. auto.
Qed.

Lemma registry_records_well_kinded_witness :
  exists obj,
    nth_error (heap (parser_of (read_file colours_document init))) 0 = Some obj /\
    (GraphQLSchema.type obj = "scalar" -> GraphQLSchema.fields obj = []) /\
    (GraphQLSchema.type obj = "enum" ->
     forall value s, In (value, s) (GraphQLSchema.fields obj) -> s = "").
Proof.
  apply (registry_records_well_kinded
           (fed false colours_document)
           (parser_of (read_file colours_document init))
           ltac:(vm_compute; reflexivity) "Color" 0).
  vm_compute. left. reflexivity.
Defined.

(** [convert_schema] feeds the parser the characters [fed] lists. *)
Lemma for_each_app {A} (l1 l2 : list A) (body : A -> M unit) p :
  for_each (l1 ++ l2) body p =
  match for_each l1 body p with
  | Ok _ p' => for_each l2 body p'
  | Raise e p' => Raise e p'
  end.
Proof.
  revert p; induction l1 as [|a l1 IH]; intros p; [reflexivity|].
  simpl. unfold bind. destruct (body a p); [apply IH | reflexivity].
Qed.

Lemma list_ascii_of_string_app s1 s2 :
  list_ascii_of_string (s1 ++ s2) =
  (list_ascii_of_string s1 ++ list_ascii_of_string s2)%list.
Proof. induction s1 as [|c s1 IH]; simpl; [reflexivity | rewrite IH; reflexivity]. Qed.

Lemma append_empty_r s : s ++ "" = s.
Proof. induction s as [|c s IH]; simpl; [reflexivity | rewrite IH; reflexivity]. Qed.

Lemma file_lines_fed text cur p :
  for_each (file_lines cur text)
    (fun line => for_each (list_ascii_of_string line) read_character ;;
                 read_character Str.nl) p =
  run (list_ascii_of_string cur ++ fed (nonempty cur) text) p.
Proof.
  revert cur p; induction text as [|c text IH]; intros cur p; simpl.
  - unfold nonempty. destruct (cur =? "") eqn:E; simpl.
    + apply String.eqb_eq in E. subst cur. reflexivity.
    + rewrite run_app. unfold bind, run.
      destruct (for_each (list_ascii_of_string cur) read_character p) as [[] q|e q];
        [|reflexivity].
      simpl. unfold bind, ret. destruct (read_character Str.nl q) as [[] r|e r]; reflexivity.
  - destruct (Ascii.eqb c Str.nl) eqn:E; simpl.
    + apply Ascii.eqb_eq in E. subst c. unfold bind.
      rewrite list_ascii_of_string_app, for_each_app, run_app.
      unfold run.
      destruct (for_each (list_ascii_of_string cur) read_character p) as [[] q|e q];
        [|reflexivity].
      simpl. unfold bind, ret.
      destruct (read_character Str.nl q) as [[] r|e r]; [|reflexivity].
      destruct (read_character Str.nl r) as [[] r'|e r']; [|reflexivity].
      apply (IH "" r').
    + rewrite IH, list_ascii_of_string_app. simpl.
      rewrite <- app_assoc. simpl.
      replace (nonempty (cur ++ Str.chr c)) with true; [reflexivity|].
      unfold nonempty. destruct cur; reflexivity.
Qed.

Lemma read_file_fed text p :
  read_file text p = run (fed false (universal_newlines false text)) p.
Proof. unfold read_file. rewrite file_lines_fed. reflexivity. Qed.

Lemma universal_newlines_no_cr text :
  no_cr text = true -> universal_newlines false text = text.
Proof.
  unfold no_cr. induction text as [|c text IH]; simpl; [reflexivity|].
  intros H. apply andb_prop in H as [Hc H]. apply negb_true_iff in Hc.
  rewrite Hc. destruct (Ascii.eqb_spec c Str.nl) as [->|_]; rewrite (IH H); reflexivity.
Qed.

Lemma no_cr_universal_newlines text :
  forall after_cr, no_cr (universal_newlines after_cr text) = true.
Proof.
  unfold no_cr. induction text as [|c text IH]; intros after_cr; simpl; [reflexivity|].
  destruct (Ascii.eqb c Str.cr) eqn:Ec; simpl; [apply IH|].
  destruct (Ascii.eqb c Str.nl) eqn:En.
  - destruct after_cr; simpl; apply IH.
  - simpl. rewrite Ec. apply IH.
Qed.

Lemma no_cr_strip_line_comments text :
  forall in_comment,
    no_cr text = true -> no_cr (strip_line_comments in_comment text) = true.
Proof.
  unfold no_cr. induction text as [|c text IH]; intros in_comment; simpl; [reflexivity|].
  intros H. apply andb_prop in H as [Hc H].
  destruct (Ascii.eqb c Str.nl); simpl; [rewrite Hc; apply IH, H|].
  destruct (in_comment || Ascii.eqb c "#"); simpl; [apply IH, H|].
  rewrite Hc. apply IH, H.
Qed.

(** C6: the registry holds finalized records only.  While a record is being
    parsed it is not in the registry; a step changes the registry exactly when
    it consumes the closing delimiter of the current record, and then it
    enters that record under its name; and no step writes to a record that is
    in the registry. *)
Theorem registry_holds_finalized_records_only (l : list ascii) (p : t) :
  run l init = Ok tt p ->
  (forall a, partial_record p = Some a -> ~ registered a p) /\
  (state p <> St_none -> exists a, partial_record p = Some a) /\
  forall c,
    (closes c p = true ->
     exists a n p',
       current_schema p = Some a /\ closing_name c p = Some n /\
       read_character c p = Ok tt p' /\
       schemas p' = Dict.set n a (schemas p) /\
       (exists obj, nth_error (heap p') a = Some obj /\ GraphQLSchema.name obj = n)) /\
    (closes c p = false ->
     schemas (parser_of (read_character c p)) = schemas p) /\
    (forall b, registered b p ->
       nth_error (heap (parser_of (read_character c p))) b = nth_error (heap p) b).
Proof.
  intros Hrun. pose proof (Inv_run _ _ _ Inv_init Hrun) as HI.
  repeat split.
  - intros a Ha. unfold partial_record in Ha.
    pose proof (inv_state p HI) as Hs.
    destruct (state p); [discriminate| |].
    + destruct Hs as [_ [a' [Hcs [Hf _]]]]. congruence.
    + destruct Hs as [_ [a' [obj [Hcs [Hf _]]]]]. congruence.
  - intros Hne. unfold partial_record.
    pose proof (inv_state p HI) as Hs.
    destruct (state p); [congruence| |].
    + destruct Hs as [_ [a' [Hcs _]]]. eauto.
    + destruct Hs as [_ [a' [obj [Hcs _]]]]. eauto.
  - intros Hc.
    destruct (step_closing c p HI Hc) as [a [n [p' [H1 [H2 [H3 [H4 [H5 [H6 H7]]]]]]]]].
    exists a, n, p'. auto.
  - apply step_not_closing. exact HI.
  - intros b Hb. apply step_heap_frame; assumption.
Qed.

(** C8: in state [none], a token that is neither empty nor a declaration
    keyword, dispatched at a space or a newline, raises the unexpected-token
    error; nothing is registered, and the run ends with that error whatever
    characters follow. *)
Theorem unexpected_token_aborts (c : ascii) (p : t) (l : list ascii) :
  state p = St_none ->
  dispatches c p = true ->
  in_chars c [" "; Str.nl]%char = true ->
  current_token p <> "" ->
  ~ In (current_token p) keywords ->
  exists p',
    read_character c p = Raise (UnexpectedToken (current_token p)) p' /\
    schemas p' = schemas p /\ heap p' = heap p /\ scalars p' = scalars p /\
    run (c :: l) p = Raise (UnexpectedToken (current_token p)) p'.
Proof.
  intros Hst Hd Hin Htok Hkw.
  assert (H : read_character c p =
              Raise (UnexpectedToken (current_token p)) (set_comment false p)).
  { rewrite (read_character_dispatch _ _ Hd). unfold dispatch.
    destruct p as [hp sc scal cs st ct fs tok cf cm lc bl]; simpl in *. subst st.
    unfold dispatch_none. unfold_m; simpl. rewrite Hin; simpl.
    apply String.eqb_neq in Htok. rewrite Htok.
    destruct (set_in tok keywords) eqn:E; [|reflexivity].
    exfalso. apply Hkw. exact (proj1 (set_in_In tok keywords) E). }
  exists (set_comment false p). rewrite run_cons, H.
  destruct p; repeat split; reflexivity.
Qed.

Lemma unexpected_token_aborts_witness :
  exists p',
    read_character " " (set_current_token "interface" init) =
      Raise (UnexpectedToken "interface") p' /\
    schemas p' = [] /\ heap p' = [] /\ scalars p' = SCALARS /\
    run [" "; "X"; Str.nl]%char (set_current_token "interface" init) =
      Raise (UnexpectedToken "interface") p'.
Proof.
  apply (unexpected_token_aborts " " (set_current_token "interface" init)
           ["X"; Str.nl]%char);
    try reflexivity; try discriminate.
  simpl. intuition discriminate.
Defined.

Lemma registry_holds_finalized_records_only_witness :
  partial_record (parser_of (read_file duplicate_document init)) = Some 1 /\
  ~ registered 1 (parser_of (read_file duplicate_document init)).
Proof.
  split; [reflexivity|].
  destruct (registry_holds_finalized_records_only
              (fed false duplicate_document)
              (parser_of (read_file duplicate_document init))
              ltac:(vm_compute; reflexivity)) as [H _].
  apply H. reflexivity.
Defined.

(** C10: when the declaration being closed has the name of a record already
    in the registry, the step raises nothing; afterwards the registry has
    exactly one entry under that name, holding the later record at the
    position of the earlier one, and the earlier record is in the registry
    no more. *)
Theorem duplicate_declaration_replaces (l : list ascii) (p : t) (c : ascii)
    (n : string) (earlier : nat) :
  run l init = Ok tt p ->
  closes c p = true ->
  closing_name c p = Some n ->
  Dict.get n (schemas p) = Some earlier ->
  exists later p',
    read_character c p = Ok tt p' /\
    current_schema p = Some later /\ later <> earlier /\
    Dict.get n (schemas p') = Some later /\
    Dict.count n (schemas p') = 1 /\
    Dict.keys (schemas p') = Dict.keys (schemas p) /\
    ~ registered earlier p' /\
    (exists obj, nth_error (heap p') later = Some obj /\ GraphQLSchema.name obj = n).
Proof.
  intros Hrun Hc Hn Hget. pose proof (Inv_run _ _ _ Inv_init Hrun) as HI.
  destruct (step_closing c p HI Hc) as [a [n' [p' [H1 [H2 [H3 [H4 [H5 [H6 H7]]]]]]]]].
  assert (n' = n) by congruence. subst n'.
  assert (Hne : a <> earlier).
  { intros ->. apply H2. eapply dict_in_values, dict_get_in; exact Hget. }
  exists a, p'. repeat split; try assumption.
  - rewrite H5. apply dict_get_set_same.
  - rewrite H5. apply dict_count_set. exact (inv_keys p HI).
  - rewrite H5, dict_keys_set. unfold Dict.mem. rewrite Hget. reflexivity.
  - unfold registered. rewrite H5.
    apply dict_values_set_replaced;
      [exact (inv_keys p HI) | exact (inv_values p HI) | exact Hget | exact Hne].
Qed.

Lemma duplicate_declaration_replaces_witness :
  exists later p',
    read_character "}" (parser_of (read_file duplicate_document init)) = Ok tt p' /\
    current_schema (parser_of (read_file duplicate_document init)) = Some later /\
    later <> 0 /\
    Dict.get "A" (schemas p') = Some later /\
    Dict.count "A" (schemas p') = 1 /\
    Dict.keys (schemas p') =
      Dict.keys (schemas (parser_of (read_file duplicate_document init))) /\
    ~ registered 0 p' /\
    (exists obj, nth_error (heap p') later = Some obj /\ GraphQLSchema.name obj = "A").
Proof.
  apply (duplicate_declaration_replaces
           (fed false duplicate_document)
           (parser_of (read_file duplicate_document init)) "}" "A" 0);
    vm_compute; reflexivity.
Defined.

(** ** Claims about the renderer *)

Lemma strip_markers_cons c s :
  GraphQLSchema.strip_markers (String c s) =
  if is_marker c then GraphQLSchema.strip_markers s
  else String c (GraphQLSchema.strip_markers s).
Proof.
  unfold GraphQLSchema.strip_markers, is_marker, in_chars. simpl.
  destruct (Ascii.eqb c "!") eqn:E1; simpl; [reflexivity|].
  destruct (Ascii.eqb c "[") eqn:E2; simpl; [reflexivity|].
  destruct (Ascii.eqb c "]") eqn:E3; simpl; reflexivity.
Qed.

Lemma strip_markers_markers s t :
  all_chars is_marker s = true ->
  GraphQLSchema.strip_markers (s ++ t) = GraphQLSchema.strip_markers t.
Proof.
  induction s as [|c s IH]; simpl; [reflexivity|].
  intros H. apply andb_prop in H as [Hc Hs].
  rewrite strip_markers_cons, Hc. auto.
Qed.

Lemma strip_markers_bare s t :
  all_chars (fun c => negb (is_marker c)) s = true ->
  GraphQLSchema.strip_markers (s ++ t) = s ++ GraphQLSchema.strip_markers t.
Proof.
  induction s as [|c s IH]; simpl; [reflexivity|].
  intros H. apply andb_prop in H as [Hc Hs]. apply negb_true_iff in Hc.
  rewrite strip_markers_cons, Hc. f_equal. auto.
Qed.

(** C9: for a bare identifier free of [!], [[] and []], wrapped on either
    side in any of those markers, [get_type_id] gives back the identifier. *)
Theorem get_type_id_roundtrip (self : GraphQLSchema.t)
    (field opening ident closing : string) :
  all_chars (fun c => negb (is_marker c)) ident = true ->
  all_chars is_marker opening = true ->
  all_chars is_marker closing = true ->
  Dict.get field (GraphQLSchema.fields self) = Some (opening ++ ident ++ closing) ->
  GraphQLSchema.get_type_id self field = inr ident.
Proof.
  intros Hid Hop Hcl Hget. unfold GraphQLSchema.get_type_id. rewrite Hget.
  f_equal. rewrite (strip_markers_markers _ _ Hop), (strip_markers_bare _ _ Hid).
  rewrite <- (append_empty_r closing), (strip_markers_markers _ _ Hcl).
  apply append_empty_r.
Qed.

Lemma get_type_id_roundtrip_witness :
  GraphQLSchema.get_type_id
    (GraphQLSchema.add_field "tags" "[[Tag!]!]!" (GraphQLSchema.init "Post" "type"))
    "tags" = inr "Tag".
Proof.
  apply (get_type_id_roundtrip _ "tags" "[[" "Tag" "!]!]!"); reflexivity.
Defined.

Lemma dict_get_remove_other {V} k k' (d : Dict.t V) :
  Dict.get k (Dict.remove k' d) = if k' =? k then None else Dict.get k d.
Proof.
  unfold Dict.remove.
  induction d as [|[k0 v0] d IH]; simpl; [destruct (k' =? k); reflexivity|].
  destruct (k0 =? k') eqn:E; simpl.
  - apply String.eqb_eq in E. subst k0. rewrite IH.
    destruct (k' =? k); reflexivity.
  - rewrite IH. destruct (k' =? k) eqn:E'; [|reflexivity].
    apply String.eqb_eq in E'. subst k'. rewrite E. reflexivity.
Qed.

Lemma schema_to_markdown_state s a p :
  parser_of (schema_to_markdown s a p) = p.
Proof.
  unfold schema_to_markdown. unfold_m.
  destruct (nth_error (heap p) a); [|reflexivity].
  destruct (GraphQLSchema.to_markdown _ _ _); reflexivity.
Qed.

Lemma map_m_state {A B} (f : A -> M B) l p :
  (forall a q, parser_of (f a q) = q) -> parser_of (map_m f l p) = p.
Proof.
  intros Hf. induction l as [|a l IH]; simpl; [reflexivity|].
  unfold bind, ret. specialize (Hf a p).
  destruct (f a p) as [b q|e q]; simpl in Hf; subst q; [|reflexivity].
  destruct (map_m f l p) as [bs q|e q]; simpl in *; exact IH.
Qed.

(** C2, as the code has it: an assembly that succeeds has taken the [Query]
    and [Mutation] records out of the registry, so the next assembly on the
    same registry fails on the lookup of [Query]. *)
Theorem to_markdown_consumes_registry (p p1 : t) (md : string) :
  to_markdown p = Ok md p1 ->
  schemas p1 = Dict.remove "Mutation" (Dict.remove "Query" (schemas p)) /\
  Dict.mem "Query" (schemas p1) = false /\
  Dict.mem "Mutation" (schemas p1) = false /\
  to_markdown p1 = Raise (KeyError "Query") p1.
Proof.
  unfold to_markdown, pop. unfold_m. intros H.
  destruct (Dict.get "Query" (schemas p)) as [q|] eqn:Eq; [|discriminate].
  pose proof (schema_to_markdown_state None q
                (set_schemas (Dict.remove "Query" (schemas p)) p)) as Hq.
  destruct (schema_to_markdown None q _) as [qmd pq|e pq]; [|discriminate].
  simpl in Hq. subst pq. simpl in H.
  destruct (Dict.get "Mutation" (Dict.remove "Query" (schemas p))) as [m|] eqn:Em;
    [|discriminate].
  match type of H with
  | context [schema_to_markdown None m ?s] =>
      pose proof (schema_to_markdown_state None m s) as Hm;
      destruct (schema_to_markdown None m s) as [mmd pm|e pm]; [|discriminate]
  end.
  simpl in Hm. subst pm.
  match type of H with
  | context [map_m ?f ?l ?s] =>
      pose proof (map_m_state f l s (schema_to_markdown_state _)) as Hr;
      destruct (map_m f l s) as [rest pr|e pr]; [|discriminate]
  end.
  simpl in Hr. subst pr. injection H as _ <-.
  destruct p as [hp sc scal cs st ct fs tok cf cm lc bl]; simpl in *.
  assert (HQ : Dict.get "Query" (Dict.remove "Mutation" (Dict.remove "Query" sc)) = None).
  { rewrite dict_get_remove_other. simpl. apply dict_get_remove. }
  unfold Dict.mem. rewrite HQ, dict_get_remove.
  repeat split; reflexivity.
Qed.

Lemma to_markdown_consumes_registry_witness :
  exists p1,
    schemas p1 = [("Foo", 0); ("T", 3)] /\
    Dict.mem "Query" (schemas p1) = false /\
    Dict.mem "Mutation" (schemas p1) = false /\
    to_markdown p1 = Raise (KeyError "Query") p1.
Proof.
  exists (parser_of (to_markdown (parser_of (read_file entrypoints_document init)))).
  apply (to_markdown_consumes_registry
           (parser_of (read_file entrypoints_document init)) _
           (match to_markdown (parser_of (read_file entrypoints_document init)) with
            | Ok md _ => md
            | Raise _ _ => ""
            end)).
  vm_compute. reflexivity.
Defined.

(** C2 fails on the code: the registry parsed from [entrypoints_document]
    holds a [Query] record, and assembling it twice does not succeed twice. *)
Lemma second_assembly_fails :
  Dict.mem "Query" (schemas (parser_of (read_file entrypoints_document init))) = true /\
  ~ exists md p1 p2,
      to_markdown (parser_of (read_file entrypoints_document init)) = Ok md p1 /\
      to_markdown p1 = Ok md p2.
Proof.
  split; [reflexivity|].
  intros [md [p1 [p2 [H1 H2]]]].
  vm_compute in H1. injection H1 as _ <-.
  vm_compute in H2. discriminate H2.
Qed.

(** ** Comments *)

Ltac crush_step :=
  repeat (simpl;
          match goal with
          | |- context [if ?b then _ else _] => destruct b eqn:?
          | |- context [match ?o with Some _ => _ | None => _ end] =>
              destruct o eqn:?
          | |- context [match ?fs with Fs_field => _ | Fs_dtype => _ end] =>
              destruct fs eqn:?
          end);
  simpl.

Lemma read_hash p : read_character "#" p = Ok tt (set_comment true p).
Proof. destruct p; reflexivity. Qed.

Lemma read_in_comment c p :
  Ascii.eqb c Str.nl = false ->
  read_character c (set_comment true p) = Ok tt (set_comment true p).
Proof.
  intros H. unfold read_character. rewrite H. unfold_m.
  destruct (Ascii.eqb c "#"); destruct p; reflexivity.
Qed.

Lemma read_nl_set_comment b p :
  read_character Str.nl (set_comment b p) = read_character Str.nl p.
Proof. destruct p; reflexivity. Qed.

Lemma settled_init : settled init.
Proof. split; [reflexivity|]. right. right. split; [reflexivity | discriminate]. Qed.

Lemma in_chars_nl_delimiters : in_chars Str.nl delimiters = true.
Proof. reflexivity. Qed.

Lemma settled_nl p :
  Inv p -> settled p ->
  exists p', read_character Str.nl p = Ok tt p' /\ machine p' = machine p.
Proof.
  intros HI [Hc Hs].
  destruct (dispatches Str.nl p) eqn:Hd; [|apply read_character_skip; exact Hd].
  rewrite (read_character_dispatch _ _ Hd).
  unfold dispatches in Hd.
  apply andb_prop in Hd as [Hd Hl]. apply andb_prop in Hd as [Hd _].
  apply andb_prop in Hd as [_ Hb].
  apply negb_true_iff in Hl, Hb. apply Z.ltb_ge in Hb.
  destruct Hs as [Hs|[Hs|[Htok Hst]]]; [lia | congruence |].
  pose proof (inv_state p HI) as Hinv.
  destruct p as [hp sc scal cs st ct fs tok cf cm lc bl]; simpl in *.
  subst tok lc.
  unfold dispatch; simpl. destruct st; [| congruence |].
  - eexists. split; reflexivity.
  - destruct Hinv as [Hkw _].
    assert (Hne : nonempty ct = true).
    { unfold nonempty. apply negb_true_iff, String.eqb_neq. intros ->.
      simpl in Hkw. intuition discriminate. }
    unfold bind, dispatch_fields. unfold_m; simpl. rewrite Hne; simpl.
    eexists. split; reflexivity.
Qed.

(** what the state machine leaves alone *)
Lemma dispatch_facts c p q :
  dispatch c p = Ok tt q ->
  bracket_level q = bracket_level p /\ long_comment q = long_comment p /\
  (Ascii.eqb c "=" = false -> comment q = comment p) /\
  (current_token p = "" -> state q <> St_name).
Proof.
  unfold dispatch.
  destruct p as [hp sc scal cs st ct fs tok cf cm lc bl]; simpl.
  destruct st; simpl.
  - unfold dispatch_none. unfold_m. crush_step; try discriminate;
      intros H; injection H as <-; simpl; repeat split; try discriminate;
      intros ->; discriminate.
  - unfold dispatch_name. unfold_m. crush_step; try discriminate;
      intros H; injection H as <-; simpl; repeat split; discriminate.
  - unfold dispatch_fields. unfold_m. crush_step; try discriminate;
      intros H; injection H as <-; simpl; repeat split; discriminate.
Qed.

Lemma nl_skip p :
  dispatches Str.nl p = false ->
  exists p', read_character Str.nl p = Ok tt p' /\ machine p' = machine p /\
             comment p' = false /\
             ((0 < bracket_level p')%Z \/ long_comment p' = true).
Proof.
  unfold dispatches, read_character. unfold_m.
  destruct p as [hp sc scal cs st ct fs tok cf cm lc bl]; simpl.
  rewrite in_chars_nl_delimiters. simpl.
  destruct (0 <? bl)%Z eqn:Hb; simpl.
  - apply Z.ltb_lt in Hb. intros _.
    destruct (_ =? sentinel); simpl; eexists; repeat split; simpl; auto.
  - destruct lc; [|discriminate]. intros _. eexists; repeat split; simpl; auto.
Qed.

Lemma nl_dispatch p p' :
  dispatches Str.nl p = true ->
  read_character Str.nl p = Ok tt p' ->
  comment p' = false /\ current_token p' = "" /\
  (current_token p = "" -> state p' <> St_name).
Proof.
  intros Hd. rewrite (read_character_dispatch _ _ Hd). unfold bind, modify.
  destruct (dispatch Str.nl (set_comment false p)) as [[] q|e q] eqn:E; [|discriminate].
  intros H; injection H as <-.
  destruct (dispatch_facts _ _ _ E) as [_ [_ [Hc Hs]]].
  specialize (Hc eq_refl).
  destruct p, q; simpl in *. auto.
Qed.

Lemma settled_after_two_newlines p p1 p2 :
  read_character Str.nl p = Ok tt p1 ->
  read_character Str.nl p1 = Ok tt p2 ->
  settled p2.
Proof.
  intros H1 H2.
  destruct (dispatches Str.nl p1) eqn:Hd1.
  - destruct (nl_dispatch _ _ Hd1 H2) as [Hc [Htok Hst]].
    split; [exact Hc|]. right. right. split; [exact Htok|]. apply Hst.
    destruct (dispatches Str.nl p) eqn:Hd.
    + destruct (nl_dispatch _ _ Hd H1) as [_ [Ht _]]. exact Ht.
    + destruct (nl_skip _ Hd) as [q [Hq [_ [_ Hs]]]].
      rewrite Hq in H1. injection H1 as ->.
      unfold dispatches in Hd1.
      apply andb_prop in Hd1 as [Hd1 Hl]. apply andb_prop in Hd1 as [Hd1 _].
      apply andb_prop in Hd1 as [_ Hb].
      apply negb_true_iff in Hl, Hb. apply Z.ltb_ge in Hb.
      destruct Hs; [lia | congruence].
  - destruct (nl_skip _ Hd1) as [q [Hq [_ [Hc Hs]]]].
    rewrite Hq in H2. injection H2 as ->.
    split; [exact Hc|]. destruct Hs; auto.
Qed.

Lemma parsed_machine p p' :
  machine p' = machine p -> parsed (Ok tt p') = parsed (Ok tt p).
Proof. unfold machine, parsed. intros H. injection H as -> -> -> _ _ _ _ _. reflexivity. Qed.

Lemma run_two_newlines l p :
  run (Str.nl :: Str.nl :: l) p =
  match read_character Str.nl p with
  | Ok _ p1 =>
      match read_character Str.nl p1 with
      | Ok _ p2 => run l p2
      | Raise e p2 => Raise e p2
      end
  | Raise e p1 => Raise e p1
  end.
Proof. rewrite !run_cons. destruct (read_character Str.nl p); reflexivity. Qed.

(** The two runs of the parser, on a text and on the text without its line
    comments, from the start of the text ([outside]) or from inside a line
    comment ([inside]); [pending] is the flag of [fed] in the run on the
    stripped text. *)
Lemma strip_line_comments_run text :
  forall p pending,
    Inv p -> (pending = false -> settled p) ->
    parsed (run (fed pending text) p) =
      parsed (run (fed pending (strip_line_comments false text)) p) /\
    parsed (run (fed true text) (set_comment true p)) =
      parsed (run (fed pending (strip_line_comments true text)) p).
Proof.
  induction text as [|c text IH]; intros p pending HI Hs.
  - split; [reflexivity|]. simpl.
    rewrite run_cons, read_nl_set_comment.
    destruct pending; [reflexivity|].
    destruct (settled_nl p HI (Hs eq_refl)) as [q [-> Hm]].
    simpl. apply parsed_machine. exact Hm.
  - assert (Hnl : Inv p ->
              parsed (run (Str.nl :: Str.nl :: fed false text) p) =
              parsed (run (Str.nl :: Str.nl ::
                             fed false (strip_line_comments false text)) p)).
    { intros _. rewrite !run_two_newlines.
      destruct (read_character Str.nl p) as [[] p1|e p1] eqn:E1; [|reflexivity].
      destruct (read_character Str.nl p1) as [[] p2|e p2] eqn:E2; [|reflexivity].
      apply IH.
      - eapply Inv_step; [|exact E2]. eapply Inv_step; [|exact E1]. exact HI.
      - intros _. exact (settled_after_two_newlines _ _ _ E1 E2). }
    simpl. destruct (Ascii.eqb c Str.nl) eqn:Ec.
    + apply Ascii.eqb_eq in Ec. subst c. simpl.
      split; [exact (Hnl HI)|].
      rewrite run_cons, read_nl_set_comment, <- run_cons. exact (Hnl HI).
    + split.
      * destruct (Ascii.eqb c "#") eqn:Eh; simpl.
        -- apply Ascii.eqb_eq in Eh. subst c.
           rewrite run_cons, read_hash. apply IH; assumption.
        -- rewrite Ec. rewrite !run_cons.
           destruct (read_character c p) as [[] q|e q] eqn:E; [|reflexivity].
           apply IH; [eapply Inv_step; eassumption | discriminate].
      * rewrite run_cons, (read_in_comment _ _ Ec). apply IH; assumption.
Qed.

Lemma strip_line_comments_parsed text :
  parsed (read_file (strip_line_comments false (universal_newlines false text)) init) =
  parsed (read_file text init).
Proof.
  rewrite !read_file_fed.
  rewrite (universal_newlines_no_cr (strip_line_comments false _))
    by apply no_cr_strip_line_comments, no_cr_universal_newlines.
  symmetry.
  apply strip_line_comments_run; [exact Inv_init | intros _; exact settled_init].
Qed.

(** *** Block comments *)

Lemma not_sentinel tok c :
  Ascii.eqb c Str.dquote = false -> (tok ++ Str.chr c =? sentinel) = false.
Proof.
  intros Hc. apply String.eqb_neq. intros H.
  assert (c = Str.dquote); [|subst c; discriminate Hc].
  destruct tok as [|a [|b [|d tok]]]; simpl in H; try discriminate H;
    try (injection H; intros; subst; reflexivity).
  exfalso. destruct tok; discriminate H.
Qed.

Lemma read_dquote p :
  comment p = false ->
  read_character Str.dquote p =
  Ok tt (if current_token p ++ Str.chr Str.dquote =? sentinel
         then set_current_token "" (set_long_comment (xorb (long_comment p) true) p)
         else set_current_token (current_token p ++ Str.chr Str.dquote) p).
Proof.
  intros Hc. unfold read_character. unfold_m.
  destruct p as [hp sc scal cs st ct fs tok cf cm lc bl]; simpl in *. subst cm.
  change (in_chars Str.dquote delimiters) with false.
  rewrite orb_true_r. simpl.
  destruct (tok ++ Str.chr Str.dquote =? sentinel); reflexivity.
Qed.

Lemma read_sentinel p :
  comment p = false -> current_token p = "" ->
  run (list_ascii_of_string sentinel) p =
  Ok tt (set_long_comment (negb (long_comment p)) p).
Proof.
  intros Hc Ht. unfold sentinel. simpl.
  rewrite run_cons, (read_dquote p Hc), Ht. simpl.
  change ("" ++ Str.chr Str.dquote =? sentinel) with false. cbv iota.
  rewrite run_cons, read_dquote by (destruct p; exact Hc).
  destruct p as [hp sc scal cs st ct fs tok cf cm lc bl]; simpl in *. subst cm tok.
  change (Str.chr Str.dquote ++ Str.chr Str.dquote =? sentinel) with false. cbv iota.
  rewrite run_cons, read_dquote by reflexivity. simpl.
  change ((Str.chr Str.dquote ++ Str.chr Str.dquote) ++ Str.chr Str.dquote =? sentinel)
    with true. cbv iota.
  destruct lc; reflexivity.
Qed.

Ltac destruct_char_tests :=
  repeat match goal with
         | |- context [Ascii.eqb ?x Str.dquote] =>
             is_var x; destruct (Ascii.eqb x Str.dquote)
         end.

Lemma buffer_of_snoc_quote tok :
  (tok ++ Str.chr Str.dquote =? sentinel) =
    match buffer_of tok with TwoQuotes => true | _ => false end /\
  buffer_of (tok ++ Str.chr Str.dquote) =
    match buffer_of tok with
    | Empty => OneQuote
    | OneQuote => TwoQuotes
    | _ => Text
    end.
Proof.
  destruct tok as [|a [|b [|d [|e tok]]]];
    unfold buffer_of, sentinel, Str.chr; cbn [append];
    cbv beta iota delta [String.eqb];
    destruct_char_tests; split; reflexivity.
Qed.

Lemma buffer_of_snoc_other tok c :
  Ascii.eqb c Str.dquote = false -> buffer_of (tok ++ Str.chr c) = Text.
Proof.
  intros Hc.
  destruct tok as [|a [|b [|d [|e tok]]]];
    unfold buffer_of, Str.chr; cbn [append];
    cbv beta iota delta [String.eqb]; rewrite ?Hc;
    destruct_char_tests; reflexivity.
Qed.

Lemma buffer_of_empty tok : buffer_of tok = Empty <-> tok = "".
Proof.
  split; [|intros ->; reflexivity].
  unfold buffer_of. destruct (tok =? "") eqn:E; [intros _; apply String.eqb_eq, E|].
  destruct (tok =? Str.chr Str.dquote); [intros H; discriminate H|].
  destruct (tok =? Str.chr Str.dquote ++ Str.chr Str.dquote); intros H; discriminate H.
Qed.

(** a double quote read outside a line comment: the third of a sentinel
    flips the block-comment flag and empties the buffer *)
Lemma read_dquote_scan p :
  comment p = false ->
  exists p',
    read_character Str.dquote p = Ok tt p' /\ machine p' = machine p /\
    comment p' = false /\ bracket_level p' = bracket_level p /\
    (long_comment p', buffer_of (current_token p')) =
      match buffer_of (current_token p) with
      | Empty => (long_comment p, OneQuote)
      | OneQuote => (long_comment p, TwoQuotes)
      | TwoQuotes => (negb (long_comment p), Empty)
      | Text => (long_comment p, Text)
      end.
Proof.
  intros Hc. rewrite (read_dquote p Hc).
  destruct (buffer_of_snoc_quote (current_token p)) as [Hs Hb].
  rewrite Hs. eexists. split; [reflexivity|].
  destruct p as [hp sc scal cs st ct fs tok cf cm lc bl]; simpl in *.
  destruct (buffer_of tok); simpl; rewrite ?Hb;
    repeat split; try assumption; destruct lc; reflexivity.
Qed.

(** one character of the text of a block comment *)
Lemma comment_char_step c p s :
  long_comment p = true ->
  comment_char c (scan_of p) = Some s ->
  exists p',
    read_character c p = Ok tt p' /\ machine p' = machine p /\
    long_comment p' = true /\ scan_of p' = s.
Proof.
  intros Hl. unfold scan_of, comment_char.
  destruct (Ascii.eqb c Str.dquote) eqn:Eq.
  - apply Ascii.eqb_eq in Eq. subst c.
    change (Ascii.eqb Str.dquote Str.nl) with false.
    change (Ascii.eqb Str.dquote "#") with false.
    change (in_chars Str.dquote delimiters) with false.
    rewrite orb_false_r, andb_false_r. simpl negb. rewrite andb_true_l.
    destruct (comment p) eqn:Hc.
    + intros H. injection H as <-. exists p.
      replace p with (set_comment true p) at 1 by (destruct p; simpl in *; subst; reflexivity).
      rewrite read_in_comment by reflexivity.
      destruct p; simpl in *; subst. repeat split; reflexivity.
    + destruct (read_dquote_scan p Hc) as [p' [Hr [Hm [Hc' [Hb' Hlb]]]]].
      rewrite Hl in Hlb.
      destruct (buffer_of (current_token p)); try discriminate;
        intros H; injection H as <-; exists p';
        injection Hlb as Hl' Hb''; rewrite Hc', Hb'', Hb';
        repeat split; assumption.
  - pose proof (buffer_of_snoc_other (current_token p) c Eq) as Hb.
    pose proof (not_sentinel (current_token p) c Eq) as Hs.
    unfold read_character. unfold_m.
    destruct p as [hp sc scal cs st ct fs tok cf cm lc bl]; simpl in *. subst lc.
    destruct (Ascii.eqb c Str.nl) eqn:En; simpl.
    + apply Ascii.eqb_eq in En. subst c. rewrite in_chars_nl_delimiters.
      destruct (0 <? bl)%Z; simpl.
      * rewrite Hs. intros H. injection H as <-. eexists.
        split; [reflexivity|]. simpl. rewrite Hb. repeat split.
      * intros H. injection H as <-. eexists.
        split; [reflexivity|]. repeat split.
    + destruct (Ascii.eqb c "#") eqn:Eh; simpl.
      * rewrite orb_true_r. intros H. injection H as <-. eexists.
        split; [reflexivity|]. repeat split.
      * rewrite orb_false_r. destruct cm; simpl.
        -- intros H. injection H as <-. eexists. split; [reflexivity|]. repeat split.
        -- destruct (0 <? bl)%Z; simpl.
           ++ destruct (Ascii.eqb c "(") eqn:Eo; [|destruct (Ascii.eqb c ")") eqn:Ecl];
                simpl; rewrite Hs; intros H; injection H as <-; eexists;
                (split; [reflexivity|]); simpl; rewrite Hb; repeat split.
           ++ destruct (in_chars c delimiters) eqn:Ed; simpl.
              ** intros H. injection H as <-. eexists.
                 split; [reflexivity|]. repeat split.
              ** destruct (Ascii.eqb c "(") eqn:Eo; [|destruct (Ascii.eqb c ")") eqn:Ecl];
                   simpl; rewrite Hs; intros H; injection H as <-; eexists;
                   (split; [reflexivity|]); simpl; rewrite Hb; repeat split.
Qed.

(** the text of a block comment, read to its end *)
Lemma comment_scan_run content :
  forall p s,
    long_comment p = true ->
    comment_scan content (scan_of p) = Some s ->
    exists p',
      run (list_ascii_of_string content) p = Ok tt p' /\ machine p' = machine p /\
      long_comment p' = true /\ scan_of p' = s.
Proof.
  induction content as [|c content IH]; intros p s Hl;
    cbn [comment_scan list_ascii_of_string].
  - intros H. injection H as <-. exists p. repeat split; assumption.
  - destruct (comment_char c (scan_of p)) as [s1|] eqn:E1; [|discriminate].
    intros Hscan.
    destruct (comment_char_step c p s1 Hl E1) as [p1 [Hr1 [Hm1 [Hl1 Hs1]]]].
    rewrite <- Hs1 in Hscan.
    destruct (IH p1 s Hl1 Hscan) as [p' [Hr [Hm [Hl' Hs']]]].
    exists p'. rewrite run_cons, Hr1. repeat split; try assumption.
    rewrite Hm. exact Hm1.
Qed.

(** the three double quotes after the text: they close the comment, and
    leave the buffer empty, exactly when they are read outside a line comment
    at an empty buffer *)
Lemma closing_sentinel p :
  long_comment p = true ->
  exists p',
    run (list_ascii_of_string sentinel) p = Ok tt p' /\ machine p' = machine p /\
    bracket_level p' = bracket_level p /\
    ((comment p' = false /\ long_comment p' = false /\ current_token p' = "") <->
     (comment p = false /\ buffer_of (current_token p) = Empty)).
Proof.
  intros Hl. unfold sentinel. cbn [list_ascii_of_string].
  destruct (comment p) eqn:Hc.
  - exists p.
    replace p with (set_comment true p) at 1 2
      by (destruct p; simpl in *; subst; reflexivity).
    rewrite !run_cons, !read_in_comment by reflexivity.
    split; [destruct p; simpl in *; subst; reflexivity|].
    split; [reflexivity|]. split; [reflexivity|].
    split; intros [H _]; congruence.
  - destruct (read_dquote_scan p Hc) as [p1 [Hr1 [Hm1 [Hc1 [Hb1 Hs1]]]]].
    destruct (read_dquote_scan p1 Hc1) as [p2 [Hr2 [Hm2 [Hc2 [Hb2 Hs2]]]]].
    destruct (read_dquote_scan p2 Hc2) as [p3 [Hr3 [Hm3 [Hc3 [Hb3 Hs3]]]]].
    exists p3. rewrite run_cons, Hr1, run_cons, Hr2, run_cons, Hr3.
    split; [reflexivity|].
    split; [congruence|]. split; [congruence|].
    rewrite <- (buffer_of_empty (current_token p3)).
    rewrite Hl in Hs1.
    destruct (buffer_of (current_token p)); injection Hs1 as Hl1 Ht1;
      rewrite Hl1, Ht1 in Hs2; injection Hs2 as Hl2 Ht2;
      rewrite Hl2, Ht2 in Hs3; injection Hs3 as Hl3 Ht3;
      rewrite Hc3, Hl3, Ht3; simpl;
      split; intros H; try (repeat split; reflexivity);
      destruct H as [? [? ?]] || destruct H as [? ?]; discriminate.
Qed.

Lemma parser_eq p q :
  machine q = machine p -> comment q = comment p ->
  long_comment q = long_comment p -> current_token q = current_token p ->
  bracket_level q = bracket_level p -> q = p.
Proof.
  destruct p, q; unfold machine; simpl.
  intros H -> -> -> ->. injection H as -> -> -> -> -> -> -> ->. reflexivity.
Qed.

(** C3, as the code has it.  On any file, the characters of a line comment
    never reach the state machine: the text read from the file and that text
    without its line comments parse to the same registry and scalar set, or
    raise the same exception.  A block comment opened at an empty token
    buffer outside a line comment, in whose text no sentinel is recognised,
    is passed over and leaves the parser exactly as it was if and only if it
    ends outside a line comment, with an empty token buffer (its text is
    empty or ends in a delimiter read outside parentheses) and with the
    bracket level back at its value; parentheses, double quotes and line
    comments inside the text do no harm by themselves. *)
Theorem comments_contribute_no_tokens (text : string) (p : t)
    (content : string) (s : CommentScan) :
  comment p = false -> long_comment p = false -> current_token p = "" ->
  comment_scan content (false, Empty, bracket_level p) = Some s ->
  parsed (read_file (strip_line_comments false (universal_newlines false text)) init) =
    parsed (read_file text init) /\
  (run (list_ascii_of_string (sentinel ++ content ++ sentinel)) p = Ok tt p <->
   s = (false, Empty, bracket_level p)).
Proof.
  intros Hc Hl Ht Hscan. split; [apply strip_line_comments_parsed|].
  rewrite !list_ascii_of_string_app, run_app, (read_sentinel p Hc Ht), Hl.
  simpl negb.
  assert (Hs1 : scan_of (set_long_comment true p) = (false, Empty, bracket_level p))
    by (destruct p; simpl in *; subst; reflexivity).
  rewrite <- Hs1 in Hscan.
  assert (Hl0 : long_comment (set_long_comment true p) = true)
    by (destruct p; reflexivity).
  destruct (comment_scan_run content _ s Hl0 Hscan) as [p1 [Hr1 [Hm1 [Hl1 Hsc1]]]].
  rewrite run_app, Hr1.
  destruct (closing_sentinel p1 Hl1) as [p2 [Hr2 [Hm2 [Hb2 Hiff]]]].
  rewrite Hr2.
  assert (Hm : machine p2 = machine p).
  { rewrite Hm2, Hm1. destruct p; reflexivity. }
  unfold scan_of in Hsc1. subst s. split.
  - intros H. injection H as H. subst p2.
    destruct Hiff as [Hiff _].
    destruct (Hiff (conj Hc (conj Hl Ht))) as [H1 H2].
    rewrite H1, H2, <- Hb2. reflexivity.
  - intros H. injection H as H1 H2 H3.
    destruct Hiff as [_ Hiff].
    destruct (Hiff (conj H1 H2)) as [Hc2 [Hl2 Ht2]].
    f_equal. apply parser_eq; congruence.
Qed.

Lemma comments_contribute_no_tokens_witness :
  parsed (read_file (strip_line_comments false
                       (universal_newlines false commented_document)) init) =
    parsed (read_file commented_document init) /\
  run (list_ascii_of_string (sentinel ++ quoted_comment_text ++ sentinel)) init =
    Ok tt init.
Proof.
  destruct (comments_contribute_no_tokens commented_document init
              quoted_comment_text (false, Empty, 0%Z)
              eq_refl eq_refl eq_refl eq_refl) as [H1 H2].
  split; [exact H1 | apply H2; reflexivity].
Defined.

(** C3 fails on the code: the block comment of [docstring_document] is never
    closed, because its text touches the closing sentinel, and the scalar
    declared after it is lost; without the comment the scalar is parsed. *)
Lemma comment_text_changes_the_parse :
  remove_comments Code 0 docstring_document =
    Str.chr Str.nl ++ "scalar Foo" ++ Str.chr Str.nl /\
  parsed (read_file docstring_document init) = inr ([], SCALARS) /\
  parsed (read_file (remove_comments Code 0 docstring_document) init) =
    inr ([("Foo", Some (GraphQLSchema.mk "Foo" "scalar" []))],
         ["Int"; "Float"; "String"; "Boolean"; "ID"; "Foo"]) /\
  parsed (read_file docstring_document init) <>
    parsed (read_file (remove_comments Code 0 docstring_document) init).
Proof.
  split; [vm_compute; reflexivity|].
  split; [vm_compute; reflexivity|].
  split; [vm_compute; reflexivity|].
  vm_compute. discriminate.
Qed.

(** ** The document assembler on its failing inputs *)

(** without a [Mutation] record, assembly never returns a document *)
Lemma to_markdown_needs_mutation p md p' :
  to_markdown p = Ok md p' -> Dict.mem "Mutation" (schemas p) = true.
Proof.
  unfold to_markdown, pop. unfold_m. intros H.
  destruct (Dict.get "Query" (schemas p)) as [q|] eqn:Eq; [|discriminate].
  pose proof (schema_to_markdown_state None q
                (set_schemas (Dict.remove "Query" (schemas p)) p)) as Hq.
  destruct (schema_to_markdown None q _) as [qmd pq|e pq]; [|discriminate].
  simpl in Hq. subst pq. simpl in H.
  rewrite dict_get_remove_other in H. simpl in H.
  unfold Dict.mem. destruct (Dict.get "Mutation" (schemas p)); [reflexivity|discriminate].
Qed.

(** C1, on the code: [Foo] is a declared scalar and is in the scalar set when
    the document is rendered, yet the fields of type [Foo] and [[Foo!]!] of
    the [Query] and [Mutation] records are rendered with a cross-link; only
    the field of the custom type [T] is rendered without one. *)
Theorem declared_scalar_is_linked_in_entrypoints :
  exists p,
    convert_schema entrypoints_document = Ok entrypoints_markdown p /\
    set_in "Foo" (scalars p) = true.
Proof.
  exists (parser_of (convert_schema entrypoints_document)).
  split; vm_compute; reflexivity.
Qed.

(** C4, on the code: the registry of [query_only_document] holds a [Query]
    record, and assembly fails with a lookup error all the same, for
    [Mutation]. *)
Theorem assembly_fails_with_query_present :
  Dict.mem "Query" (schemas (parser_of (read_file query_only_document init))) = true /\
  exists p, convert_schema query_only_document = Raise (KeyError "Mutation") p.
Proof.
  split; [vm_compute; reflexivity|].
  exists (parser_of (convert_schema query_only_document)).
  vm_compute. reflexivity.
Qed.

(** C5, on the code: for the registry of [no_mutation_document], which holds
    [Query] and no [Mutation], no document is assembled: the lookup of
    [Mutation] raises. *)
Theorem assembly_raises_when_mutation_absent :
  exists p0 p,
    read_file no_mutation_document init = Ok tt p0 /\
    Dict.mem "Query" (schemas p0) = true /\
    Dict.mem "Mutation" (schemas p0) = false /\
    to_markdown p0 = Raise (KeyError "Mutation") p.
Proof.
  exists (parser_of (read_file no_mutation_document init)).
  exists (parser_of (to_markdown (parser_of (read_file no_mutation_document init)))).
  split; [vm_compute; reflexivity|].
  split; [vm_compute; reflexivity|].
  split; vm_compute; reflexivity.
Qed.

(** ** The layout of an assembled document *)

Lemma schema_to_markdown_render s a p :
  schema_to_markdown s a p =
  match render_at (heap p) s a with
  | inr md => Ok md p
  | inl e => Raise e p
  end.
Proof.
  unfold schema_to_markdown, render_at. unfold_m.
  destruct (nth_error (heap p) a); reflexivity.
Qed.

Lemma map_m_render s l p :
  map_m (schema_to_markdown s) l p =
  match emap (render_at (heap p) s) l with
  | inr mds => Ok mds p
  | inl e => Raise e p
  end.
Proof.
  induction l as [|a l IH]; simpl; [reflexivity|].
  unfold bind, ret, ebind. rewrite schema_to_markdown_render.
  destruct (render_at (heap p) s a); [reflexivity|].
  rewrite IH. destruct (emap (render_at (heap p) s) l); reflexivity.
Qed.

(** When assembly returns a document, the registry held both [Query] and
    [Mutation], and the document is the two headings, the two entry points
    rendered with the built-in scalars, and the remaining records rendered in
    registry order with the accumulated scalar set, joined by blank lines. *)
Lemma to_markdown_layout p md p' :
  to_markdown p = Ok md p' ->
  exists q m query_md mutation_md rest,
    Dict.get "Query" (schemas p) = Some q /\
    Dict.get "Mutation" (schemas p) = Some m /\
    render_at (heap p) None q = inr query_md /\
    render_at (heap p) None m = inr mutation_md /\
    emap (render_at (heap p) (Some (scalars p)))
         (Dict.values (Dict.remove "Mutation" (Dict.remove "Query" (schemas p))))
      = inr rest /\
    md = Str.join (Str.chr Str.nl ++ Str.chr Str.nl)
           ("# Entrypoint Data Types" :: query_md :: mutation_md ::
            "# Custom Data Types" :: rest).
Proof.
  unfold to_markdown, pop. unfold_m. intros H.
  destruct (Dict.get "Query" (schemas p)) as [q|] eqn:Eq; [|discriminate].
  rewrite schema_to_markdown_render in H.
  destruct p as [hp sc scal cs st ct fs tok cf cm lc bl]; simpl in *.
  destruct (render_at hp None q) as [e|query_md] eqn:Erq; [discriminate|].
  simpl in H. rewrite dict_get_remove_other in H. simpl in H.
  destruct (Dict.get "Mutation" sc) as [m|] eqn:Em; [|discriminate].
  unfold Dict.mem in H. rewrite dict_get_remove_other in H. simpl in H.
  rewrite Em in H.
  rewrite schema_to_markdown_render in H. simpl in H.
  destruct (render_at hp None m) as [e|mutation_md] eqn:Erm; [discriminate|].
  simpl in H. rewrite map_m_render in H. simpl in H.
  destruct (emap (render_at hp (Some scal)) _) as [e|rest] eqn:Er; [discriminate|].
  injection H as <- _.
  exists q, m, query_md, mutation_md, rest. repeat split; assumption || reflexivity.
Qed.

(** A field whose bare type identifier is in the scalar set given to the
    renderer is rendered verbatim, in fixed-width styling. *)
Lemma dtype_markdown_scalar self scalars field dtype :
  Dict.get field (GraphQLSchema.fields self) = Some dtype ->
  set_in (GraphQLSchema.strip_markers dtype) scalars = true ->
  GraphQLSchema.dtype_markdown self scalars field dtype = inr ("`" ++ dtype ++ "`").
Proof.
  intros Hget Hin. unfold GraphQLSchema.dtype_markdown, GraphQLSchema.get_type_id.
  rewrite Hget. simpl. rewrite Hin. reflexivity.
Qed.

(** ** Parsing well-formed declarations *)

Lemma word_char_inv c :
  word_char c = true ->
  in_chars c delimiters = false /\
  Ascii.eqb c Str.nl = false /\ Ascii.eqb c "#" = false /\
  Ascii.eqb c "(" = false /\ Ascii.eqb c ")" = false /\
  Ascii.eqb c Str.dquote = false.
Proof.
  unfold word_char. intros H. apply andb_prop in H as [H1 H2].
  apply negb_true_iff in H1, H2. split; [exact H1|].
  unfold in_chars in *. simpl in *.
  repeat (apply orb_false_iff in H1; destruct H1 as [? H1]).
  repeat (apply orb_false_iff in H2; destruct H2 as [? H2]). auto 10.
Qed.

Lemma read_word_char c p :
  word_char c = true -> comment p = false ->
  read_character c p =
  Ok tt (set_current_token (current_token p ++ Str.chr c) p).
Proof.
  intros Hw Hc. apply word_char_inv in Hw as [Hd [Hn [Hh [Ho [Hcl Hq]]]]].
  unfold read_character. unfold_m. rewrite Hn, Hh.
  destruct p as [hp sc scal cs st ct fs tok cf cm lc bl]; simpl in *. subst cm.
  rewrite Hd, orb_true_r, Ho, Hcl. simpl.
  rewrite (not_sentinel _ _ Hq). reflexivity.
Qed.

Lemma append_assoc s1 s2 s3 : (s1 ++ s2) ++ s3 = s1 ++ s2 ++ s3.
Proof. induction s1 as [|c s1 IH]; simpl; [reflexivity | rewrite IH; reflexivity]. Qed.

Lemma run_word w : forall p,
  word w = true -> comment p = false ->
  run (list_ascii_of_string w) p =
  Ok tt (set_current_token (current_token p ++ w) p).
Proof.
  induction w as [|c w IH]; intros p Hw Hc; simpl.
  - rewrite append_empty_r. destruct p; reflexivity.
  - unfold word in Hw. simpl in Hw. apply andb_prop in Hw as [Hc1 Hw].
    rewrite run_cons, (read_word_char _ _ Hc1 Hc).
    rewrite IH; [|exact Hw | destruct p; exact Hc].
    destruct p; simpl. rewrite append_assoc. reflexivity.
Qed.

Ltac eval_in_chars :=
  repeat match goal with
         | |- context [in_chars ?c ?l] =>
             let b := eval vm_compute in (in_chars c l) in
             change (in_chars c l) with b
         end.

(** one delimiter read by the state machine, on a parser written out *)
Ltac delim_step Hbl :=
  rewrite run_cons;
  rewrite read_character_dispatch
    by (unfold dispatches; simpl; rewrite Hbl; reflexivity);
  unfold dispatch, dispatch_none, dispatch_name, dispatch_fields;
  unfold_m; simpl; eval_in_chars; simpl.

Lemma update_nth_last {A} (f : A -> A) l x :
  update_nth (List.length l) f (l ++ [x]) = (l ++ [f x])%list.
Proof. induction l as [|y l IH]; simpl; [reflexivity | rewrite IH; reflexivity]. Qed.

Lemma name_word_inv s : name_word s = true -> (s =? "") = false /\ word s = true.
Proof.
  unfold name_word, nonempty. intros H. apply andb_prop in H as [H1 H2].
  apply negb_true_iff in H1. auto.
Qed.

Lemma concat_cons x l : String.concat "" (x :: l) = x ++ String.concat "" l.
Proof. destruct l; simpl; [rewrite append_empty_r|]; reflexivity. Qed.

Section Steps.
Variables (hp : list GraphQLSchema.t) (sc : Dict.t nat) (scal : list string)
          (bl : Z) (rest : list ascii).
Hypothesis Hbl : (0 <? bl)%Z = false.

Lemma run_word_mk w cs st ct fs cf lc :
  word w = true ->
  run (list_ascii_of_string w ++ rest)
      (mk hp sc scal cs st ct fs "" cf false lc bl) =
  run rest (mk hp sc scal cs st ct fs w cf false lc bl).
Proof.
  intros Hw. rewrite run_app, (run_word _ _ Hw) by reflexivity. reflexivity.
Qed.

Lemma step_keyword kw cs ct fs cf :
  set_in kw keywords = true ->
  run (" "%char :: rest) (mk hp sc scal cs St_none ct fs kw cf false false bl) =
  run rest (mk (hp ++ [GraphQLSchema.init "" kw]) sc scal
               (Some (List.length hp)) St_name kw fs "" cf false false bl).
Proof.
  intros Hkw. delim_step Hbl. rewrite Hkw.
  destruct (kw =? "") eqn:E; [|reflexivity].
  apply String.eqb_eq in E. subst kw. discriminate Hkw.
Qed.

Lemma step_name kind n fs cf :
  (kind =? "scalar") = false ->
  run (" "%char :: rest)
      (mk (hp ++ [GraphQLSchema.init "" kind]) sc scal (Some (List.length hp))
          St_name kind fs n cf false false bl) =
  run rest
      (mk (hp ++ [GraphQLSchema.mk n kind []]) sc scal (Some (List.length hp))
          St_fields kind Fs_field "" cf false false bl).
Proof.
  intros Hk. delim_step Hbl. rewrite nth_error_app_new. simpl.
  rewrite Hk, update_nth_last. reflexivity.
Qed.

Lemma step_scalar_name n fs cf :
  run (Str.nl :: rest)
      (mk (hp ++ [GraphQLSchema.init "" "scalar"]) sc scal (Some (List.length hp))
          St_name "scalar" fs n cf false false bl) =
  run rest
      (mk (hp ++ [GraphQLSchema.mk n "scalar" []])
          (Dict.set n (List.length hp) sc) (set_add n scal)
          (Some (List.length hp)) St_none "" fs "" cf false false bl).
Proof.
  delim_step Hbl. rewrite nth_error_app_new. simpl.
  rewrite update_nth_last, nth_error_app_new. reflexivity.
Qed.

Lemma step_blank c cs kind fs cf hp' :
  in_chars c ["{"; " "]%char = true -> nonempty kind = true ->
  run (c :: rest) (mk hp' sc scal cs St_fields kind fs "" cf false false bl) =
  run rest (mk hp' sc scal cs St_fields kind fs "" cf false false bl).
Proof.
  intros Hc Hk. unfold in_chars in Hc. simpl in Hc.
  rewrite orb_false_r in Hc. apply orb_prop in Hc as [Hc|Hc];
    apply Ascii.eqb_eq in Hc; subst c; delim_step Hbl; rewrite Hk; reflexivity.
Qed.

Lemma step_field_name kind f cf obj :
  nonempty kind = true -> (kind =? "enum") = false -> (f =? "") = false ->
  run (":"%char :: rest)
      (mk (hp ++ [obj]) sc scal (Some (List.length hp)) St_fields kind
          Fs_field f cf false false bl) =
  run rest
      (mk (hp ++ [obj]) sc scal (Some (List.length hp)) St_fields kind
          Fs_dtype "" f false false bl).
Proof.
  intros Hk He Hf. delim_step Hbl. rewrite Hk, Hf, He. reflexivity.
Qed.

Lemma step_field_type kind f ty obj :
  nonempty kind = true -> (f =? "") = false -> (ty =? "") = false ->
  run (" "%char :: rest)
      (mk (hp ++ [obj]) sc scal (Some (List.length hp)) St_fields kind
          Fs_dtype ty f false false bl) =
  run rest
      (mk (hp ++ [GraphQLSchema.add_field f ty obj]) sc scal
          (Some (List.length hp)) St_fields kind Fs_field "" "" false false bl).
Proof.
  intros Hk Hf Hty. delim_step Hbl. rewrite Hk, Hty. simpl.
  unfold nonempty. rewrite Hf. simpl.
  rewrite nth_error_app_new. simpl. rewrite update_nth_last. reflexivity.
Qed.

Lemma step_enum_value v cf obj :
  (v =? "") = false ->
  run (" "%char :: rest)
      (mk (hp ++ [obj]) sc scal (Some (List.length hp)) St_fields "enum"
          Fs_field v cf false false bl) =
  run rest
      (mk (hp ++ [GraphQLSchema.add_field v "" obj]) sc scal
          (Some (List.length hp)) St_fields "enum" Fs_field "" cf false false bl).
Proof.
  intros Hv. delim_step Hbl. rewrite Hv. simpl.
  rewrite nth_error_app_new. simpl. rewrite update_nth_last. reflexivity.
Qed.

Lemma step_close kind fs cf obj :
  nonempty kind = true ->
  run ("}"%char :: rest)
      (mk (hp ++ [obj]) sc scal (Some (List.length hp)) St_fields kind
          fs "" cf false false bl) =
  run rest
      (mk (hp ++ [obj]) (Dict.set (GraphQLSchema.name obj) (List.length hp) sc)
          scal None St_none "" Fs_field "" cf false false bl).
Proof.
  intros Hk. delim_step Hbl. rewrite Hk. simpl.
  rewrite nth_error_app_new. reflexivity.
Qed.

Lemma step_newline_idle hp' sc' scal' cs ct fs cf :
  run (Str.nl :: rest) (mk hp' sc' scal' cs St_none ct fs "" cf false false bl) =
  run rest (mk hp' sc' scal' cs St_none ct fs "" cf false false bl).
Proof. delim_step Hbl. reflexivity. Qed.
End Steps.

Lemma chars_field_text f ty rest :
  (list_ascii_of_string (field_text (f, ty)) ++ rest)%list =
  (list_ascii_of_string f ++
   ":"%char :: " "%char :: list_ascii_of_string ty ++ " "%char :: rest)%list.
Proof.
  unfold field_text. simpl fst. simpl snd.
  rewrite !list_ascii_of_string_app, <- !app_assoc. reflexivity.
Qed.

Lemma chars_value_text v rest :
  (list_ascii_of_string (value_text v) ++ rest)%list =
  (list_ascii_of_string v ++ " "%char :: rest)%list.
Proof.
  unfold value_text. rewrite list_ascii_of_string_app, <- app_assoc. reflexivity.
Qed.

(** the fields of an object body, read one after the other *)
Lemma run_fields hp sc scal kind bl fields :
  (0 <? bl)%Z = false -> nonempty kind = true -> (kind =? "enum") = false ->
  forall obj cf rest,
    forallb (fun ft => name_word (fst ft) && name_word (snd ft)) fields = true ->
    exists cf',
      run (list_ascii_of_string (String.concat "" (map field_text fields)) ++ rest)
          (mk (hp ++ [obj]) sc scal (Some (List.length hp)) St_fields kind
              Fs_field "" cf false false bl) =
      run rest
          (mk (hp ++ [fold_left (fun o ft => GraphQLSchema.add_field (fst ft) (snd ft) o)
                                fields obj])
              sc scal (Some (List.length hp)) St_fields kind Fs_field "" cf'
              false false bl).
Proof.
  intros Hbl Hk He.
  induction fields as [|[f ty] fields IH]; intros obj cf rest Hall.
  - exists cf. reflexivity.
  - simpl in Hall. apply andb_prop in Hall as [Hft Hall].
    apply andb_prop in Hft as [Hf Hty].
    apply name_word_inv in Hf as [Hfne Hfw].
    apply name_word_inv in Hty as [Htne Htw].
    destruct (IH (GraphQLSchema.add_field f ty obj) "" rest Hall) as [cf' IH'].
    exists cf'. cbn [fold_left fst snd map]. rewrite <- IH'. clear IH IH'.
    rewrite concat_cons, list_ascii_of_string_app, <- app_assoc, chars_field_text.
    rewrite run_word_mk by assumption.
    rewrite step_field_name by assumption.
    rewrite step_blank by (assumption || reflexivity).
    rewrite run_word_mk by assumption.
    rewrite step_field_type by assumption.
    reflexivity.
Qed.

(** the values of an enum body *)
Lemma run_values hp sc scal bl values :
  (0 <? bl)%Z = false ->
  forall obj cf rest,
    forallb name_word values = true ->
    run (list_ascii_of_string (String.concat "" (map value_text values)) ++ rest)
        (mk (hp ++ [obj]) sc scal (Some (List.length hp)) St_fields "enum"
            Fs_field "" cf false false bl) =
    run rest
        (mk (hp ++ [fold_left (fun o v => GraphQLSchema.add_field v "" o) values obj])
            sc scal (Some (List.length hp)) St_fields "enum" Fs_field "" cf
            false false bl).
Proof.
  intros Hbl.
  induction values as [|v values IH]; intros obj cf rest Hall; [reflexivity|].
  simpl in Hall. apply andb_prop in Hall as [Hv Hall].
  apply name_word_inv in Hv as [Hvne Hvw].
  cbn [fold_left map]. rewrite <- (IH _ _ _ Hall). clear IH.
  rewrite concat_cons, list_ascii_of_string_app, <- app_assoc, chars_value_text.
  rewrite run_word_mk by assumption.
  rewrite step_enum_value by assumption.
  reflexivity.
Qed.

(** *** Lines *)

Lemma all_chars_app f s1 s2 :
  all_chars f (s1 ++ s2) = all_chars f s1 && all_chars f s2.
Proof.
  induction s1 as [|c s1 IH]; simpl; [reflexivity|].
  rewrite IH, andb_assoc. reflexivity.
Qed.

Lemma word_no_newline s : word s = true -> no_newline s = true.
Proof.
  unfold word, no_newline. induction s as [|c s IH]; simpl; [reflexivity|].
  intros H. apply andb_prop in H as [Hc Hs].
  apply word_char_inv in Hc as [_ [Hn _]]. rewrite Hn, (IH Hs). reflexivity.
Qed.

Lemma name_word_no_newline s : name_word s = true -> no_newline s = true.
Proof. intros H. apply name_word_inv in H as [_ H]. apply word_no_newline, H. Qed.

Lemma fields_no_newline fields :
  forallb (fun ft => name_word (fst ft) && name_word (snd ft)) fields = true ->
  no_newline (String.concat "" (map field_text fields)) = true.
Proof.
  induction fields as [|[f ty] fields IH]; [reflexivity|].
  simpl forallb. intros H. apply andb_prop in H as [Hft Hall].
  apply andb_prop in Hft as [Hf Hty]. cbn [map].
  pose proof (name_word_no_newline _ Hf) as H1.
  pose proof (name_word_no_newline _ Hty) as H2. specialize (IH Hall).
  rewrite concat_cons. unfold no_newline in *. unfold field_text at 1. cbn [fst snd].
  rewrite !all_chars_app, H1, H2, IH. reflexivity.
Qed.

Lemma values_no_newline values :
  forallb name_word values = true ->
  no_newline (String.concat "" (map value_text values)) = true.
Proof.
  induction values as [|v values IH]; [reflexivity|].
  simpl forallb. intros H. apply andb_prop in H as [Hv Hall]. cbn [map].
  pose proof (name_word_no_newline _ Hv) as H1. specialize (IH Hall).
  rewrite concat_cons. unfold no_newline in *. unfold value_text at 1.
  rewrite !all_chars_app, H1, IH. reflexivity.
Qed.

Lemma declaration_line_no_newline d :
  well_formed d = true -> no_newline (declaration_line d) = true.
Proof.
  destruct d as [n|n values|kind n fields]; simpl well_formed; intros H.
  - pose proof (word_no_newline _ H) as H1.
    unfold declaration_line, no_newline in *. rewrite all_chars_app, H1. reflexivity.
  - apply andb_prop in H as [Hn Hv].
    pose proof (word_no_newline _ Hn) as H1.
    pose proof (values_no_newline _ Hv) as H2.
    unfold declaration_line, no_newline in *.
    rewrite !all_chars_app, H1, H2. reflexivity.
  - apply andb_prop in H as [H Hf]. apply andb_prop in H as [Hk Hn].
    assert (Hkw : no_newline kind = true).
    { apply set_in_In in Hk. simpl in Hk.
      destruct Hk as [<-|[<-|[]]]; reflexivity. }
    pose proof (word_no_newline _ Hn) as H1.
    pose proof (fields_no_newline _ Hf) as H2.
    unfold declaration_line, no_newline in *.
    rewrite !all_chars_app, Hkw, H1, H2. reflexivity.
Qed.

(** the text of well-formed declarations has no carriage return: it is read
    from a file as it is *)
Lemma word_no_cr s : word s = true -> no_cr s = true.
Proof.
  unfold word, no_cr. induction s as [|c s IH]; simpl; [reflexivity|].
  intros H. apply andb_prop in H as [Hc Hs]. rewrite (IH Hs), andb_true_r.
  unfold word_char in Hc. apply andb_prop in Hc as [_ Hc].
  apply negb_true_iff in Hc. unfold in_chars in Hc. simpl in Hc.
  repeat (apply orb_false_iff in Hc; destruct Hc as [? Hc]).
  apply negb_true_iff. assumption.
Qed.

Lemma name_word_no_cr s : name_word s = true -> no_cr s = true.
Proof. intros H. apply name_word_inv in H as [_ H]. apply word_no_cr, H. Qed.

Lemma fields_no_cr fields :
  forallb (fun ft => name_word (fst ft) && name_word (snd ft)) fields = true ->
  no_cr (String.concat "" (map field_text fields)) = true.
Proof.
  induction fields as [|[f ty] fields IH]; [reflexivity|].
  simpl forallb. intros H. apply andb_prop in H as [Hft Hall].
  apply andb_prop in Hft as [Hf Hty]. cbn [map].
  pose proof (name_word_no_cr _ Hf) as H1.
  pose proof (name_word_no_cr _ Hty) as H2. specialize (IH Hall).
  rewrite concat_cons. unfold no_cr in *. unfold field_text at 1. cbn [fst snd].
  rewrite !all_chars_app, H1, H2, IH. reflexivity.
Qed.

Lemma values_no_cr values :
  forallb name_word values = true ->
  no_cr (String.concat "" (map value_text values)) = true.
Proof.
  induction values as [|v values IH]; [reflexivity|].
  simpl forallb. intros H. apply andb_prop in H as [Hv Hall]. cbn [map].
  pose proof (name_word_no_cr _ Hv) as H1. specialize (IH Hall).
  rewrite concat_cons. unfold no_cr in *. unfold value_text at 1.
  rewrite !all_chars_app, H1, IH. reflexivity.
Qed.

Lemma declaration_line_no_cr d :
  well_formed d = true -> no_cr (declaration_line d) = true.
Proof.
  destruct d as [n|n values|kind n fields]; simpl well_formed; intros H.
  - pose proof (word_no_cr _ H) as H1.
    unfold declaration_line, no_cr in *. rewrite all_chars_app, H1. reflexivity.
  - apply andb_prop in H as [Hn Hv].
    pose proof (word_no_cr _ Hn) as H1.
    pose proof (values_no_cr _ Hv) as H2.
    unfold declaration_line, no_cr in *.
    rewrite !all_chars_app, H1, H2. reflexivity.
  - apply andb_prop in H as [H Hf]. apply andb_prop in H as [Hk Hn].
    assert (Hkw : no_cr kind = true).
    { apply set_in_In in Hk. simpl in Hk.
      destruct Hk as [<-|[<-|[]]]; reflexivity. }
    pose proof (word_no_cr _ Hn) as H1.
    pose proof (fields_no_cr _ Hf) as H2.
    unfold declaration_line, no_cr in *.
    rewrite !all_chars_app, Hkw, H1, H2. reflexivity.
Qed.

Lemma document_text_no_cr ds :
  forallb well_formed ds = true -> no_cr (document_text ds) = true.
Proof.
  induction ds as [|d ds IH]; [reflexivity|].
  simpl forallb. intros H. apply andb_prop in H as [Hd Hds].
  pose proof (declaration_line_no_cr d Hd) as H1. specialize (IH Hds).
  cbn [document_text]. unfold declaration_text, no_cr in *.
  rewrite !all_chars_app, H1, IH. reflexivity.
Qed.

Lemma read_file_document ds p :
  forallb well_formed ds = true ->
  read_file (document_text ds) p = run (fed false (document_text ds)) p.
Proof.
  intros Hwf.
  rewrite read_file_fed, (universal_newlines_no_cr _ (document_text_no_cr ds Hwf)).
  reflexivity.
Qed.

Lemma fed_line s : forall pending text,
  no_newline s = true ->
  fed pending (s ++ Str.chr Str.nl ++ text) =
  (list_ascii_of_string s ++ Str.nl :: Str.nl :: fed false text)%list.
Proof.
  induction s as [|c s IH]; intros pending text H; [reflexivity|].
  unfold no_newline in H. simpl in H. apply andb_prop in H as [Hc Hs].
  apply negb_true_iff in Hc. simpl. rewrite Hc. f_equal. apply IH. exact Hs.
Qed.

Lemma fold_add_field_name {A} (g : GraphQLSchema.t -> A -> GraphQLSchema.t) l :
  (forall o a, GraphQLSchema.name (g o a) = GraphQLSchema.name o) ->
  forall obj, GraphQLSchema.name (fold_left g l obj) = GraphQLSchema.name obj.
Proof.
  intros Hg. induction l as [|a l IH]; intros obj; simpl; [reflexivity|].
  rewrite IH. apply Hg.
Qed.

Lemma declared_record_name d :
  GraphQLSchema.name (declared_record d) = declared_name d.
Proof.
  destruct d; simpl; [reflexivity| |]; rewrite fold_add_field_name; reflexivity.
Qed.

(** the scalar set after the declaration [d] *)
Lemma declared_scalars_cons d ds scal :
  declared_scalars (d :: ds) scal =
  declared_scalars ds (match d with ScalarDecl n => set_add n scal | _ => scal end).
Proof. destruct d; reflexivity. Qed.

(** one declaration, read from between two declarations *)
Lemma run_declaration d hp sc scal bl rest :
  (0 <? bl)%Z = false -> well_formed d = true ->
  forall cs ct fs cf,
  exists cs' ct' fs' cf',
    run (list_ascii_of_string (declaration_line d) ++ Str.nl :: Str.nl :: rest)
        (mk hp sc scal cs St_none ct fs "" cf false false bl) =
    run rest
        (mk (hp ++ [declared_record d])
            (Dict.set (declared_name d) (List.length hp) sc)
            (match d with ScalarDecl n => set_add n scal | _ => scal end)
            cs' St_none ct' fs' "" cf' false false bl).
Proof.
  intros Hbl Hwf cs ct fs cf.
  destruct d as [n|n values|kind n fields]; simpl well_formed in Hwf.
  - exists (Some (List.length hp)), "", fs, cf.
    change (declaration_line (ScalarDecl n)) with ("scalar" ++ " " ++ n).
    rewrite !list_ascii_of_string_app, <- !app_assoc.
    change (list_ascii_of_string " " ++ ?l)%list with (" "%char :: l).
    rewrite run_word_mk by reflexivity.
    rewrite step_keyword by (assumption || reflexivity).
    rewrite run_word_mk by assumption.
    rewrite step_scalar_name by assumption.
    rewrite step_newline_idle by assumption.
    reflexivity.
  - apply andb_prop in Hwf as [Hn Hv].
    exists None, "", Fs_field, cf.
    change (declaration_line (EnumDecl n values))
      with ("enum" ++ " " ++ n ++ " { " ++
            String.concat "" (map value_text values) ++ "}").
    rewrite !list_ascii_of_string_app, <- !app_assoc.
    change (list_ascii_of_string " " ++ ?l)%list with (" "%char :: l).
    change (list_ascii_of_string " { " ++ ?l)%list
      with (" "%char :: "{"%char :: " "%char :: l).
    change (list_ascii_of_string "}" ++ ?l)%list with ("}"%char :: l).
    rewrite run_word_mk by reflexivity.
    rewrite step_keyword by (assumption || reflexivity).
    rewrite run_word_mk by assumption.
    rewrite step_name by (assumption || reflexivity).
    rewrite step_blank by (assumption || reflexivity).
    rewrite step_blank by (assumption || reflexivity).
    rewrite run_values by assumption.
    rewrite step_close by (assumption || reflexivity).
    rewrite !step_newline_idle by assumption.
    rewrite fold_add_field_name by reflexivity. reflexivity.
  - apply andb_prop in Hwf as [Hwf Hf]. apply andb_prop in Hwf as [Hk Hn].
    assert (Hkind : word kind = true /\ set_in kind keywords = true /\
                    (kind =? "scalar") = false /\ (kind =? "enum") = false /\
                    nonempty kind = true).
    { apply set_in_In in Hk. simpl in Hk.
      destruct Hk as [<-|[<-|[]]]; repeat split; reflexivity. }
    destruct Hkind as [Hkw [Hkk [Hks [Hke Hkn]]]].
    destruct (run_fields hp sc scal kind bl fields Hbl Hkn Hke
                (GraphQLSchema.mk n kind []) cf
                ("}"%char :: Str.nl :: Str.nl :: rest) Hf) as [cf' Hfields].
    exists None, "", Fs_field, cf'.
    change (declaration_line (ObjectDecl kind n fields))
      with (kind ++ " " ++ n ++ " { " ++
            String.concat "" (map field_text fields) ++ "}").
    rewrite !list_ascii_of_string_app, <- !app_assoc.
    change (list_ascii_of_string " " ++ ?l)%list with (" "%char :: l).
    change (list_ascii_of_string " { " ++ ?l)%list
      with (" "%char :: "{"%char :: " "%char :: l).
    change (list_ascii_of_string "}" ++ ?l)%list with ("}"%char :: l).
    rewrite run_word_mk by assumption.
    rewrite step_keyword by assumption.
    rewrite run_word_mk by assumption.
    rewrite step_name by assumption.
    rewrite step_blank by (assumption || reflexivity).
    rewrite step_blank by (assumption || reflexivity).
    rewrite Hfields.
    rewrite step_close by assumption.
    rewrite !step_newline_idle by assumption.
    rewrite fold_add_field_name by reflexivity. reflexivity.
Qed.

Lemma run_document ds : forall hp sc scal bl cs ct fs cf,
  (0 <? bl)%Z = false -> forallb well_formed ds = true ->
  exists cs' ct' fs' cf',
    run (fed false (document_text ds))
        (mk hp sc scal cs St_none ct fs "" cf false false bl) =
    Ok tt (mk (hp ++ map declared_record ds)
              (declared_registry (List.length hp) ds sc)
              (declared_scalars ds scal)
              cs' St_none ct' fs' "" cf' false false bl).
Proof.
  induction ds as [|d ds IH]; intros hp sc scal bl cs ct fs cf Hbl Hall.
  - exists cs, ct, fs, cf. simpl. rewrite app_nil_r. reflexivity.
  - simpl in Hall. apply andb_prop in Hall as [Hd Hall].
    cbn [document_text]. unfold declaration_text.
    rewrite append_assoc, (fed_line _ _ _ (declaration_line_no_newline d Hd)).
    destruct (run_declaration d hp sc scal bl (fed false (document_text ds))
                Hbl Hd cs ct fs cf) as [cs1 [ct1 [fs1 [cf1 Hrun]]]].
    rewrite Hrun.
    destruct (IH (hp ++ [declared_record d])%list
                 (Dict.set (declared_name d) (List.length hp) sc)
                 (match d with ScalarDecl n => set_add n scal | _ => scal end)
                 bl cs1 ct1 fs1 cf1 Hbl Hall) as [cs' [ct' [fs' [cf' IH']]]].
    exists cs', ct', fs', cf'. rewrite IH'.
    rewrite declared_scalars_cons. cbn [map declared_registry].
    rewrite <- app_assoc, length_app, Nat.add_1_r. reflexivity.
Qed.

(** X1: a document made of well-formed declarations, one a line, parses
    without error: the heap holds the declared records in order, with their
    fields added in the order of the text, the registry maps each declared
    name to the last record declared under it, the scalar set has grown by
    the declared scalars, and the parser is back between declarations. *)
Theorem well_formed_document_parses (ds : list Declaration) :
  forallb well_formed ds = true ->
  exists p,
    read_file (document_text ds) init = Ok tt p /\
    heap p = map declared_record ds /\
    schemas p = declared_registry 0 ds [] /\
    scalars p = declared_scalars ds SCALARS /\
    idle p.
Proof.
  intros Hwf. rewrite (read_file_document _ _ Hwf).
  destruct (run_document ds [] [] SCALARS 0%Z None "" Fs_field "" eq_refl Hwf)
    as [cs [ct [fs [cf Hrun]]]].
  eexists. split; [exact Hrun|]. simpl.
  repeat split; reflexivity || (simpl; lia).
Qed.

Lemma well_formed_document_parses_witness :
  exists p,
    read_file (document_text sample_declarations) init = Ok tt p /\
    heap p = map declared_record sample_declarations /\
    schemas p = declared_registry 0 sample_declarations [] /\
    scalars p = declared_scalars sample_declarations SCALARS /\
    idle p.
Proof.
  apply (well_formed_document_parses sample_declarations). reflexivity.
Defined.

(** ** The scalar set and the kinds of the registered records *)

Lemma set_in_set_add x y s :
  set_in x (set_add y s) = set_in x s || (x =? y).
Proof.
  unfold set_add. destruct (set_in y s) eqn:E.
  - destruct (x =? y) eqn:Exy; [|rewrite orb_false_r; reflexivity].
    apply String.eqb_eq in Exy. subst y. rewrite E. reflexivity.
  - unfold set_in. rewrite existsb_app. simpl. rewrite orb_false_r. reflexivity.
Qed.

Lemma step_scalars c p :
  Inv p ->
  scalars (parser_of (read_character c p)) =
  if closes c p then
    match state p with
    | St_name => set_add (current_token p) (scalars p)
    | _ => scalars p
    end
  else scalars p.
Proof.
  intros HI. unfold closes.
  destruct (dispatches c p) eqn:Hd.
  2:{ destruct (read_character_skip _ _ Hd) as [q [-> Hm]]. simpl.
      unfold machine in Hm. congruence. }
  rewrite (read_character_dispatch _ _ Hd). clear Hd. simpl andb.
  unfold dispatch.
  destruct p as [hp sc scal cs st ct fs tok cf cm lc bl]; simpl in *.
  destruct HI as [Hk Hv Hr Hs]; simpl in *.
  destruct st.
  - unfold dispatch_none. unfold_m; simpl. case_ifs; reflexivity.
  - destruct Hs as [Hkw [a [Hcs [Hfresh Ha]]]]. subst cs.
    unfold dispatch_name. unfold_m; simpl.
    destruct (in_chars c [" "%char; Str.nl; "{"%char]); simpl.
    + rewrite Ha; simpl. rewrite andb_true_r.
      destruct (ct =? "scalar"); simpl;
        rewrite ?(nth_error_update_nth_eq _ _ _ _ Ha); reflexivity.
    + rewrite andb_false_r. reflexivity.
  - destruct Hs as [Hkw [a [obj [Hcs [Hfresh [Ha [Hty [Henum Hdt]]]]]]]]. subst cs.
    unfold dispatch_fields. unfold_m; simpl.
    destruct fs; case_ifs; rewrite ?Ha; simpl; reflexivity.
Qed.

Lemma step_closing_kind c p a obj :
  Inv p -> closes c p = true -> current_schema p = Some a ->
  nth_error (heap (parser_of (read_character c p))) a = Some obj ->
  In (GraphQLSchema.type obj) keywords /\
  (GraphQLSchema.type obj = "scalar" -> state p = St_name).
Proof.
  intros HI Hc Hcs. unfold closes in Hc. apply andb_prop in Hc as [Hd Hc].
  rewrite (read_character_dispatch _ _ Hd). clear Hd.
  unfold dispatch.
  destruct p as [hp sc scal cs st ct fs tok cf cm lc bl]; simpl in *.
  destruct HI as [Hk Hv Hr Hs]; simpl in *.
  destruct st; [discriminate| |].
  - apply andb_prop in Hc as [Hct Hin].
    destruct Hs as [Hkw [a' [Hcs' [Hfresh Ha]]]].
    assert (a' = a) by congruence. subst a' cs.
    unfold dispatch_name. unfold_m; simpl.
    rewrite Hin; simpl. rewrite Ha; simpl. rewrite Hct; simpl.
    rewrite (nth_error_update_nth_eq _ _ _ _ Ha); simpl.
    rewrite (nth_error_update_nth_eq _ _ _ _ Ha).
    intros H; injection H as <-. simpl. split; [exact Hkw | reflexivity].
  - destruct Hs as [Hkw [a' [obj' [Hcs' [Hfresh [Ha [Hty [Henum Hdt]]]]]]]].
    assert (a' = a) by congruence. subst a' cs.
    apply Ascii.eqb_eq in Hc. subst c.
    unfold dispatch_fields. unfold_m; simpl.
    assert (Hne : nonempty ct = true).
    { unfold nonempty. apply negb_true_iff, String.eqb_neq. intros ->.
      simpl in Hkw. intuition discriminate. }
    rewrite Hne; simpl. rewrite Ha; simpl. rewrite Ha.
    intros H; injection H as <-. rewrite Hty. split.
    + simpl in *. intuition.
    + intros ->. simpl in Hkw. intuition discriminate.
Qed.

Lemma scalars_cover_init : scalars_cover init.
Proof.
  split.
  - intros s Hs. apply set_in_In. exact Hs.
  - intros k a obj [].
Qed.

Lemma scalars_cover_step c p p' :
  Inv p -> scalars_cover p -> read_character c p = Ok tt p' -> scalars_cover p'.
Proof.
  intros HI [Hb Hreg] Hstep.
  pose proof (step_scalars c p HI) as Hsc. rewrite Hstep in Hsc. simpl in Hsc.
  assert (Hmono : forall s, set_in s (scalars p) = true ->
                            set_in s (scalars p') = true).
  { intros s Hs. rewrite Hsc.
    destruct (closes c p); [|exact Hs].
    destruct (state p); try exact Hs.
    rewrite set_in_set_add, Hs. reflexivity. }
  split; [intros s Hs; apply Hmono, Hb, Hs|].
  intros k b obj Hin Hobj.
  destruct (closes c p) eqn:Hc.
  - destruct (step_closing c p HI Hc)
      as [a [n [q [Hcs [Hfresh [Hn [Hq [Hschemas [_ Hframe]]]]]]]]].
    rewrite Hstep in Hq. injection Hq as <-.
    rewrite Hschemas in Hin. apply dict_in_set in Hin as [[-> ->]|Hin].
    + pose proof (step_closing_kind c p a obj HI Hc Hcs) as Hkind.
      rewrite Hstep in Hkind. destruct (Hkind Hobj) as [Hkw Hst].
      split; [exact Hkw|]. intros Hty. specialize (Hst Hty).
      rewrite Hsc. unfold closing_name in Hn. rewrite Hst in *.
      injection Hn as <-. rewrite set_in_set_add, String.eqb_refl.
      apply orb_true_r.
    + assert (Hba : b <> a).
      { intros ->. apply Hfresh. eapply dict_in_values; exact Hin. }
      rewrite (Hframe b Hba) in Hobj.
      destruct (Hreg k b obj Hin Hobj) as [Hkw Hs]. split; [exact Hkw|].
      intros Hty. apply Hmono, Hs, Hty.
  - pose proof (step_not_closing c p HI Hc) as Hsame.
    rewrite Hstep in Hsame. simpl in Hsame. rewrite Hsame in Hin.
    pose proof (step_heap_frame c p b HI (dict_in_values _ _ _ Hin)) as Hframe.
    rewrite Hstep in Hframe. simpl in Hframe. rewrite Hframe in Hobj.
    destruct (Hreg k b obj Hin Hobj) as [Hkw Hs]. split; [exact Hkw|].
    intros Hty. apply Hmono, Hs, Hty.
Qed.

Lemma scalars_cover_run l : forall p p',
  Inv p -> scalars_cover p -> run l p = Ok tt p' -> scalars_cover p'.
Proof.
  induction l as [|c l IH]; intros p p' HI Hcov.
  - intros H; injection H as <-. exact Hcov.
  - rewrite run_cons.
    destruct (read_character c p) as [[] q|e q] eqn:E; [|discriminate].
    apply IH; [eapply Inv_step | eapply scalars_cover_step]; eassumption.
Qed.

(** X2: after any run of the parser, the scalar set still holds the five
    built-in scalars; every entry of the registry refers to a record that
    bears the entry's key as its name and has one of the kinds [type],
    [input], [enum] and [scalar]; and the name of every registered scalar
    record is in the scalar set. *)
Theorem registry_names_kinds_and_scalars (l : list ascii) (p : t) :
  run l init = Ok tt p ->
  (forall s, In s SCALARS -> set_in s (scalars p) = true) /\
  forall k a, In (k, a) (schemas p) ->
    exists obj,
      nth_error (heap p) a = Some obj /\
      GraphQLSchema.name obj = k /\
      In (GraphQLSchema.type obj) keywords /\
      (GraphQLSchema.type obj = "scalar" -> set_in k (scalars p) = true).
Proof.
  intros Hrun.
  pose proof (Inv_run _ _ _ Inv_init Hrun) as HI.
  destruct (scalars_cover_run _ _ _ Inv_init scalars_cover_init Hrun) as [Hb Hreg].
  split; [exact Hb|]. intros k a Hin.
  destruct (inv_registry p HI k a Hin) as [obj [Ho [Hname _]]].
  exists obj. destruct (Hreg k a obj Hin Ho) as [Hkw Hs]. auto.
Qed.

Lemma registry_names_kinds_and_scalars_witness :
  set_in "ID" (scalars (parser_of (read_file entrypoints_document init))) = true /\
  exists obj,
    nth_error (heap (parser_of (read_file entrypoints_document init))) 0 = Some obj /\
    GraphQLSchema.name obj = "Foo" /\
    In (GraphQLSchema.type obj) keywords /\
    (GraphQLSchema.type obj = "scalar" ->
     set_in "Foo" (scalars (parser_of (read_file entrypoints_document init))) = true).
Proof.
  destruct (registry_names_kinds_and_scalars
              (fed false entrypoints_document)
              (parser_of (read_file entrypoints_document init))
              ltac:(vm_compute; reflexivity)) as [Hb Hreg].
  split.
  - apply Hb. vm_compute. auto 10.
  - apply (Hreg "Foo" 0). vm_compute. auto.
Defined.

(** ** When rendering a record raises *)

Lemma emap_inl {A B} (f : A -> exn + B) l e :
  emap f l = inl e -> exists x, In x l /\ f x = inl e.
Proof.
  induction l as [|a l IH]; simpl; [discriminate|].
  unfold ebind. destruct (f a) as [e'|b] eqn:Ea.
  - intros H. injection H as <-. exists a. auto.
  - destruct (emap f l) as [e'|bs]; [|discriminate].
    intros H. destruct (IH H) as [x [Hx Hfx]]. exists x. auto.
Qed.

Lemma emap_inr {A B} (f : A -> exn + B) l :
  (forall x, In x l -> exists y, f x = inr y) -> exists ys, emap f l = inr ys.
Proof.
  induction l as [|a l IH]; intros H; simpl; [eauto|].
  destruct (H a (or_introl eq_refl)) as [y Hy]. unfold ebind. rewrite Hy.
  destruct IH as [ys Hys]; [intros x Hx; apply H; right; exact Hx|].
  rewrite Hys. eauto.
Qed.

Lemma dict_in_get {V} k (v : V) d : In (k, v) d -> exists v', Dict.get k d = Some v'.
Proof.
  induction d as [|[k0 v0] d IH]; simpl; [intros []|].
  intros [H|H]; destruct (k0 =? k) eqn:E; eauto.
  injection H as -> ->. rewrite String.eqb_refl in E. discriminate.
Qed.

Lemma dtype_markdown_inl self scalars field dtype e :
  In (field, dtype) (GraphQLSchema.fields self) ->
  GraphQLSchema.dtype_markdown self scalars field dtype = inl e ->
  e = EmptySeparator /\
  exists dtype', Dict.get field (GraphQLSchema.fields self) = Some dtype' /\
                 GraphQLSchema.strip_markers dtype' = "" /\
                 set_in "" scalars = false.
Proof.
  intros Hin. destruct (dict_in_get _ _ _ Hin) as [dtype' Hget].
  unfold GraphQLSchema.dtype_markdown, GraphQLSchema.get_type_id. rewrite Hget.
  simpl. destruct (set_in (GraphQLSchema.strip_markers dtype') scalars) eqn:Es;
    simpl; [discriminate|].
  unfold Str.split.
  destruct (GraphQLSchema.strip_markers dtype' =? "") eqn:E; simpl; [|discriminate].
  apply String.eqb_eq in E. intros H. injection H as <-.
  split; [reflexivity|]. exists dtype'. rewrite E in Es. auto.
Qed.

(** X3: rendering a record raises nothing but the empty-separator
    [ValueError] of [split], and only for a record that is neither a scalar
    nor an enum and has a field whose type expression consists of [!], [[]
    and []] alone, the empty identifier not being a known scalar. *)
Theorem record_rendering_raises_only_on_empty_identifier
    (self : GraphQLSchema.t) (title_prefix : string)
    (scalars : option (list string)) (e : exn) :
  GraphQLSchema.to_markdown self title_prefix scalars = inl e ->
  e = EmptySeparator /\
  GraphQLSchema.type self <> "scalar" /\ GraphQLSchema.type self <> "enum" /\
  exists field dtype,
    Dict.get field (GraphQLSchema.fields self) = Some dtype /\
    GraphQLSchema.strip_markers dtype = "" /\
    set_in "" (effective_scalars scalars) = false.
Proof.
  unfold GraphQLSchema.to_markdown. fold (effective_scalars scalars).
  destruct (GraphQLSchema.type self =? "scalar") eqn:Es; [discriminate|].
  destruct (GraphQLSchema.type self =? "enum") eqn:Ee; [discriminate|].
  apply String.eqb_neq in Es, Ee. unfold ebind at 1.
  destruct (ebind (emap _ _) _) as [e'|r] eqn:E; [|destruct r as [[? ?] ?]; discriminate].
  intros H. injection H as <-. unfold ebind in E.
  destruct (emap _ _) as [e''|table] eqn:Em; [|discriminate].
  injection E as <-. apply emap_inl in Em as [[field dtype] [Hin Hrow]].
  unfold GraphQLSchema.field_row, ebind in Hrow.
  destruct (GraphQLSchema.dtype_markdown self (effective_scalars scalars) field dtype)
    as [e1|md] eqn:Ed; [|discriminate].
  injection Hrow as <-.
  destruct (dtype_markdown_inl _ _ _ _ _ Hin Ed) as [-> [dtype' [Hget [Hstrip Hset]]]].
  repeat split; try assumption. exists field, dtype'. auto.
Qed.

Lemma record_rendering_raises_only_on_empty_identifier_witness :
  EmptySeparator = EmptySeparator /\
  GraphQLSchema.type markers_only_record <> "scalar" /\
  GraphQLSchema.type markers_only_record <> "enum" /\
  exists field dtype,
    Dict.get field (GraphQLSchema.fields markers_only_record) = Some dtype /\
    GraphQLSchema.strip_markers dtype = "" /\
    set_in "" (effective_scalars None) = false.
Proof.
  apply (record_rendering_raises_only_on_empty_identifier
           markers_only_record "##" None EmptySeparator).
  reflexivity.
Defined.

(** X4: a record all of whose fields have a non-empty bare type identifier
    is rendered without an exception, whatever the scalar set. *)
Theorem record_rendering_succeeds
    (self : GraphQLSchema.t) (title_prefix : string)
    (scalars : option (list string)) :
  (forall field dtype,
     Dict.get field (GraphQLSchema.fields self) = Some dtype ->
     GraphQLSchema.strip_markers dtype <> "") ->
  exists md, GraphQLSchema.to_markdown self title_prefix scalars = inr md.
Proof.
  intros Hall. unfold GraphQLSchema.to_markdown. fold (effective_scalars scalars).
  destruct (GraphQLSchema.type self =? "scalar"); [eauto|].
  destruct (GraphQLSchema.type self =? "enum"); [simpl; eauto|].
  destruct (emap_inr (GraphQLSchema.field_row self (effective_scalars scalars))
              (Dict.items (GraphQLSchema.fields self))) as [table Htable].
  - intros [field dtype] Hin.
    destruct (GraphQLSchema.dtype_markdown self (effective_scalars scalars) field dtype)
      as [e|md] eqn:Ed.
    + destruct (dtype_markdown_inl _ _ _ _ _ Hin Ed) as [_ [dtype' [Hget [Hs _]]]].
      exfalso. exact (Hall field dtype' Hget Hs).
    + unfold GraphQLSchema.field_row, ebind. rewrite Ed. eauto.
  - rewrite Htable. simpl. eauto.
Qed.

Lemma record_rendering_succeeds_witness :
  exists md,
    GraphQLSchema.to_markdown
      (GraphQLSchema.add_field "tags" "[Tag!]!" (GraphQLSchema.init "Post" "type"))
      "##" None = inr md.
Proof.
  apply (record_rendering_succeeds
           (GraphQLSchema.add_field "tags" "[Tag!]!" (GraphQLSchema.init "Post" "type"))
           "##" None).
  intros field dtype. simpl.
  destruct ("tags" =? field); [|discriminate].
  intros H. injection H as <-. vm_compute. discriminate.
Defined.

(** ** The Markdown of a type expression *)

Lemma rev_app s t : Str.rev (s ++ t) = Str.rev t ++ Str.rev s.
Proof.
  induction s as [|c s IH]; simpl; [rewrite append_empty_r; reflexivity|].
  rewrite IH, append_assoc. reflexivity.
Qed.

Lemma rev_involutive s : Str.rev (Str.rev s) = s.
Proof.
  induction s as [|c s IH]; simpl; [reflexivity|].
  rewrite rev_app, IH. reflexivity.
Qed.

Lemma all_chars_rev f s : all_chars f (Str.rev s) = all_chars f s.
Proof.
  induction s as [|c s IH]; simpl; [reflexivity|].
  rewrite all_chars_app, IH. simpl. rewrite andb_true_r. apply andb_comm.
Qed.

Lemma prefix_app s t : prefix s (s ++ t) = true.
Proof.
  induction s as [|c s IH]; simpl; [destruct t; reflexivity|].
  destruct (ascii_dec c c); [exact IH | congruence].
Qed.

Lemma prefix_heads_differ f s x :
  s <> "" -> x <> "" ->
  all_chars (fun c => negb (f c)) s = true -> all_chars f x = true ->
  prefix s x = false.
Proof.
  destruct s as [|a s]; [congruence|]. destruct x as [|b x]; [congruence|].
  intros _ _ Hs Hx. simpl in *. apply andb_prop in Hs as [Ha _].
  apply andb_prop in Hx as [Hb _]. apply negb_true_iff in Ha.
  destruct (ascii_dec a b); [congruence | reflexivity].
Qed.

Lemma prefix_marker_head ident c rest :
  ident <> "" -> all_chars (fun c => negb (is_marker c)) ident = true ->
  is_marker c = true ->
  prefix ident (String c rest) = false.
Proof.
  destruct ident as [|a ident]; [congruence|]. intros _ Hs Hc. simpl in *.
  apply andb_prop in Hs as [Ha _]. apply negb_true_iff in Ha.
  destruct (ascii_dec a c); [congruence | reflexivity].
Qed.

Lemma split_from_markers ident :
  ident <> "" -> all_chars (fun c => negb (is_marker c)) ident = true ->
  forall markers cur rest,
    all_chars is_marker markers = true ->
    Str.split_from ident 0 cur (markers ++ rest) =
    Str.split_from ident 0 (cur ++ markers) rest.
Proof.
  intros Hne Hid. induction markers as [|c markers IH]; intros cur rest Hm.
  - rewrite append_empty_r. reflexivity.
  - simpl in Hm. apply andb_prop in Hm as [Hc Hm].
    change (String c markers ++ rest) with (String c (markers ++ rest)).
    cbn [Str.split_from].
    rewrite (prefix_marker_head ident c _ Hne Hid Hc).
    rewrite (IH _ _ Hm), append_assoc. reflexivity.
Qed.

Lemma split_from_skip sep s : forall cur rest,
  Str.split_from sep (String.length s) cur (s ++ rest) =
  Str.split_from sep 0 cur rest.
Proof.
  induction s as [|c s IH]; intros cur rest; simpl.
  - destruct rest; reflexivity.
  - apply IH.
Qed.

Lemma split_wrapped ident opening closing :
  ident <> "" -> all_chars (fun c => negb (is_marker c)) ident = true ->
  all_chars is_marker opening = true -> all_chars is_marker closing = true ->
  Str.split (opening ++ ident ++ closing) ident = inr [opening; closing].
Proof.
  intros Hne Hid Hop Hcl. unfold Str.split.
  apply String.eqb_neq in Hne as Hne'. rewrite Hne'. f_equal.
  rewrite (split_from_markers ident Hne Hid opening "" _ Hop). simpl.
  destruct ident as [|a ident]; [congruence|].
  change (String a ident ++ closing) with (String a (ident ++ closing)).
  cbn [Str.split_from].
  change (String a (ident ++ closing)) with (String a ident ++ closing).
  rewrite prefix_app. f_equal.
  replace (String.length (String a ident) - 1) with (String.length ident)
    by (simpl; lia).
  rewrite split_from_skip.
  rewrite <- (append_empty_r closing) at 1.
  rewrite (split_from_markers (String a ident) Hne Hid closing "" "" Hcl).
  reflexivity.
Qed.

Lemma startswith_wrapped ident opening closing :
  ident <> "" -> all_chars (fun c => negb (is_marker c)) ident = true ->
  all_chars is_marker opening = true ->
  Str.startswith (opening ++ ident ++ closing) ident = (opening =? "").
Proof.
  intros Hne Hid Hop. unfold Str.startswith.
  destruct opening as [|c opening]; simpl append.
  - apply prefix_app.
  - simpl in Hop. apply andb_prop in Hop as [Hc _].
    apply prefix_marker_head; assumption.
Qed.

Lemma endswith_wrapped ident opening closing :
  ident <> "" -> all_chars (fun c => negb (is_marker c)) ident = true ->
  all_chars is_marker closing = true ->
  Str.endswith (opening ++ ident ++ closing) ident = (closing =? "").
Proof.
  intros Hne Hid Hcl. unfold Str.endswith.
  rewrite !rev_app, append_assoc.
  destruct closing as [|c closing].
  - simpl. apply prefix_app.
  - change (String c closing =? "") with false.
    assert (Hr : Str.rev (String c closing) <> "").
    { simpl. destruct (Str.rev closing); discriminate. }
    destruct (Str.rev (String c closing)) as [|b r] eqn:Er; [congruence|].
    assert (Hb : is_marker b = true).
    { pose proof (all_chars_rev is_marker (String c closing)) as H.
      rewrite Er, Hcl in H. simpl in H. apply andb_prop in H as [H _]. exact H. }
    change (String b r ++ Str.rev ident ++ Str.rev opening)
      with (String b (r ++ Str.rev ident ++ Str.rev opening)).
    apply prefix_marker_head; [| |exact Hb].
    + intros H. apply Hne. rewrite <- (rev_involutive ident), H. reflexivity.
    + rewrite all_chars_rev. exact Hid.
Qed.

Lemma rstrip_backtick_after s c :
  Ascii.eqb c Str.backtick = false ->
  Str.rstrip Str.backtick (s ++ String c "`") = s ++ Str.chr c.
Proof.
  intros Hc. unfold Str.rstrip. rewrite rev_app. simpl. rewrite Hc.
  change (String c (Str.rev s)) with (Str.chr c ++ Str.rev s).
  rewrite <- (rev_involutive (Str.chr c ++ Str.rev s)) at 1.
  rewrite rev_involutive, rev_app, rev_involutive. reflexivity.
Qed.

Lemma strip_markers_wrapped opening ident closing :
  all_chars (fun c => negb (is_marker c)) ident = true ->
  all_chars is_marker opening = true -> all_chars is_marker closing = true ->
  GraphQLSchema.strip_markers (opening ++ ident ++ closing) = ident.
Proof.
  intros Hid Hop Hcl.
  rewrite (strip_markers_markers _ _ Hop), (strip_markers_bare _ _ Hid).
  rewrite <- (append_empty_r closing), (strip_markers_markers _ _ Hcl).
  apply append_empty_r.
Qed.

Lemma link_separator ident :
  "`[<ins>`" ++ ident ++ "`</ins>](#" ++ Str.lower ident ++ ")`" =
  "`" ++ cross_link ident ++ "`".
Proof.
  unfold cross_link. rewrite !append_assoc. reflexivity.
Qed.

Lemma rstrip_cross_link s ident :
  Str.rstrip Str.backtick (s ++ cross_link ident ++ "`") = s ++ cross_link ident.
Proof.
  unfold cross_link.
  replace (s ++ ("[<ins>`" ++ ident ++ "`</ins>](#" ++ Str.lower ident ++ ")") ++ "`")
    with ((s ++ "[<ins>`" ++ ident ++ "`</ins>](#" ++ Str.lower ident) ++ ")`")
    by (rewrite !append_assoc; reflexivity).
  rewrite rstrip_backtick_after by reflexivity.
  rewrite !append_assoc. reflexivity.
Qed.

(** X5: a field whose type expression is a bare identifier that is not a
    known scalar, wrapped in list and non-null markers, is rendered as a
    cross-link to the identifier's section; the markers before and after it
    stay outside the link, each group in a fixed-width span of its own. *)
Theorem dtype_markdown_cross_link (self : GraphQLSchema.t)
    (scalars : list string) (field opening ident closing : string) :
  ident <> "" ->
  all_chars (fun c => negb (is_marker c)) ident = true ->
  all_chars is_marker opening = true ->
  all_chars is_marker closing = true ->
  Dict.get field (GraphQLSchema.fields self) = Some (opening ++ ident ++ closing) ->
  set_in ident scalars = false ->
  GraphQLSchema.dtype_markdown self scalars field (opening ++ ident ++ closing) =
  inr (marker_span opening ++ cross_link ident ++ marker_span closing).
Proof.
  intros Hne Hid Hop Hcl Hget Hset.
  unfold GraphQLSchema.dtype_markdown, GraphQLSchema.get_type_id.
  rewrite Hget. cbn [ebind].
  rewrite (strip_markers_wrapped _ _ _ Hid Hop Hcl), Hset. cbn [negb].
  rewrite (split_wrapped _ _ _ Hne Hid Hop Hcl). cbn [ebind].
  rewrite (startswith_wrapped _ _ _ Hne Hid Hop),
    (endswith_wrapped _ _ _ Hne Hid Hcl).
  rewrite link_separator. f_equal. unfold Str.join, marker_span.
  cbn [String.concat].
  destruct opening as [|o opening]; destruct closing as [|c closing].
  - change ("" =? "") with true. cbn iota.
    change ("" ++ ("`" ++ cross_link ident ++ "`") ++ "")
      with ("`" ++ (cross_link ident ++ "`") ++ "").
    rewrite append_empty_r.
    change (Str.lstrip Str.backtick ("`" ++ cross_link ident ++ "`"))
      with (cross_link ident ++ "`").
    rewrite <- (rstrip_cross_link "" ident) at 2.
    rewrite append_empty_r. reflexivity.
  - change ("" =? "") with true. change (String c closing =? "") with false.
    cbn iota.
    change (Str.lstrip Str.backtick
              ("" ++ ("`" ++ cross_link ident ++ "`") ++ String c closing))
      with ((cross_link ident ++ "`") ++ String c closing).
    rewrite !append_assoc. reflexivity.
  - change ("" =? "") with true. change (String o opening =? "") with false.
    cbn iota. rewrite append_empty_r.
    replace ("`" ++ String o opening ++ "`" ++ cross_link ident ++ "`")
      with (("`" ++ String o opening ++ "`") ++ cross_link ident ++ "`")
      by (rewrite !append_assoc; reflexivity).
    rewrite rstrip_cross_link, append_empty_r. reflexivity.
  - change (String o opening =? "") with false.
    change (String c closing =? "") with false. cbn iota.
    rewrite !append_assoc. reflexivity.
Qed.

Lemma dtype_markdown_cross_link_witness :
  GraphQLSchema.dtype_markdown
    (GraphQLSchema.add_field "tags" "[Tag!]!" (GraphQLSchema.init "Post" "type"))
    SCALARS "tags" ("[" ++ "Tag" ++ "!]!") =
  inr (marker_span "[" ++ cross_link "Tag" ++ marker_span "!]!").
Proof.
  apply (dtype_markdown_cross_link _ SCALARS "tags" "[" "Tag" "!]!");
    reflexivity || discriminate.
Defined.

(** ** The exceptions of a step *)

Lemma delimiters_fields c :
  in_chars c [":"; "{"; "}"; Str.nl; " "; "="]%char = in_chars c delimiters.
Proof.
  unfold in_chars, delimiters. simpl.
  destruct (Ascii.eqb c ":"), (Ascii.eqb c "{"), (Ascii.eqb c "}"),
    (Ascii.eqb c Str.nl), (Ascii.eqb c " "), (Ascii.eqb c "="); reflexivity.
Qed.

Lemma field_delimiters_perm c :
  in_chars c [" "; ":"; Str.nl]%char = in_chars c [":"; " "; Str.nl]%char.
Proof.
  unfold in_chars. simpl.
  destruct (Ascii.eqb c ":"), (Ascii.eqb c Str.nl), (Ascii.eqb c " "); reflexivity.
Qed.

Lemma step_outcome c p :
  Inv p -> dispatches c p = true ->
  (rejected c p = true /\
   read_character c p = Raise AssertionError (set_comment false p)) \/
  (rejected c p = false /\ unknown_token p = true /\
   read_character c p =
     Raise (UnexpectedToken (current_token p)) (set_comment false p)) \/
  (rejected c p = false /\ unknown_token p = false /\
   exists p', read_character c p = Ok tt p').
Proof.
  intros HI Hd. rewrite (read_character_dispatch _ _ Hd).
  assert (Hdel : in_chars c delimiters = true).
  { unfold dispatches in Hd. apply andb_prop in Hd as [Hd _].
    apply andb_prop in Hd as [_ Hd]. exact Hd. }
  clear Hd.
  unfold rejected, unknown_token, dispatch.
  destruct p as [hp sc scal cs st ct fs tok cf cm lc bl]; simpl in *.
  destruct HI as [Hk Hv Hr Hs]; simpl in *.
  destruct st.
  - unfold dispatch_none. unfold_m; simpl. unfold nonempty.
    destruct (in_chars c [" "%char; Str.nl]); simpl; [|left; auto].
    destruct (tok =? ""); simpl; [right; right; eauto|].
    destruct (set_in tok keywords); simpl; [right; right; eauto | right; left; auto].
  - destruct Hs as [Hkw [a [Hcs [Hfresh Ha]]]]. subst cs.
    unfold dispatch_name. unfold_m; simpl.
    destruct (in_chars c [" "%char; Str.nl; "{"%char]); simpl; [|left; auto].
    rewrite Ha; simpl.
    destruct (ct =? "scalar"); simpl;
      rewrite ?(nth_error_update_nth_eq _ _ _ _ Ha); simpl; right; right; eauto.
  - destruct Hs as [Hkw [a [obj [Hcs [Hfresh [Ha [Hty [Henum Hdt]]]]]]]]. subst cs.
    assert (Hne : nonempty ct = true).
    { unfold nonempty. apply negb_true_iff, String.eqb_neq. intros ->.
      simpl in Hkw. intuition discriminate. }
    unfold dispatch_fields. unfold_m; simpl.
    rewrite delimiters_fields, Hdel. simpl. rewrite Hne. simpl.
    unfold nonempty.
    destruct (Ascii.eqb c "}"); simpl; [rewrite Ha; simpl; right; right; eauto|].
    destruct (Ascii.eqb c "="); simpl; [right; right; eauto|].
    destruct (tok =? ""); simpl; [right; right; eauto|].
    destruct (in_chars c [" "%char; ":"%char; Str.nl; "="%char]); simpl;
      [|left; auto].
    rewrite field_delimiters_perm.
    destruct fs; simpl.
    + destruct (in_chars c [":"%char; " "%char; Str.nl]); simpl;
        [|right; right; eauto].
      destruct (ct =? "enum"); simpl.
      * destruct (in_chars c [" "%char; Str.nl]); simpl; [|left; auto].
        rewrite Ha; simpl. right; right; eauto.
      * right; right; eauto.
    + destruct (in_chars c [Str.nl; " "%char]); simpl; [|right; right; eauto].
      assert (Hcf : nonempty cf = true).
      { unfold nonempty. apply negb_true_iff, String.eqb_neq. auto. }
      unfold nonempty in Hcf. rewrite Hcf. simpl. rewrite Ha. simpl.
      right; right; eauto.
Qed.

(** X6: on a parser reached by a run, a character raises in two cases only,
    both at a delimiter read by the state machine: an [AssertionError] when
    the delimiter is not one the current state accepts, and otherwise the
    unexpected-token [ValueError] when, between declarations, the token is
    not empty and not a declaration keyword.  In every other case the
    character is read without an exception; in particular no assertion on
    the current record, type or field name ever fails. *)
Theorem step_raises_exactly (l : list ascii) (p : t) (c : ascii) :
  run l init = Ok tt p ->
  if dispatches c p && rejected c p then
    read_character c p = Raise AssertionError (set_comment false p)
  else if dispatches c p && unknown_token p then
    read_character c p =
      Raise (UnexpectedToken (current_token p)) (set_comment false p)
  else exists p', read_character c p = Ok tt p'.
Proof.
  intros Hrun. pose proof (Inv_run _ _ _ Inv_init Hrun) as HI.
  destruct (dispatches c p) eqn:Hd; simpl.
  - destruct (step_outcome c p HI Hd) as [[-> H]|[[-> [-> H]]|[-> [-> H]]]];
      exact H.
  - destruct (read_character_skip _ _ Hd) as [q [Hq _]]. eauto.
Qed.

Lemma step_raises_exactly_witness :
  read_character ":" (parser_of (run (list_ascii_of_string "type A") init)) =
    Raise AssertionError
      (set_comment false (parser_of (run (list_ascii_of_string "type A") init))) /\
  read_character " " (parser_of (run (list_ascii_of_string "interface") init)) =
    Raise (UnexpectedToken "interface")
      (set_comment false (parser_of (run (list_ascii_of_string "interface") init))).
Proof.
  split.
  - pose proof (step_raises_exactly (list_ascii_of_string "type A")
                  (parser_of (run (list_ascii_of_string "type A") init)) ":"
                  ltac:(vm_compute; reflexivity)) as H.
    vm_compute in H. vm_compute. exact H.
  - pose proof (step_raises_exactly (list_ascii_of_string "interface")
                  (parser_of (run (list_ascii_of_string "interface") init)) " "
                  ltac:(vm_compute; reflexivity)) as H.
    vm_compute in H. vm_compute. exact H.
Defined.

(** ** Parenthesised text *)

Lemma not_sentinel_with s c t :
  Ascii.eqb c Str.dquote = false -> (s ++ String c t =? sentinel) = false.
Proof.
  intros Hc. apply String.eqb_neq. intros H.
  assert (Hall : all_chars (fun x => Ascii.eqb x Str.dquote) (s ++ String c t) = true)
    by (rewrite H; reflexivity).
  rewrite all_chars_app in Hall. simpl in Hall. rewrite Hc in Hall.
  rewrite andb_false_r in Hall. discriminate.
Qed.

Lemma argument_char_inv c :
  argument_char c = true ->
  Ascii.eqb c "#" = false /\ Ascii.eqb c "(" = false /\ Ascii.eqb c ")" = false.
Proof.
  unfold argument_char, in_chars. simpl. intros H. apply negb_true_iff in H.
  repeat (apply orb_false_iff in H; destruct H as [? H]). auto.
Qed.

Lemma read_inside_parentheses c hp sc scal cs st ct fs tok inner cf lc bl :
  (0 < bl)%Z -> argument_char c = true ->
  read_character c (mk hp sc scal cs st ct fs (tok ++ String "(" inner) cf false lc bl) =
  Ok tt (mk hp sc scal cs st ct fs (tok ++ String "(" (inner ++ Str.chr c))
            cf false lc bl).
Proof.
  intros Hb Hc. apply argument_char_inv in Hc as [H1 [H2 H3]].
  apply Z.ltb_lt in Hb.
  unfold read_character. unfold_m. rewrite H1.
  destruct (Ascii.eqb c Str.nl); simpl; rewrite Hb, H2, H3; simpl;
    rewrite append_assoc; simpl;
    rewrite (not_sentinel_with tok "(" (inner ++ Str.chr c)) by reflexivity;
    reflexivity.
Qed.

Lemma run_inside_parentheses hp sc scal cs st ct fs tok cf lc bl text :
  (0 < bl)%Z ->
  forall inner,
    all_chars argument_char text = true ->
    run (list_ascii_of_string text)
        (mk hp sc scal cs st ct fs (tok ++ String "(" inner) cf false lc bl) =
    Ok tt (mk hp sc scal cs st ct fs (tok ++ String "(" (inner ++ text))
              cf false lc bl).
Proof.
  intros Hb. induction text as [|c text IH]; intros inner Hall.
  - rewrite append_empty_r. reflexivity.
  - simpl in Hall. apply andb_prop in Hall as [Hc Hall].
    cbn [list_ascii_of_string]. rewrite run_cons.
    rewrite (read_inside_parentheses c _ _ _ _ _ _ _ _ _ _ _ _ Hb Hc).
    rewrite (IH _ Hall), append_assoc. reflexivity.
Qed.

(** X7: an opening parenthesis read outside a line comment at a bracket
    level that is not negative, the text up to the closing parenthesis (any
    characters but [#] and parentheses: spaces, colons, braces, [=], quotes
    and newlines included) and the closing parenthesis are all appended to
    the current token; nothing is dispatched to the state machine, and the
    bracket level is back where it was. *)
Theorem parenthesised_text_joins_token (p : t) (text : string) :
  comment p = false -> (0 <= bracket_level p)%Z ->
  all_chars argument_char text = true ->
  run (list_ascii_of_string ("(" ++ text ++ ")")) p =
  Ok tt (set_current_token (current_token p ++ "(" ++ text ++ ")") p).
Proof.
  intros Hc Hb Hall.
  destruct p as [hp sc scal cs st ct fs tok cf cm lc bl]; simpl in Hc, Hb. subst cm.
  change (list_ascii_of_string ("(" ++ text ++ ")"))
    with ("("%char :: list_ascii_of_string (text ++ ")")).
  rewrite run_cons.
  assert (Hopen : read_character "("
            (mk hp sc scal cs st ct fs tok cf false lc bl) =
          Ok tt (mk hp sc scal cs st ct fs (tok ++ String "(" "") cf false lc (bl + 1))).
  { unfold read_character. unfold_m. simpl.
    change (in_chars "(" delimiters) with false. rewrite orb_true_r. simpl.
    unfold Str.chr.
    rewrite (not_sentinel_with tok "(" "") by reflexivity. reflexivity. }
  rewrite Hopen, list_ascii_of_string_app, run_app.
  rewrite (run_inside_parentheses _ _ _ _ _ _ _ _ _ _ (bl + 1) text) by (lia || assumption).
  change (list_ascii_of_string ")") with [")"%char]. rewrite run_cons.
  assert (Hclose : read_character ")"
            (mk hp sc scal cs st ct fs (tok ++ String "(" ("" ++ text)) cf false lc (bl + 1)) =
          Ok tt (mk hp sc scal cs st ct fs (tok ++ String "(" (text ++ ")")) cf false lc bl)).
  { unfold read_character. unfold_m. simpl.
    change (in_chars ")" delimiters) with false. rewrite orb_true_r. simpl.
    unfold Str.chr. rewrite append_assoc. simpl.
    rewrite (not_sentinel_with tok "(" (text ++ ")")) by reflexivity.
    replace (bl + 1 - 1)%Z with bl by lia. reflexivity. }
  rewrite Hclose. reflexivity.
Qed.

Lemma parenthesised_text_joins_token_witness :
  run (list_ascii_of_string ("(" ++ "id: ID = 1, tags: [String]" ++ ")"))
      (set_current_token "user" init) =
  Ok tt (set_current_token ("user" ++ "(" ++ "id: ID = 1, tags: [String]" ++ ")")
           (set_current_token "user" init)).
Proof.
  apply (parenthesised_text_joins_token (set_current_token "user" init)
           "id: ID = 1, tags: [String]");
    [reflexivity | simpl; lia | reflexivity].
Defined.

(** ** Default values *)

Lemma run_in_comment body : forall p rest,
  no_newline body = true ->
  run (list_ascii_of_string body ++ rest) (set_comment true p) =
  run rest (set_comment true p).
Proof.
  induction body as [|c body IH]; intros p rest H; [reflexivity|].
  unfold no_newline in H. simpl in H. apply andb_prop in H as [Hc Hb].
  apply negb_true_iff in Hc.
  cbn [list_ascii_of_string app]. rewrite run_cons, (read_in_comment _ _ Hc).
  apply IH. exact Hb.
Qed.

(** X8: in a body, an [=] read by the state machine starts a comment that
    lasts to the end of the line: the characters up to the next newline are
    not read, and the token that was in the buffer when the [=] came is
    dropped without being recorded. *)
Theorem equals_skips_rest_of_line (p : t) (body : string) (rest : list ascii) :
  state p = St_fields -> nonempty (current_type p) = true ->
  dispatches "=" p = true -> no_newline body = true ->
  run ("="%char :: list_ascii_of_string body ++ rest) p =
  run rest (set_comment true (set_current_token "" p)).
Proof.
  intros Hst Hct Hd Hbody.
  rewrite run_cons, (read_character_dispatch _ _ Hd).
  unfold dispatch.
  destruct p as [hp sc scal cs st ct fs tok cf cm lc bl]; simpl in *. subst st.
  unfold dispatch_fields. unfold_m; simpl. rewrite Hct. simpl.
  change (in_chars "=" [":"%char; "{"%char; "}"%char; Str.nl; " "%char; "="%char])
    with true. simpl.
  apply (run_in_comment body
           (mk hp sc scal cs St_fields ct fs "" cf cm lc bl) rest Hbody).
Qed.

Lemma equals_skips_rest_of_line_witness :
  run ("="%char :: list_ascii_of_string " 10 # default" ++ [Str.nl])
      (parser_of (run (list_ascii_of_string "type A { n: Int") init)) =
  run [Str.nl]
      (set_comment true
         (set_current_token ""
            (parser_of (run (list_ascii_of_string "type A { n: Int") init)))).
Proof.
  apply (equals_skips_rest_of_line
           (parser_of (run (list_ascii_of_string "type A { n: Int") init))
           " 10 # default" [Str.nl]);
    vm_compute; reflexivity.
Defined.

(** ** Fields of a record *)

Lemma dict_get_set {V} f g (v : V) d :
  Dict.get g (Dict.set f v d) = if f =? g then Some v else Dict.get g d.
Proof.
  induction d as [|[k0 v0] d IH]; simpl.
  - destruct (f =? g); reflexivity.
  - destruct (k0 =? f) eqn:E; simpl.
    + apply String.eqb_eq in E. subst k0. destruct (f =? g); reflexivity.
    + rewrite IH. destruct (k0 =? g) eqn:E'; [|reflexivity].
      apply String.eqb_eq in E'. subst k0. rewrite String.eqb_sym, E. reflexivity.
Qed.

(** X9: after [add_field f dtype], the bare type identifier of [f] is that
    of [dtype] and that of every other field is what it was; the name and
    the kind of the record are untouched; a field that was already there
    keeps its place in the order of the fields, and a new one goes last. *)
Theorem add_field_then_get_type_id (self : GraphQLSchema.t) (f dtype g : string) :
  GraphQLSchema.get_type_id (GraphQLSchema.add_field f dtype self) g =
    (if f =? g then inr (GraphQLSchema.strip_markers dtype)
     else GraphQLSchema.get_type_id self g) /\
  GraphQLSchema.name (GraphQLSchema.add_field f dtype self) = GraphQLSchema.name self /\
  GraphQLSchema.type (GraphQLSchema.add_field f dtype self) = GraphQLSchema.type self /\
  Dict.keys (GraphQLSchema.fields (GraphQLSchema.add_field f dtype self)) =
    (if Dict.mem f (GraphQLSchema.fields self)
     then Dict.keys (GraphQLSchema.fields self)
     else Dict.keys (GraphQLSchema.fields self) ++ [f])%list.
Proof.
  repeat split.
  - unfold GraphQLSchema.get_type_id. simpl. rewrite dict_get_set.
    destruct (f =? g); reflexivity.
  - simpl. apply dict_keys_set.
Qed.

Lemma dict_set_new {V} f (v : V) d :
  Dict.get f d = None -> Dict.set f v d = (d ++ [(f, v)])%list.
Proof.
  induction d as [|[k0 v0] d IH]; simpl; [reflexivity|].
  destruct (k0 =? f); [discriminate|]. intros H. rewrite (IH H). reflexivity.
Qed.

Lemma fold_add_field_fields fields : forall obj,
  NoDup (map fst fields) ->
  (forall ft, In ft fields -> Dict.get (fst ft) (GraphQLSchema.fields obj) = None) ->
  GraphQLSchema.fields
    (fold_left (fun o ft => GraphQLSchema.add_field (fst ft) (snd ft) o) fields obj) =
  (GraphQLSchema.fields obj ++ fields)%list.
Proof.
  induction fields as [|[f ty] fields IH]; intros obj Hnd Hnew.
  - simpl. rewrite app_nil_r. reflexivity.
  - inversion Hnd as [|? ? Hf Hnd']; subst. cbn [fold_left fst snd].
    rewrite IH; [|exact Hnd'|].
    + simpl. rewrite (dict_set_new f ty _ (Hnew (f, ty) (or_introl eq_refl))).
      rewrite <- app_assoc. reflexivity.
    + intros [g ty'] Hin. simpl. rewrite dict_get_set.
      destruct (f =? g) eqn:E.
      * apply String.eqb_eq in E. subst g. exfalso. apply Hf.
        apply in_map_iff. exists (f, ty'). auto.
      * apply (Hnew (g, ty')). right. exact Hin.
Qed.

(** X10: fields added one after the other to a new record, under names that
    are all different, are kept in the order in which they were added, each
    with its own type expression. *)
Theorem added_fields_keep_their_order (name kind : string)
    (fields : list (string * string)) :
  NoDup (map fst fields) ->
  GraphQLSchema.fields
    (fold_left (fun o ft => GraphQLSchema.add_field (fst ft) (snd ft) o) fields
               (GraphQLSchema.init name kind)) = fields.
Proof.
  intros Hnd. rewrite fold_add_field_fields; [reflexivity | exact Hnd |].
  intros ft _. reflexivity.
Qed.

Lemma added_fields_keep_their_order_witness :
  GraphQLSchema.fields
    (fold_left (fun o ft => GraphQLSchema.add_field (fst ft) (snd ft) o)
               [("id", "ID!"); ("name", "String")]
               (GraphQLSchema.init "User" "type")) =
  [("id", "ID!"); ("name", "String")].
Proof.
  apply (added_fields_keep_their_order "User" "type"
           [("id", "ID!"); ("name", "String")]).
  repeat constructor; simpl; intuition discriminate.
Defined.

(** ** The document [convert_schema] returns *)

(** X11: when [convert_schema] returns a document, the file was parsed
    without an exception into a registry that holds both [Query] and
    [Mutation]; the document is the heading of the entry points, the two
    entry points rendered with the built-in scalars only, the heading of the
    custom types and the remaining records, in the order of the registry and
    rendered with the accumulated scalar set, all joined by blank lines. *)
Theorem convert_schema_document (text md : string) (p' : t) :
  convert_schema text = Ok md p' ->
  exists p q m query_md mutation_md rest,
    read_file text init = Ok tt p /\
    Dict.get "Query" (schemas p) = Some q /\
    Dict.get "Mutation" (schemas p) = Some m /\
    render_at (heap p) None q = inr query_md /\
    render_at (heap p) None m = inr mutation_md /\
    emap (render_at (heap p) (Some (scalars p)))
         (Dict.values (Dict.remove "Mutation" (Dict.remove "Query" (schemas p))))
      = inr rest /\
    md = Str.join (Str.chr Str.nl ++ Str.chr Str.nl)
           ("# Entrypoint Data Types" :: query_md :: mutation_md ::
            "# Custom Data Types" :: rest).
Proof.
  unfold convert_schema, bind. intros H.
  destruct (read_file text init) as [[] p|e p] eqn:Hparse; [|discriminate].
  destruct (to_markdown_layout p md p' H) as [q [m [qmd [mmd [rest Hl]]]]].
  exists p, q, m, qmd, mmd, rest. split; [reflexivity | exact Hl].
Qed.

Lemma convert_schema_document_witness :
  exists p q m query_md mutation_md rest,
    read_file entrypoints_document init = Ok tt p /\
    Dict.get "Query" (schemas p) = Some q /\
    Dict.get "Mutation" (schemas p) = Some m /\
    render_at (heap p) None q = inr query_md /\
    render_at (heap p) None m = inr mutation_md /\
    emap (render_at (heap p) (Some (scalars p)))
         (Dict.values (Dict.remove "Mutation" (Dict.remove "Query" (schemas p))))
      = inr rest /\
    entrypoints_markdown =
      Str.join (Str.chr Str.nl ++ Str.chr Str.nl)
           ("# Entrypoint Data Types" :: query_md :: mutation_md ::
            "# Custom Data Types" :: rest).
Proof.
  apply (convert_schema_document entrypoints_document entrypoints_markdown
           (parser_of (convert_schema entrypoints_document))).
  vm_compute. reflexivity.
Defined.

(** ** Names and closing braces *)

(** X12: the token in the buffer when the delimiter after a declaration
    keyword is read becomes the name of the record as it is, the empty token
    included (a second space after the keyword is enough); a scalar is then
    registered under that name and its name joins the scalar set, any other
    record goes on to its body. *)
Theorem name_is_the_token_as_it_is (l : list ascii) (p : t) (c : ascii) :
  run l init = Ok tt p ->
  state p = St_name -> dispatches c p = true ->
  in_chars c [" "; Str.nl; "{"]%char = true ->
  exists a p',
    current_schema p = Some a /\
    read_character c p = Ok tt p' /\
    nth_error (heap p') a =
      Some (GraphQLSchema.mk (current_token p) (current_type p) []) /\
    state p' = (if current_type p =? "scalar" then St_none else St_fields) /\
    (current_type p = "scalar" ->
     Dict.get (current_token p) (schemas p') = Some a /\
     set_in (current_token p) (scalars p') = true).
Proof.
  intros Hrun Hst Hd Hin. pose proof (Inv_run _ _ _ Inv_init Hrun) as HI.
  rewrite (read_character_dispatch _ _ Hd). clear Hd. unfold dispatch.
  destruct p as [hp sc scal cs st ct fs tok cf cm lc bl]; simpl in *. subst st.
  destruct HI as [Hk Hv Hr Hs]; simpl in *.
  destruct Hs as [Hkw [a [Hcs [Hfresh Ha]]]]. subst cs.
  clear Hrun.
  exists a. unfold dispatch_name. unfold_m; simpl. rewrite Hin; simpl.
  destruct (ct =? "scalar") eqn:Ect; eexists; (split; [reflexivity|]);
    rewrite Ha; simpl; rewrite ?Ect; simpl;
    rewrite ?(nth_error_update_nth_eq _ _ _ _ Ha); simpl;
    (split; [reflexivity|]); simpl;
    (split; [rewrite (nth_error_update_nth_eq _ _ _ _ Ha); reflexivity|]);
    (split; [reflexivity|]).
  - intros _. split; [apply dict_get_set_same|].
    rewrite set_in_set_add, String.eqb_refl. apply orb_true_r.
  - intros ->. discriminate Ect.
Qed.

Lemma name_is_the_token_as_it_is_witness :
  exists a p',
    current_schema (parser_of (run (list_ascii_of_string "scalar ") init)) = Some a /\
    read_character " " (parser_of (run (list_ascii_of_string "scalar ") init))
      = Ok tt p' /\
    nth_error (heap p') a = Some (GraphQLSchema.mk "" "scalar" []) /\
    state p' = St_none /\
    ("scalar" = "scalar" ->
     Dict.get "" (schemas p') = Some a /\ set_in "" (scalars p') = true).
Proof.
  apply (name_is_the_token_as_it_is (list_ascii_of_string "scalar ")
           (parser_of (run (list_ascii_of_string "scalar ") init)) " ");
    vm_compute; reflexivity.
Defined.

(** X13: a closing brace read in a body registers the current record with
    the fields recorded so far and nothing else: the heap is left as it is,
    so a token still in the buffer (a type expression with no space before
    the brace) and a field name waiting for its type are dropped. *)
Theorem closing_brace_registers_record_as_it_is (l : list ascii) (p : t) :
  run l init = Ok tt p ->
  state p = St_fields -> dispatches "}" p = true ->
  exists a obj,
    current_schema p = Some a /\ nth_error (heap p) a = Some obj /\
    read_character "}" p =
      Ok tt (mk (heap p) (Dict.set (GraphQLSchema.name obj) a (schemas p))
                (scalars p) None St_none "" Fs_field "" (current_field p)
                false false (bracket_level p)).
Proof.
  intros Hrun Hst Hd. pose proof (Inv_run _ _ _ Inv_init Hrun) as HI.
  rewrite (read_character_dispatch _ _ Hd).
  assert (Hl : long_comment p = false).
  { unfold dispatches in Hd. apply andb_prop in Hd as [_ Hd].
    apply negb_true_iff in Hd. exact Hd. }
  clear Hd. unfold dispatch.
  destruct p as [hp sc scal cs st ct fs tok cf cm lc bl]; simpl in *. subst st lc.
  destruct HI as [Hk Hv Hr Hs]; simpl in *.
  destruct Hs as [Hkw [a [obj [Hcs [Hfresh [Ha [Hty [Henum Hdt]]]]]]]]. subst cs.
  assert (Hne : nonempty ct = true).
  { unfold nonempty. apply negb_true_iff, String.eqb_neq. intros ->.
    simpl in Hkw. intuition discriminate. }
  exists a, obj. split; [reflexivity|]. split; [exact Ha|].
  unfold dispatch_fields. unfold_m; simpl. rewrite Hne; simpl.
  rewrite Ha. reflexivity.
Qed.

Lemma closing_brace_registers_record_as_it_is_witness :
  exists a obj,
    current_schema (parser_of (run (list_ascii_of_string "type A { x: Int") init))
      = Some a /\
    nth_error (heap (parser_of (run (list_ascii_of_string "type A { x: Int") init))) a
      = Some obj /\
    read_character "}" (parser_of (run (list_ascii_of_string "type A { x: Int") init)) =
      Ok tt (mk [GraphQLSchema.mk "A" "type" []]
                (Dict.set (GraphQLSchema.name obj) a []) SCALARS None St_none ""
                Fs_field "" "x" false false 0).
Proof.
  apply (closing_brace_registers_record_as_it_is
           (list_ascii_of_string "type A { x: Int")
           (parser_of (run (list_ascii_of_string "type A { x: Int") init)));
    vm_compute; reflexivity.
Defined.

(** ** From a well-formed schema to its document *)

(** assembly succeeds when both entry points are registered and every
    registered record can be rendered *)
Lemma assembly_succeeds p :
  Dict.mem "Query" (schemas p) = true ->
  Dict.mem "Mutation" (schemas p) = true ->
  (forall a s, In a (Dict.values (schemas p)) ->
               exists md, render_at (heap p) s a = inr md) ->
  exists md p', to_markdown p = Ok md p'.
Proof.
  unfold Dict.mem. intros HQ HM Hrender.
  destruct (Dict.get "Query" (schemas p)) as [q|] eqn:Eq; [|discriminate].
  destruct (Dict.get "Mutation" (schemas p)) as [m|] eqn:Em; [|discriminate].
  destruct (Hrender q None (dict_in_values _ _ _ (dict_get_in _ _ _ Eq)))
    as [qmd Hq].
  destruct (Hrender m None (dict_in_values _ _ _ (dict_get_in _ _ _ Em)))
    as [mmd Hm].
  destruct (emap_inr (render_at (heap p) (Some (scalars p)))
              (Dict.values (Dict.remove "Mutation" (Dict.remove "Query" (schemas p)))))
    as [rest Hrest].
  { intros a Ha. apply Hrender. unfold Dict.values, Dict.remove in *.
    apply in_map_iff in Ha as [[k b] [Hb Hin]].
    apply filter_In in Hin as [Hin _]. apply filter_In in Hin as [Hin _].
    apply in_map_iff. exists (k, b). auto. }
  unfold to_markdown, pop. unfold_m. rewrite Eq.
  rewrite schema_to_markdown_render.
  destruct p as [hp sc scal cs st ct fs tok cf cm lc bl]; simpl in *.
  rewrite Hq. simpl. rewrite dict_get_remove_other. simpl. rewrite Em.
  rewrite schema_to_markdown_render. simpl. rewrite Hm. simpl.
  rewrite map_m_render. simpl. rewrite Hrest. eauto.
Qed.

Lemma declared_registry_get k ds : forall a reg,
  In k (map declared_name ds) \/ Dict.mem k reg = true ->
  Dict.mem k (declared_registry a ds reg) = true.
Proof.
  induction ds as [|d ds IH]; intros a reg H; simpl.
  - destruct H as [[]|H]. exact H.
  - apply IH. simpl in H. unfold Dict.mem. rewrite dict_get_set.
    destruct (declared_name d =? k) eqn:E; [right; reflexivity|].
    apply String.eqb_neq in E.
    destruct H as [[H|H]|H]; [congruence | left; exact H | right; exact H].
Qed.

Lemma declared_registry_values ds : forall a reg b,
  In b (Dict.values (declared_registry a ds reg)) ->
  In b (Dict.values reg) \/ a <= b < a + List.length ds.
Proof.
  induction ds as [|d ds IH]; intros a reg b H; simpl in *; [left; exact H|].
  apply IH in H as [H|H]; [|right; lia].
  apply dict_values_set_in in H as [->|H]; [right; lia | left; exact H].
Qed.

Lemma fold_add_field_get fields : forall obj f ty,
  Dict.get f (GraphQLSchema.fields
                (fold_left (fun o ft => GraphQLSchema.add_field (fst ft) (snd ft) o)
                           fields obj)) = Some ty ->
  In (f, ty) fields \/ Dict.get f (GraphQLSchema.fields obj) = Some ty.
Proof.
  induction fields as [|[g ty'] fields IH]; intros obj f ty H; [right; exact H|].
  cbn [fold_left fst snd] in H. apply IH in H as [H|H]; [left; right; exact H|].
  simpl in H. rewrite dict_get_set in H.
  destruct (g =? f) eqn:E; [|right; exact H].
  apply String.eqb_eq in E. subst g. injection H as ->. left. left. reflexivity.
Qed.

Lemma fold_add_field_type {A} (g : GraphQLSchema.t -> A -> GraphQLSchema.t) l :
  (forall o a, GraphQLSchema.type (g o a) = GraphQLSchema.type o) ->
  forall obj, GraphQLSchema.type (fold_left g l obj) = GraphQLSchema.type obj.
Proof.
  intros Hg. induction l as [|a l IH]; intros obj; simpl; [reflexivity|].
  rewrite IH. apply Hg.
Qed.

Lemma to_markdown_inl_field self title_prefix scalars e :
  GraphQLSchema.to_markdown self title_prefix scalars = inl e ->
  exists field dtype,
    Dict.get field (GraphQLSchema.fields self) = Some dtype /\
    GraphQLSchema.strip_markers dtype = "".
Proof.
  unfold GraphQLSchema.to_markdown.
  destruct (GraphQLSchema.type self =? "scalar"); [discriminate|].
  destruct (GraphQLSchema.type self =? "enum"); [discriminate|].
  unfold ebind at 1.
  destruct (ebind (emap _ _) _) as [e'|r] eqn:E; [|destruct r as [[? ?] ?]; discriminate].
  intros _. unfold ebind in E.
  destruct (emap _ _) as [e''|table] eqn:Em; [|discriminate].
  apply emap_inl in Em as [[field dtype] [Hin Hrow]].
  unfold GraphQLSchema.field_row, ebind in Hrow.
  destruct (GraphQLSchema.dtype_markdown self _ field dtype) as [e1|md] eqn:Ed;
    [|discriminate].
  destruct (dtype_markdown_inl _ _ _ _ _ Hin Ed) as [_ [dtype' [Hget [Hstrip _]]]].
  eauto.
Qed.

Lemma declared_record_renders d title_prefix scalars :
  renderable d = true ->
  exists md, GraphQLSchema.to_markdown (declared_record d) title_prefix scalars = inr md.
Proof.
  intros Hr. destruct d as [n|n values|kind n fields].
  - unfold GraphQLSchema.to_markdown. simpl. eexists. reflexivity.
  - assert (Hty : GraphQLSchema.type (declared_record (EnumDecl n values)) = "enum")
      by (simpl; rewrite fold_add_field_type; reflexivity).
    unfold GraphQLSchema.to_markdown. rewrite Hty.
    simpl. eexists. reflexivity.
  - destruct (GraphQLSchema.to_markdown (declared_record (ObjectDecl kind n fields))
                title_prefix scalars) as [e|md] eqn:E; [|eauto].
    exfalso. apply to_markdown_inl_field in E as [field [dtype [Hget Hstrip]]].
    simpl in Hget.
    apply fold_add_field_get in Hget as [Hin|Hget]; [|discriminate Hget].
    simpl in Hr. rewrite forallb_forall in Hr. specialize (Hr _ Hin).
    simpl in Hr. unfold nonempty in Hr. rewrite Hstrip in Hr. discriminate Hr.
Qed.

(** X14: a document made of well-formed declarations, among them one named
    [Query] and one named [Mutation], every field of which has a type
    expression with a bare identifier, is converted without an exception:
    [convert_schema] returns a document. *)
Theorem well_formed_schema_converts (ds : list Declaration) :
  forallb well_formed ds = true ->
  forallb renderable ds = true ->
  In "Query" (map declared_name ds) ->
  In "Mutation" (map declared_name ds) ->
  exists md p, convert_schema (document_text ds) = Ok md p.
Proof.
  intros Hwf Hr HQ HM. unfold convert_schema, bind.
  rewrite (read_file_document _ _ Hwf).
  destruct (run_document ds [] [] SCALARS 0%Z None "" Fs_field "" eq_refl Hwf)
    as [cs [ct [fs [cf Hrun]]]].
  unfold init. rewrite Hrun. apply assembly_succeeds; simpl.
  - apply declared_registry_get. left. exact HQ.
  - apply declared_registry_get. left. exact HM.
  - intros a s Ha. apply declared_registry_values in Ha as [[]|Ha].
    unfold render_at.
    destruct (nth_error (map declared_record ds) a) as [obj|] eqn:Eo.
    + apply nth_error_In, in_map_iff in Eo as [d [<- Hd]].
      apply declared_record_renders.
      rewrite forallb_forall in Hr. apply Hr, Hd.
    + apply nth_error_None in Eo. rewrite length_map in Eo. lia.
Qed.

Lemma well_formed_schema_converts_witness :
  exists md p, convert_schema (document_text complete_declarations) = Ok md p.
Proof.
  apply (well_formed_schema_converts complete_declarations);
    [reflexivity | reflexivity | simpl; auto | simpl; auto].
Defined.

(** ** The sections of the document *)

(** X15: a field whose type expression is a known scalar wrapped in list
    and non-null markers is rendered verbatim, markers included, in one
    fixed-width span and without a link. *)
Theorem dtype_markdown_known_scalar (self : GraphQLSchema.t)
    (scalars : list string) (field opening ident closing : string) :
  all_chars (fun c => negb (is_marker c)) ident = true ->
  all_chars is_marker opening = true ->
  all_chars is_marker closing = true ->
  Dict.get field (GraphQLSchema.fields self) = Some (opening ++ ident ++ closing) ->
  set_in ident scalars = true ->
  GraphQLSchema.dtype_markdown self scalars field (opening ++ ident ++ closing) =
  inr ("`" ++ (opening ++ ident ++ closing) ++ "`").
Proof.
  intros Hid Hop Hcl Hget Hset.
  unfold GraphQLSchema.dtype_markdown, GraphQLSchema.get_type_id.
  rewrite Hget. cbn [ebind].
  rewrite (strip_markers_wrapped _ _ _ Hid Hop Hcl), Hset. reflexivity.
Qed.

Lemma dtype_markdown_known_scalar_witness :
  GraphQLSchema.dtype_markdown
    (GraphQLSchema.add_field "ids" "[ID!]!" (GraphQLSchema.init "Page" "type"))
    SCALARS "ids" ("[" ++ "ID" ++ "!]!") =
  inr ("`" ++ ("[" ++ "ID" ++ "!]!") ++ "`").
Proof.
  apply (dtype_markdown_known_scalar _ SCALARS "ids" "[" "ID" "!]!"); reflexivity.
Defined.

(** X16: an enum record is rendered as its heading, the line
    [Datatype class: *Enum*] and a table of one centred column [Values] with
    one row for each value, in the order of the record, whatever the scalar
    set. *)
Theorem enum_section (self : GraphQLSchema.t) (title_prefix : string)
    (scalars : option (list string)) :
  GraphQLSchema.type self = "enum" ->
  GraphQLSchema.to_markdown self title_prefix scalars =
  inr (title_prefix ++ " " ++ GraphQLSchema.name self ++
       Str.chr Str.nl ++ Str.chr Str.nl ++
       "Datatype class: *Enum*" ++ Str.chr Str.nl ++ Str.chr Str.nl ++
       "| Values |" ++ Str.chr Str.nl ++
       "| :-: |" ++ Str.chr Str.nl ++
       Str.join (Str.chr Str.nl)
         (map (fun value => "| **`" ++ value ++ "`** |")
              (Dict.keys (GraphQLSchema.fields self)))).
Proof.
  intros Hty. unfold GraphQLSchema.to_markdown. rewrite Hty.
  change ("enum" =? "scalar") with false. change ("enum" =? "enum") with true.
  cbn [ebind]. unfold table_to_markdown, row_to_markdown. rewrite map_map.
  do 2 f_equal. simpl.
  assert (H : forall l,
           map (fun x => String "|" (String " "
                  (Str.join " | " [String "*" (String "*" (String "`" (x ++ "`**")))]
                   ++ " |"))) l =
           map (fun value => String "|" (String " " (String "*" (String "*"
                  (String "`" (value ++ "`** |")))))) l).
  { intros l. apply map_ext. intros x. unfold Str.join. simpl.
    rewrite append_assoc. reflexivity. }
  rewrite H. reflexivity.
Qed.

Lemma enum_section_witness :
  GraphQLSchema.to_markdown
    (declared_record (EnumDecl "Color" ["RED"; "GREEN"; "BLUE"])) "##" None =
  inr ("##" ++ " " ++ "Color" ++
       Str.chr Str.nl ++ Str.chr Str.nl ++
       "Datatype class: *Enum*" ++ Str.chr Str.nl ++ Str.chr Str.nl ++
       "| Values |" ++ Str.chr Str.nl ++
       "| :-: |" ++ Str.chr Str.nl ++
       Str.join (Str.chr Str.nl)
         (map (fun value => "| **`" ++ value ++ "`** |") ["RED"; "GREEN"; "BLUE"])).
Proof.
  apply (enum_section (declared_record (EnumDecl "Color" ["RED"; "GREEN"; "BLUE"]))
           "##" None).
  reflexivity.
Defined.

Lemma emap_field_row self scalars items : forall mds,
  emap (fun item => GraphQLSchema.dtype_markdown self scalars (fst item) (snd item))
       items = inr mds ->
  emap (GraphQLSchema.field_row self scalars) items =
  inr (map (fun field_md => ["**`" ++ fst (fst field_md) ++ "`:** " ++ snd field_md; "-"])
           (combine items mds)).
Proof.
  induction items as [|[f d] items IH]; intros mds; simpl.
  - intros _. reflexivity.
  - unfold ebind.
    destruct (GraphQLSchema.dtype_markdown self scalars f d) as [e|md]; [discriminate|].
    destruct (emap _ items) as [e|mds'] eqn:E; [discriminate|].
    intros H. injection H as <-. rewrite (IH _ eq_refl). reflexivity.
Qed.

(** X17: a record that is neither a scalar nor an enum, and whose type
    expressions are all rendered, becomes its heading, the line
    [Datatype class:] with its kind capitalised, and a table [Field |
    Description] with one row for each field, in the order of the record:
    the field name, the Markdown of its type expression, and [-] for the
    description. *)
Theorem object_section (self : GraphQLSchema.t) (title_prefix : string)
    (scalars : option (list string)) (mds : list string) :
  GraphQLSchema.type self <> "scalar" -> GraphQLSchema.type self <> "enum" ->
  emap (fun item => GraphQLSchema.dtype_markdown self (effective_scalars scalars)
                      (fst item) (snd item))
       (Dict.items (GraphQLSchema.fields self)) = inr mds ->
  GraphQLSchema.to_markdown self title_prefix scalars =
  inr (title_prefix ++ " " ++ GraphQLSchema.name self ++
       Str.chr Str.nl ++ Str.chr Str.nl ++
       "Datatype class: *" ++ Str.capitalize (GraphQLSchema.type self) ++ "*" ++
       Str.chr Str.nl ++ Str.chr Str.nl ++
       "| Field | Description |" ++ Str.chr Str.nl ++
       "| --- | --- |" ++ Str.chr Str.nl ++
       Str.join (Str.chr Str.nl)
         (map field_line (combine (Dict.items (GraphQLSchema.fields self)) mds))).
Proof.
  intros Hs He Hmds. unfold GraphQLSchema.to_markdown.
  fold (effective_scalars scalars).
  apply String.eqb_neq in Hs, He. rewrite Hs, He.
  rewrite (emap_field_row _ _ _ _ Hmds). cbn [ebind].
  unfold table_to_markdown. rewrite map_map. do 3 f_equal.
  simpl. do 3 f_equal.
  assert (H : forall l,
            map (fun x : string * string * string =>
                   row_to_markdown ["**`" ++ fst (fst x) ++ "`:** " ++ snd x; "-"]) l =
            map field_line l).
  { intros l. apply map_ext. intros [[f d] md].
    unfold row_to_markdown, field_line, Str.join. simpl.
    rewrite !append_assoc. reflexivity. }
  rewrite H. reflexivity.
Qed.

Lemma object_section_witness :
  GraphQLSchema.to_markdown
    (GraphQLSchema.add_field "ids" "[ID!]!" (GraphQLSchema.init "Page" "input"))
    "##" None =
  inr ("##" ++ " " ++ "Page" ++
       Str.chr Str.nl ++ Str.chr Str.nl ++
       "Datatype class: *" ++ Str.capitalize "input" ++ "*" ++
       Str.chr Str.nl ++ Str.chr Str.nl ++
       "| Field | Description |" ++ Str.chr Str.nl ++
       "| --- | --- |" ++ Str.chr Str.nl ++
       Str.join (Str.chr Str.nl)
         (map field_line (combine [("ids", "[ID!]!")] ["`[ID!]!`"]))).
Proof.
  apply (object_section
           (GraphQLSchema.add_field "ids" "[ID!]!" (GraphQLSchema.init "Page" "input"))
           "##" None ["`[ID!]!`"]);
    [discriminate | discriminate | reflexivity].
Defined.
